(** * SingleLinkedList<Type>: a shallow embedding of single-linked-list.h

    The container is a chain of heap nodes hanging off a sentinel node
    [head_] that is a member of the list object.  The embedding keeps the
    pointer structure of the source: a memory holds the heap nodes and the
    live list objects, node pointers are values, and every member function
    is a computation over that memory which may return, propagate
    [std::bad_alloc], or run into undefined behaviour. *)

From stdpp Require Import base gmap list.
From Stdlib Require Import ZArith Lia.

(** ** Element type requirements

    What the template asks of [Type]: [Node() = default] default-initialises
    the value of the sentinel, [operator==] of lists uses [==] of the
    elements and [operator<] uses [<]. *)
Class Element (T : Type) := {
  elt_default : T;
  elt_eq : T -> T -> bool;
  elt_lt : T -> T -> bool
}.

(** ** Pointers

    A [Node*] is null, the address of a node obtained from [new], or the
    address of the [head_] member of a list object. *)
Inductive ptr : Type :=
  | nullptr
  | HeapNode (a : Z)
  | HeadOf (l : nat).

#[global] Instance ptr_eq_dec : EqDecision ptr.
Proof. solve_decision. Defined.

(** [BasicIterator<ValueType>]: the only data member is [node_].  The
    mutable and the constant iterator differ in their static type only. *)
Record BasicIterator : Type := mkIter { node_ : ptr }.

(** [BasicIterator() = default]: [node_] is null. *)
Definition BasicIterator_default : BasicIterator := mkIter nullptr.

(** [BasicIterator::pointer], a [ValueType*]: null or the address of the
    [value] member of a node. *)
Inductive pointer : Type :=
  | null_value
  | value_of (p : ptr).

(** [size_t] is taken to be 64 bits wide, as is a pointer. *)
Definition SIZE_WIDTH : Z := 64.
Definition to_size_t (z : Z) : Z := z mod 2 ^ SIZE_WIDTH.

Section Model.
Context {T : Type}.

(** ** Nodes, list objects, memory *)

Record Node : Type := mkNode { value : T; next_node : ptr }.

Record SingleLinkedList : Type := mkList { head_ : Node; size_ : Z }.

(** [heap] holds the nodes made by [new Node], [lists] the live list
    objects.  [new_results] is the sequence of answers the allocator is
    going to give: [Some a] hands out address [a], [None] throws
    [std::bad_alloc].  No allocator hands out the null address, an address
    that does not fit a pointer or the address of a live node: such an
    answer is taken as a failure too. *)
Record Memory : Type := mkMemory {
  heap : gmap Z Node;
  lists : gmap nat SingleLinkedList;
  new_results : list (option Z)
}.

Definition with_heap (m : Memory) (h : gmap Z Node) : Memory :=
  mkMemory h (lists m) (new_results m).
Definition with_lists (m : Memory) (ls : gmap nat SingleLinkedList) : Memory :=
  mkMemory (heap m) ls (new_results m).
Definition with_new_results (m : Memory) (r : list (option Z)) : Memory :=
  mkMemory (heap m) (lists m) r.

(** ** Computations *)

Inductive outcome (A : Type) : Type :=
  | Ok (a : A) (m : Memory)      (* normal return *)
  | BadAlloc (m : Memory)        (* std::bad_alloc propagates *)
  | UB                           (* undefined behaviour *)
  | OutOfFuel.                   (* a loop did not finish within its bound *)
Arguments Ok {A} a m.
Arguments BadAlloc {A} m.
Arguments UB {A}.
Arguments OutOfFuel {A}.

Definition M (A : Type) : Type := Memory -> outcome A.

Definition ret {A} (a : A) : M A := fun m => Ok a m.

Definition bind {A B} (c : M A) (k : A -> M B) : M B := fun m =>
  match c m with
  | Ok a m' => k a m'
  | BadAlloc m' => BadAlloc m'
  | UB => UB
  | OutOfFuel => OutOfFuel
  end.

Notation "'let*' x ':=' c 'in' k" := (bind c (fun x => k))
  (at level 10, x name, c at level 100, k at level 200).

(** Runs [cleanup] when [c] returns and when it throws (a destructor of a
    local during normal exit and during stack unwinding).  The destructors of
    this class are [noexcept]. *)
Definition finally {A} (c : M A) (cleanup : M unit) : M A := fun m =>
  match c m with
  | Ok a m1 =>
      match cleanup m1 with
      | Ok _ m2 => Ok a m2
      | BadAlloc _ => UB
      | UB => UB
      | OutOfFuel => OutOfFuel
      end
  | BadAlloc m1 =>
      match cleanup m1 with
      | Ok _ m2 => BadAlloc m2
      | BadAlloc _ => UB
      | UB => UB
      | OutOfFuel => OutOfFuel
      end
  | UB => UB
  | OutOfFuel => OutOfFuel
  end.

(** The memory a computation leaves behind when it returns or throws. *)
Definition final {A} (o : outcome A) : option Memory :=
  match o with
  | Ok _ m => Some m
  | BadAlloc m => Some m
  | UB => None
  | OutOfFuel => None
  end.

(** ** Memory accesses *)

(** Reading [*p]. *)
Definition load (p : ptr) : M Node := fun m =>
  match p with
  | nullptr => UB
  | HeapNode a =>
      match heap m !! a with Some n => Ok n m | None => UB end
  | HeadOf l =>
      match lists m !! l with Some o => Ok (head_ o) m | None => UB end
  end.

(** [p->next_node] and [p->value]. *)
Definition get_next (p : ptr) : M ptr :=
  let* n := load p in ret (next_node n).
Definition get_value (p : ptr) : M T :=
  let* n := load p in ret (value n).

(** [p->next_node = q]. *)
Definition set_next (p q : ptr) : M unit := fun m =>
  match p with
  | nullptr => UB
  | HeapNode a =>
      match heap m !! a with
      | Some n => Ok tt (with_heap m (<[a := mkNode (value n) q]> (heap m)))
      | None => UB
      end
  | HeadOf l =>
      match lists m !! l with
      | Some o =>
          Ok tt (with_lists m
                   (<[l := mkList (mkNode (value (head_ o)) q) (size_ o)]> (lists m)))
      | None => UB
      end
  end.

Definition get_size (this : nat) : M Z := fun m =>
  match lists m !! this with Some o => Ok (size_ o) m | None => UB end.

Definition set_size (this : nat) (s : Z) : M unit := fun m =>
  match lists m !! this with
  | Some o => Ok tt (with_lists m (<[this := mkList (head_ o) s]> (lists m)))
  | None => UB
  end.

(** [++size_] and [--size_] on a [size_t]. *)
Definition incr_size (this : nat) : M unit :=
  let* s := get_size this in set_size this (to_size_t (s + 1)).
Definition decr_size (this : nat) : M unit :=
  let* s := get_size this in set_size this (to_size_t (s - 1)).

(** An address the allocator may hand out: not null, representable, and
    not the address of a live node. *)
Definition usable (m : Memory) (a : Z) : Prop :=
  (0 < a < 2 ^ SIZE_WIDTH)%Z /\ heap m !! a = None.

#[global] Instance usable_dec m a : Decision (usable m a).
Proof. unfold usable. apply _. Defined.

(** [new Node(v, next)].  The arguments [v] and [next] are values: the
    callers read them from memory before the allocation is attempted.  These
    reads change nothing and the node is placed at an address that was not
    in use, so whenever a caller does not run into undefined behaviour the
    order of the reads and the allocation makes no difference to its
    outcome. *)
Definition new_Node (v : T) (next : ptr) : M ptr := fun m =>
  match new_results m with
  | Some a :: rest =>
      if decide (usable m a)
      then Ok (HeapNode a)
              (mkMemory (<[a := mkNode v next]> (heap m)) (lists m) rest)
      else BadAlloc (with_new_results m rest)
  | None :: rest => BadAlloc (with_new_results m rest)
  | [] => BadAlloc m
  end.

(** [delete p]. *)
Definition delete_Node (p : ptr) : M unit := fun m =>
  match p with
  | nullptr => Ok tt m
  | HeapNode a =>
      match heap m !! a with
      | Some _ => Ok tt (with_heap m (delete a (heap m)))
      | None => UB
      end
  | HeadOf _ => UB
  end.

(** Every null-terminated chain of distinct heap nodes is shorter than
    this; the loops over a chain run with it as their bound. *)
Definition chain_bound : M nat := fun m => Ok (S (size (heap m))) m.

(** ** BasicIterator *)

Definition iter_eq (a b : BasicIterator) : bool :=
  bool_decide (node_ a = node_ b).
Definition iter_ne (a b : BasicIterator) : bool :=
  negb (bool_decide (node_ a = node_ b)).

(** [operator++()]: the result is the iterator itself, advanced. *)
Definition pre_incr (it : BasicIterator) : M BasicIterator :=
  let* n := get_next (node_ it) in ret (mkIter n).

(** [operator++(int)]: the old value, and the iterator after the call. *)
Definition post_incr (it : BasicIterator) : M (BasicIterator * BasicIterator) :=
  let old_value := it in
  let* it' := pre_incr it in
  ret (old_value, it').

(** [operator*()]. *)
Definition deref (it : BasicIterator) : M T := get_value (node_ it).

(** [operator->()]. *)
Definition arrow (it : BasicIterator) : pointer :=
  if decide (node_ it <> nullptr) then value_of (node_ it) else null_value.

(** Reading through a [pointer]. *)
Definition load_pointer (p : pointer) : M T :=
  match p with
  | null_value => fun _ => UB
  | value_of q => get_value q
  end.

(** ** Ranges

    [Init] is a template over the iterator type of its range; it uses
    [!=], [++] and [*]. *)
Class Range (It : Type) := {
  range_ne : It -> It -> bool;
  range_incr : It -> M It;
  range_deref : It -> M T
}.

#[global] Instance BasicIterator_range : Range BasicIterator := {
  range_ne := iter_ne;
  range_incr := pre_incr;
  range_deref := deref
}.

(** A [const Type*] into the array behind a [std::initializer_list]. *)
Record ArrayPtr : Type := mkArrayPtr { array : list T; index : nat }.

#[global] Instance ArrayPtr_range : Range ArrayPtr := {
  range_ne p q := negb (index p =? index q)%nat;
  range_incr p := ret (mkArrayPtr (array p) (S (index p)));
  range_deref p := fun m =>
    match array p !! index p with Some v => Ok v m | None => UB end
}.

Definition il_begin (values : list T) : ArrayPtr := mkArrayPtr values 0.
Definition il_end (values : list T) : ArrayPtr := mkArrayPtr values (length values).

(** ** SingleLinkedList *)

Definition begin (this : nat) : M BasicIterator :=
  let* n := get_next (HeadOf this) in ret (mkIter n).
Definition end_ (this : nat) : M BasicIterator := ret (mkIter nullptr).
Definition cbegin := begin.
Definition cend := end_.
Definition before_begin (this : nat) : M BasicIterator :=
  ret (mkIter (HeadOf this)).
Definition cbefore_begin := before_begin.

Definition GetSize (this : nat) : M Z := get_size this.
Definition IsEmpty (this : nat) : M bool :=
  let* s := get_size this in ret (s =? 0)%Z.

(** [std::swap] on two [next_node] members and on two [size_] members. *)
Definition std_swap_next (p q : ptr) : M unit :=
  let* tmp := get_next p in
  let* b := get_next q in
  let* _ := set_next p b in
  set_next q tmp.

Definition std_swap_size (a b : nat) : M unit :=
  let* tmp := get_size a in
  let* s := get_size b in
  let* _ := set_size a s in
  set_size b tmp.

Definition swap (this other : nat) : M unit :=
  let* _ := std_swap_next (HeadOf this) (HeadOf other) in
  std_swap_size this other.

(** The free function [swap(lhs, rhs)]. *)
Definition swap_free (lhs rhs : nat) : M unit := swap lhs rhs.

Fixpoint Init_loop {It} `{Range It} (fuel : nat) (this : nat) (node : ptr)
    (it range_end : It) : M unit :=
  match fuel with
  | O => fun _ => OutOfFuel
  | S fuel' =>
      if range_ne it range_end then
        let* _ := incr_size this in
        let* v := range_deref it in
        let* p := new_Node v nullptr in
        let* _ := set_next node p in
        let* node' := get_next node in
        let* it' := range_incr it in
        Init_loop fuel' this node' it' range_end
      else ret tt
  end.

Definition Init {It} `{Range It} (fuel : nat) (this : nat)
    (range_begin range_end : It) : M unit :=
  Init_loop fuel this (HeadOf this) range_begin range_end.

Definition PushFront (this : nat) (v : T) : M unit :=
  let* first := get_next (HeadOf this) in
  let* p := new_Node v first in
  let* _ := set_next (HeadOf this) p in
  incr_size this.

Definition InsertAfter (this : nat) (pos : BasicIterator) (v : T) : M BasicIterator :=
  let* after := get_next (node_ pos) in
  let* new_node := new_Node v after in
  let* _ := set_next (node_ pos) new_node in
  let* _ := incr_size this in
  let* r := get_next (node_ pos) in
  ret (mkIter r).

Definition PopFront (this : nat) : M unit :=
  let* first := get_next (HeadOf this) in
  let* tmp := get_next first in
  let* first' := get_next (HeadOf this) in
  let* _ := delete_Node first' in
  let* _ := set_next (HeadOf this) tmp in
  decr_size this.

Definition EraseAfter (this : nat) (pos : BasicIterator) : M BasicIterator :=
  let* victim := get_next (node_ pos) in
  let* tmp := get_next victim in
  let* victim' := get_next (node_ pos) in
  let* _ := delete_Node victim' in
  let* _ := set_next (node_ pos) tmp in
  let* _ := decr_size this in
  let* r := get_next (node_ pos) in
  ret (mkIter r).

Fixpoint Clear_loop (fuel : nat) (this : nat) : M unit :=
  match fuel with
  | O => fun _ => OutOfFuel
  | S fuel' =>
      let* first := get_next (HeadOf this) in
      if decide (first <> nullptr) then
        let* new_head := get_next first in
        let* first' := get_next (HeadOf this) in
        let* _ := delete_Node first' in
        let* _ := set_next (HeadOf this) new_head in
        Clear_loop fuel' this
      else ret tt
  end.

Definition Clear (this : nat) : M unit :=
  let* fuel := chain_bound in
  let* _ := Clear_loop fuel this in
  set_size this 0.

(** *** Object lifetime *)

(** The default member initialisers: [head_] is a default node and
    [size_ = 0u].  The storage must not hold a live list. *)
Definition member_init `{Element T} (this : nat) : M unit := fun m =>
  match lists m !! this with
  | Some _ => UB
  | None =>
      Ok tt (with_lists m (<[this := mkList (mkNode elt_default nullptr) 0]> (lists m)))
  end.

(** The storage of the object goes away. *)
Definition release (this : nat) : M unit := fun m =>
  match lists m !! this with
  | Some _ => Ok tt (with_lists m (delete this (lists m)))
  | None => UB
  end.

(** A constructor: the members are initialised, then the body runs.  When
    the body throws the object never comes to life: its members are
    released and its destructor does not run. *)
Definition constructor `{Element T} (this : nat) (body : M unit) : M unit := fun m =>
  match member_init this m with
  | Ok _ m1 =>
      match body m1 with
      | Ok _ m2 => Ok tt m2
      | BadAlloc m2 =>
          match release this m2 with
          | Ok _ m3 => BadAlloc m3
          | _ => UB
          end
      | UB => UB
      | OutOfFuel => OutOfFuel
      end
  | _ => UB
  end.

(** [~SingleLinkedList()]. *)
Definition destructor (this : nat) : M unit :=
  let* _ := Clear this in release this.

(** A local variable of the class: constructed in fresh storage, destroyed
    when its scope is left. *)
Definition local {A} (ctor : nat -> M unit) (body : nat -> M A) : M A := fun m =>
  let tmp := fresh (dom (lists m)) in
  (let* _ := ctor tmp in finally (body tmp) (destructor tmp)) m.

(** A variable of the class declared by the user of the container. *)
Definition declare (ctor : nat -> M unit) : M nat := fun m =>
  let l := fresh (dom (lists m)) in
  (let* _ := ctor l in ret l) m.

(** [SingleLinkedList()]. *)
Definition SingleLinkedList_default `{Element T} (this : nat) : M unit :=
  constructor this (ret tt).

(** [SingleLinkedList(std::initializer_list<Type> values)]. *)
Definition SingleLinkedList_ilist `{Element T} (this : nat) (values : list T) : M unit :=
  constructor this
    (local SingleLinkedList_default (fun tmp =>
       let* _ := Init (S (length values)) tmp (il_begin values) (il_end values) in
       swap this tmp)).

(** [SingleLinkedList(const SingleLinkedList& other)]. *)
Definition SingleLinkedList_copy `{Element T} (this other : nat) : M unit :=
  constructor this
    (local SingleLinkedList_default (fun tmp =>
       let* b := begin other in
       let* e := end_ other in
       let* fuel := chain_bound in
       let* _ := Init fuel tmp b e in
       swap this tmp)).

(** [operator=(const SingleLinkedList& rhs)]. *)
Definition assign `{Element T} (this rhs : nat) : M unit :=
  if decide (this <> rhs) then
    local (fun tmp => SingleLinkedList_copy tmp rhs) (fun tmp => swap this tmp)
  else ret tt.

(** ** Comparison of lists *)

(** [std::equal(first1, last1, first2, last2)] of the standard library, as
    it runs on forward iterators: both ranges are walked in step. *)
Fixpoint std_equal `{Element T} (fuel : nat)
    (first1 last1 first2 last2 : BasicIterator) : M bool :=
  match fuel with
  | O => fun _ => OutOfFuel
  | S fuel' =>
      if iter_ne first1 last1 && iter_ne first2 last2 then
        let* a := deref first1 in
        let* b := deref first2 in
        if negb (elt_eq a b) then ret false
        else
          let* first1' := pre_incr first1 in
          let* first2' := pre_incr first2 in
          std_equal fuel' first1' last1 first2' last2
      else ret (iter_eq first1 last1 && iter_eq first2 last2)
  end.

(** [std::lexicographical_compare(first1, last1, first2, last2)] of the
    standard library. *)
Fixpoint std_lexicographical_compare `{Element T} (fuel : nat)
    (first1 last1 first2 last2 : BasicIterator) : M bool :=
  match fuel with
  | O => fun _ => OutOfFuel
  | S fuel' =>
      if iter_ne first1 last1 && iter_ne first2 last2 then
        let* a := deref first1 in
        let* b := deref first2 in
        if elt_lt a b then ret true
        else if elt_lt b a then ret false
        else
          let* first1' := pre_incr first1 in
          let* first2' := pre_incr first2 in
          std_lexicographical_compare fuel' first1' last1 first2' last2
      else ret (iter_eq first1 last1 && iter_ne first2 last2)
  end.

Definition op_eq `{Element T} (lhs rhs : nat) : M bool :=
  let* b1 := begin lhs in
  let* e1 := end_ lhs in
  let* b2 := begin rhs in
  let* e2 := end_ rhs in
  let* fuel := chain_bound in
  std_equal fuel b1 e1 b2 e2.

Definition op_ne `{Element T} (lhs rhs : nat) : M bool :=
  let* r := op_eq lhs rhs in ret (negb r).

Definition op_lt `{Element T} (lhs rhs : nat) : M bool :=
  let* b1 := begin lhs in
  let* e1 := end_ lhs in
  let* b2 := begin rhs in
  let* e2 := end_ rhs in
  let* fuel := chain_bound in
  std_lexicographical_compare fuel b1 e1 b2 e2.

Definition op_le `{Element T} (lhs rhs : nat) : M bool :=
  let* r := op_lt rhs lhs in ret (negb r).

Definition op_gt `{Element T} (lhs rhs : nat) : M bool :=
  op_lt rhs lhs.

Definition op_ge `{Element T} (lhs rhs : nat) : M bool :=
  let* r := op_lt lhs rhs in ret (negb r).

(** ** Traversal by a client

    The loop [for (it = l.begin(); it != l.end(); ++it)] that reads the
    element under [it] in each round. *)
Fixpoint iterate (fuel : nat) (it last : BasicIterator) : M (list T) :=
  match fuel with
  | O => fun _ => OutOfFuel
  | S fuel' =>
      if iter_ne it last then
        let* v := deref it in
        let* it' := pre_incr it in
        let* vs := iterate fuel' it' last in
        ret (v :: vs)
      else ret []
  end.

Definition traverse (this : nat) : M (list T) :=
  let* b := begin this in
  let* e := end_ this in
  let* fuel := chain_bound in
  iterate fuel b e.

(** A comparison returns [true] and leaves the memory as it was. *)
Definition holds (c : M bool) (m : Memory) : Prop := c m = Ok true m.

End Model.

Notation "'let*' x ':=' c 'in' k" := (bind c (fun x => k))
  (at level 10, x name, c at level 100, k at level 200).

Arguments Node : clear implicits.
Arguments SingleLinkedList : clear implicits.
Arguments Memory : clear implicits.
Arguments ArrayPtr : clear implicits.
Arguments outcome : clear implicits.
Arguments M : clear implicits.
Arguments Ok {T A} a m.
Arguments BadAlloc {T A} m.
Arguments UB {T A}.
Arguments OutOfFuel {T A}.

#[global] Instance Z_element : Element Z := {
  elt_default := 0%Z;
  elt_eq := Z.eqb;
  elt_lt := Z.ltb
}.

Definition empty_memory (r : list (option Z)) : Memory Z := mkMemory ∅ ∅ r.

(** An element type whose [==] is not reflexive, as [operator==] of a
    numeric type with a not-a-number value is: [NaN == NaN] is false, and
    [NaN] is neither less nor greater than anything. *)
Inductive Number : Type :=
  | NaN
  | Finite (z : Z).

#[global] Instance Number_element : Element Number := {
  elt_default := Finite 0;
  elt_eq a b :=
    match a, b with
    | Finite x, Finite y => (x =? y)%Z
    | _, _ => false
    end;
  elt_lt a b :=
    match a, b with
    | Finite x, Finite y => (x <? y)%Z
    | _, _ => false
    end
}.

(** * Representation

    What a well-formed list looks like in memory.  A list is described by
    its cells, the address and the value of each real node in chain order,
    and by the count it stores. *)

Section Representation.
Context {T : Type}.
Implicit Types (h : gmap Z (Node T)) (m : Memory T) (cs : list (Z * T)).

(** The pointer to the first node of a chain of cells; null when there is
    none. *)
Definition first_ptr cs : ptr :=
  match cs with
  | [] => nullptr
  | c :: _ => HeapNode c.1
  end.

(** Each cell is a heap node holding the cell's value and pointing at the
    next cell; the last one holds a null next-link. *)
Fixpoint linked h cs : Prop :=
  match cs with
  | [] => True
  | c :: cs' => h !! c.1 = Some (mkNode c.2 (first_ptr cs')) /\ linked h cs'
  end.

(** The nodes reachable from [p] are exactly [cs], in this order. *)
Definition chain h (p : ptr) cs : Prop := p = first_ptr cs /\ linked h cs.

(** Position [k] of a list with cells [cs]: the sentinel for [0], the
    [k]-th real node otherwise. *)
Definition pos_ptr (l : nat) cs (k : nat) : ptr :=
  match k with
  | O => HeadOf l
  | S j => match cs !! j with Some c => HeapNode c.1 | None => nullptr end
  end.

(** The list object [l] of [m] has the cells [cs] and stores the count [s]. *)
Definition list_at m (l : nat) cs (s : Z) : Prop :=
  exists o, lists m !! l = Some o /\ size_ o = s /\
            chain (heap m) (next_node (head_ o)) cs.

Definition in_range (a : Z) : Prop := (0 < a < 2 ^ SIZE_WIDTH)%Z.

(** [sigma] describes some of the lists of [m]: each is a chain of nodes at
    representable addresses and no node belongs to two of them. *)
Definition rep m (sigma : gmap nat (list (Z * T) * Z)) : Prop :=
  (forall l cs s, sigma !! l = Some (cs, s) ->
     list_at m l cs s /\ Forall in_range cs.*1) /\
  (forall l1 l2 cs1 s1 cs2 s2, l1 <> l2 ->
     sigma !! l1 = Some (cs1, s1) -> sigma !! l2 = Some (cs2, s2) ->
     cs1.*1 ## cs2.*1).

(** The range from [it] to [last] delivers the values [V], in every memory
    that satisfies [P]. *)
Inductive yields {It} `{@Range T It} (P : Memory T -> Prop) (last : It) :
    It -> list T -> Prop :=
  | yields_nil it :
      range_ne it last = false -> yields P last it []
  | yields_cons it it' v V :
      range_ne it last = true ->
      (forall m, P m -> range_deref it m = Ok v m) ->
      (forall m, P m -> range_incr it m = Ok it' m) ->
      yields P last it' V ->
      yields P last it (v :: V).

(** [pos] may be passed to [InsertAfter]: it is [before_begin()] of the
    list or refers to one of its real nodes. *)
Definition valid_position m (l : nat) (pos : BasicIterator) : Prop :=
  exists cs s k, list_at m l cs s /\ (k <= length cs)%nat /\
                 node_ pos = pos_ptr l cs k.

Definition live m (l : nat) : Prop := is_Some (lists m !! l).

(** One public operation on live lists that returns or throws
    [std::bad_alloc].  [Init] is the construction step of the class: it is
    taken on a list that is still empty, over a range that stays readable
    while nodes are added, and when it returns. *)
Inductive step `{Element T} (m m' : Memory T) : Prop :=
  | step_default :
      final (declare SingleLinkedList_default m) = Some m' -> step m m'
  | step_ilist values :
      final (declare (fun l => SingleLinkedList_ilist l values) m) = Some m' ->
      step m m'
  | step_copy other :
      live m other ->
      final (declare (fun l => SingleLinkedList_copy l other) m) = Some m' ->
      step m m'
  | step_assign this rhs :
      live m this -> live m rhs ->
      final (assign this rhs m) = Some m' -> step m m'
  | step_swap this other :
      live m this -> live m other ->
      final (swap this other m) = Some m' -> step m m'
  | step_swap_free lhs rhs :
      live m lhs -> live m rhs ->
      final (swap_free lhs rhs m) = Some m' -> step m m'
  | step_PushFront this v :
      live m this -> final (PushFront this v m) = Some m' -> step m m'
  | step_InsertAfter this pos v :
      valid_position m this pos ->
      final (InsertAfter this pos v m) = Some m' -> step m m'
  | step_PopFront this :
      live m this -> final (PopFront this m) = Some m' -> step m m'
  | step_EraseAfter this pos :
      valid_position m this pos ->
      final (EraseAfter this pos m) = Some m' -> step m m'
  | step_Clear this :
      live m this -> final (Clear this m) = Some m' -> step m m'
  | step_destructor this :
      live m this -> final (destructor this m) = Some m' -> step m m'
  | step_Init {It} (R : @Range T It) (range_begin range_end : It) values fuel this :
      list_at m this [] 0 ->
      yields (fun m2 => heap m ⊆ heap m2) range_end range_begin values ->
      (length values < fuel)%nat ->
      Init fuel this range_begin range_end m = Ok tt m' -> step m m'.

(** The memories a program can get to from one without lists and nodes. *)
Inductive reachable `{Element T} : Memory T -> Prop :=
  | reachable_start r : reachable (mkMemory ∅ ∅ r)
  | reachable_step m m' : reachable m -> step m m' -> reachable m'.

(** The invariant of the data model, for the list object [l]: its count is
    the number of nodes on the chain from the sentinel's next-link, the
    chain is finite and ends in a null next-link, and no node occurs twice. *)
Definition well_formed m (l : nat) : Prop :=
  exists o cs, lists m !! l = Some o /\
               chain (heap m) (next_node (head_ o)) cs /\
               size_ o = Z.of_nat (length cs) /\
               NoDup cs.*1 /\
               match last cs with
               | Some c => exists n, heap m !! c.1 = Some n /\ next_node n = nullptr
               | None => next_node (head_ o) = nullptr
               end.

(** Every live list is described, and every stored count is the length of
    the chain. *)
Definition Inv m : Prop :=
  exists sigma, rep m sigma /\ dom sigma = dom (lists m) /\
    forall l cs s, sigma !! l = Some (cs, s) -> s = Z.of_nat (length cs).

(** The allocator is going to answer the next [n] requests with distinct
    addresses that are usable in [m]. *)
Definition supply (n : nat) m : Prop :=
  exists addrs rest,
    new_results m = (Some <$> addrs) ++ rest /\ length addrs = n /\
    NoDup addrs /\ Forall (usable m) addrs.

(** Every allocated node is on the chain of a live list. *)
Definition owned m : Prop :=
  forall a, is_Some (heap m !! a) ->
    exists l cs s, list_at m l cs s /\ a ∈ cs.*1.

(** From [m] to [m'] the list [l], which had the cells [cs0], has been
    given the further cells [cs1]: these sit at addresses that were free,
    and no other node and no other list object has been written. *)
Definition built m m' (l : nat) cs0 cs1 : Prop :=
  (forall a, a ∈ cs1.*1 -> heap m !! a = None) /\
  (forall a, a ∉ (cs0 ++ cs1).*1 -> heap m' !! a = heap m !! a) /\
  (forall l', l' <> l -> lists m' !! l' = lists m !! l').

(** ** Chains *)

Lemma linked_lookup h cs j c :
  linked h cs -> cs !! j = Some c ->
  h !! c.1 = Some (mkNode c.2 (first_ptr (drop (S j) cs))).
Proof.
  revert j. induction cs as [|c0 cs IH]; intros j Hl Hj; [done|].
  destruct Hl as [Hc Hl]. destruct j as [|j]; simpl in *.
  - injection Hj as <-. by rewrite drop_0.
  - by apply IH.
Qed.

Lemma linked_last h cs c :
  linked h cs -> last cs = Some c -> h !! c.1 = Some (mkNode c.2 nullptr).
Proof.
  induction cs as [|c0 cs IH]; [done|]. intros [Hc Hl] Hlast.
  destruct cs as [|c1 cs]; simpl in *.
  - by injection Hlast as <-.
  - by apply IH.
Qed.

Lemma linked_drop h cs k : linked h cs -> linked h (drop k cs).
Proof.
  revert k. induction cs as [|c cs IH]; intros [|k] Hl; simpl; try done.
  apply IH, Hl.
Qed.

Lemma linked_app h cs1 cs2 :
  linked h (cs1 ++ cs2) <->
  linked h cs2 /\
  forall j c, cs1 !! j = Some c ->
    h !! c.1 = Some (mkNode c.2 (first_ptr (drop (S j) cs1 ++ cs2))).
Proof.
  induction cs1 as [|c1 cs1 IH]; simpl.
  - split; [intros ?; split; [done|intros ? ? ?; done] | tauto].
  - rewrite IH. split.
    + intros (Hc & Hl & Hj). split; [done|]. intros [|j] c Hlk; simpl in *.
      * injection Hlk as <-. rewrite drop_0. done.
      * by apply Hj.
    + intros (Hl & Hj). split; [|split; [done|]].
      * specialize (Hj 0%nat c1 eq_refl). simpl in Hj. by rewrite drop_0 in Hj.
      * intros j c Hlk. apply (Hj (S j) c Hlk).
Qed.

Lemma linked_frame h h' cs :
  linked h cs -> (forall a, a ∈ cs.*1 -> h' !! a = h !! a) -> linked h' cs.
Proof.
  induction cs as [|c cs IH]; simpl; [done|]. intros [Hc Hl] Hfr. split.
  - rewrite Hfr; [done|]. apply list_elem_of_here.
  - apply IH; [done|]. intros a Ha. apply Hfr. by apply list_elem_of_further.
Qed.

Lemma linked_dom h cs a : linked h cs -> a ∈ cs.*1 -> is_Some (h !! a).
Proof.
  induction cs as [|c cs IH]; simpl; intros Hl Ha.
  - by apply elem_of_nil in Ha.
  - destruct Hl as [Hc Hl]. apply elem_of_cons in Ha as [->|Ha]; eauto.
Qed.

Lemma linked_inj h cs1 cs2 :
  linked h cs1 -> linked h cs2 -> first_ptr cs1 = first_ptr cs2 -> cs1 = cs2.
Proof.
  revert cs2. induction cs1 as [|c1 cs1 IH]; intros [|c2 cs2]; simpl; try done.
  intros [H1 L1] [H2 L2] Hp. injection Hp as Hp. rewrite Hp in H1.
  rewrite H1 in H2. injection H2 as Hv Hn.
  f_equal; [destruct c1, c2; simpl in *; congruence | by apply IH].
Qed.

Lemma linked_NoDup h cs : linked h cs -> NoDup cs.*1.
Proof.
  induction cs as [|c cs IH]; simpl; [constructor|].
  intros [Hc Hl]. constructor; [|by apply IH].
  intros Hin. apply list_elem_of_fmap in Hin as (c' & Hc' & Hin).
  apply list_elem_of_lookup in Hin as [j Hj].
  pose proof (linked_lookup _ _ _ _ Hl Hj) as Hc2.
  rewrite <- Hc', Hc in Hc2. injection Hc2 as _ Hp.
  assert (cs = drop (S j) cs) as Heq.
  { apply (linked_inj h); [done|by apply linked_drop|done]. }
  apply (f_equal length) in Heq. rewrite length_drop in Heq.
  apply lookup_lt_Some in Hj. lia.
Qed.

Lemma linked_length h cs : linked h cs -> (length cs <= size h)%nat.
Proof.
  intros Hl. rewrite <- (length_fmap fst cs), <- size_dom.
  rewrite <- (size_list_to_set (C:=gset Z)) by (by eapply linked_NoDup).
  apply subseteq_size. intros a Ha. apply elem_of_list_to_set in Ha.
  apply elem_of_dom. by eapply linked_dom.
Qed.

(** Distinct representable non-null addresses: there are fewer than
    [2^64] of them. *)
Lemma bounded_nat_length (N : nat) (l : list nat) :
  NoDup l -> (forall x, x ∈ l -> (1 <= x < N)%nat) -> (length l < N)%nat \/ N = 0%nat.
Proof.
  intros Hnd Hin. destruct N as [|N]; [by right|left].
  assert (l ⊆+ seq 1 N) as Hsub.
  { apply NoDup_submseteq; [done|]. intros x Hx. apply elem_of_seq.
    specialize (Hin x Hx). lia. }
  apply submseteq_length in Hsub. rewrite length_seq in Hsub. lia.
Qed.

Lemma in_range_length (l : list Z) :
  NoDup l -> Forall in_range l -> (Z.of_nat (length l) < 2 ^ SIZE_WIDTH)%Z.
Proof.
  intros Hnd Hr. unfold in_range in Hr. rewrite Forall_forall in Hr.
  assert (0 < 2 ^ SIZE_WIDTH)%Z as Hpos by done.
  generalize dependent (2 ^ SIZE_WIDTH)%Z. intros B Hr HB.
  destruct (bounded_nat_length (Z.to_nat B) (Z.to_nat <$> l)) as [Hlen|H0].
  - apply NoDup_fmap_2_strong; [|done].
    intros x y Hx Hy Hxy. apply Hr in Hx, Hy. lia.
  - intros x Hx. apply list_elem_of_fmap in Hx as (z & -> & Hz).
    apply Hr in Hz. lia.
  - rewrite length_fmap in Hlen. lia.
  - lia.
Qed.

End Representation.

(** * Comparing sequences of elements *)

Section Sequences.
Context {T : Type} `{Element T}.

(** Equal length and equal element by element, with [==] of the element
    type. *)
Definition seq_equal (xs ys : list T) : Prop :=
  length xs = length ys /\
  forall i x y, xs !! i = Some x -> ys !! i = Some y -> elt_eq x y = true.

(** Lexicographically less, with [<] of the element type: at the first
    position where the sequences differ the left one is smaller, or the
    left one is a proper prefix of the right one. *)
Inductive lex_lt : list T -> list T -> Prop :=
  | lex_lt_prefix y ys : lex_lt [] (y :: ys)
  | lex_lt_here x y xs ys : elt_lt x y = true -> lex_lt (x :: xs) (y :: ys)
  | lex_lt_later x xs ys : lex_lt xs ys -> lex_lt (x :: xs) (x :: ys).

(** [<] of the element type is a strict total order. *)
Class StrictTotalOrder : Prop := {
  lt_irrefl : forall x, elt_lt x x = false;
  lt_trans : forall x y z, elt_lt x y = true -> elt_lt y z = true -> elt_lt x z = true;
  lt_total : forall x y, elt_lt x y = true \/ x = y \/ elt_lt y x = true
}.

(** What the two standard algorithms compute on the element sequences. *)
Fixpoint equal_values (xs ys : list T) : bool :=
  match xs, ys with
  | [], [] => true
  | x :: xs', y :: ys' => if negb (elt_eq x y) then false else equal_values xs' ys'
  | _, _ => false
  end.

Fixpoint compare_values (xs ys : list T) : bool :=
  match xs, ys with
  | x :: xs', y :: ys' =>
      if elt_lt x y then true
      else if elt_lt y x then false
      else compare_values xs' ys'
  | [], _ :: _ => true
  | _, [] => false
  end.

Lemma equal_values_spec xs ys : equal_values xs ys = true <-> seq_equal xs ys.
Proof.
  revert ys. induction xs as [|x xs IH]; intros [|y ys]; simpl.
  - split; [|done]. intros _. split; [done|]. intros i ? ? Hi. done.
  - split; [done|]. intros [Hlen _]. done.
  - split; [done|]. intros [Hlen _]. done.
  - destruct (elt_eq x y) eqn:Hxy; simpl.
    + rewrite IH. split.
      * intros [Hlen Hall]. split; [simpl; by rewrite Hlen|].
        intros [|i] x' y' Hx Hy; simpl in *; [congruence|by eapply Hall].
      * intros [Hlen Hall]. split; [simpl in Hlen; lia|].
        intros i x' y' Hx Hy. by apply (Hall (S i)).
    + split; [done|]. intros [_ Hall].
      specialize (Hall 0%nat x y eq_refl eq_refl). congruence.
Qed.

Lemma equal_values_refl xs :
  (forall x, elt_eq x x = true) -> equal_values xs xs = true.
Proof. intros Hrefl. induction xs as [|x xs IH]; simpl; [done|]. by rewrite Hrefl. Qed.

Section Order.
Context `{!StrictTotalOrder}.

Lemma compare_values_spec xs ys : compare_values xs ys = true <-> lex_lt xs ys.
Proof.
  revert ys. induction xs as [|x xs IH]; intros [|y ys]; simpl.
  - split; [done|]. inversion 1.
  - split; [constructor|done].
  - split; [done|]. inversion 1.
  - destruct (elt_lt x y) eqn:Hxy.
    + split; [intros _; by constructor|done].
    + destruct (elt_lt y x) eqn:Hyx.
      * split; [done|]. inversion 1; subst; [congruence|].
        by rewrite lt_irrefl in Hyx.
      * destruct (lt_total x y) as [?|[->|?]]; try congruence.
        rewrite IH. split; [by constructor|].
        inversion 1; subst; [congruence|done].
Qed.

Lemma lex_lt_irrefl xs : ~ lex_lt xs xs.
Proof.
  induction xs as [|x xs IH]; inversion 1; subst; [|done].
  by rewrite lt_irrefl in *.
Qed.

Lemma lex_lt_trans xs ys zs : lex_lt xs ys -> lex_lt ys zs -> lex_lt xs zs.
Proof.
  intros Hxy. revert zs. induction Hxy as [y ys|x y xs ys Hlt|x xs ys Hxy IH];
    intros zs Hyz; inversion Hyz; subst.
  - constructor.
  - constructor.
  - constructor. by eapply lt_trans.
  - by constructor.
  - by constructor.
  - apply lex_lt_later. by apply IH.
Qed.

Lemma lex_lt_asym xs ys : lex_lt xs ys -> ~ lex_lt ys xs.
Proof. intros Hxy Hyx. by apply (lex_lt_irrefl xs), (lex_lt_trans _ ys). Qed.

Lemma lex_lt_total xs ys : lex_lt xs ys \/ xs = ys \/ lex_lt ys xs.
Proof.
  revert ys. induction xs as [|x xs IH]; intros [|y ys].
  - by right; left.
  - left. constructor.
  - right; right. constructor.
  - destruct (lt_total x y) as [Hlt|[->|Hlt]].
    + left. by constructor.
    + destruct (IH ys) as [Hlt|[->|Hlt]].
      * left. by constructor.
      * by right; left.
      * right; right. by constructor.
    + right; right. by constructor.
Qed.

End Order.
End Sequences.

(** * Refinement: the memory operations on represented lists *)

Section Refinement.
Context {T : Type}.
Implicit Types (m : Memory T) (sigma : gmap nat (list (Z * T) * Z)).
Implicit Types (cs rest : list (Z * T)).

Lemma bind_Ok {A B} (c : M T A) (k : A -> M T B) m a m1 :
  c m = Ok a m1 -> bind c k m = k a m1.
Proof. unfold bind. by intros ->. Qed.

Lemma to_size_t_small z : (0 <= z < 2 ^ SIZE_WIDTH)%Z -> to_size_t z = z.
Proof. intros Hz. unfold to_size_t. by apply Z.mod_small. Qed.

Lemma to_size_t_add_l a b : to_size_t (to_size_t a + b) = to_size_t (a + b).
Proof. unfold to_size_t. by rewrite Zplus_mod_idemp_l. Qed.

Lemma to_size_t_sub_l a b : to_size_t (to_size_t a - b) = to_size_t (a - b).
Proof. unfold to_size_t. by rewrite Zminus_mod_idemp_l. Qed.

Lemma rep_lookup m sigma l cs s :
  rep m sigma -> sigma !! l = Some (cs, s) ->
  exists o, lists m !! l = Some o /\ size_ o = s /\
            next_node (head_ o) = first_ptr cs /\
            linked (heap m) cs /\ Forall in_range cs.*1 /\ NoDup cs.*1.
Proof.
  intros [Hr _] Hl. destruct (Hr _ _ _ Hl) as [(o & Ho & Hs & Hp & Hlk) Hrg].
  exists o. repeat split; try done. by eapply linked_NoDup.
Qed.

Lemma rep_list_at m sigma l cs s :
  rep m sigma -> sigma !! l = Some (cs, s) -> list_at m l cs s.
Proof. intros [Hr _] Hl. by destruct (Hr _ _ _ Hl). Qed.

Lemma rep_count_bound m sigma l cs s :
  rep m sigma -> sigma !! l = Some (cs, s) ->
  (Z.of_nat (length cs) < 2 ^ SIZE_WIDTH)%Z.
Proof.
  intros Hrep Hl.
  destruct (rep_lookup _ _ _ _ _ Hrep Hl) as (o & _ & _ & _ & _ & Hrg & Hnd).
  rewrite <- (length_fmap fst cs). by apply in_range_length.
Qed.

Lemma rep_fuel m sigma l cs s :
  rep m sigma -> sigma !! l = Some (cs, s) -> (length cs <= size (heap m))%nat.
Proof.
  intros Hrep Hl.
  destruct (rep_lookup _ _ _ _ _ Hrep Hl) as (o & _ & _ & _ & Hlk & _).
  by eapply linked_length.
Qed.

Lemma rep_fresh m sigma l cs s a :
  rep m sigma -> sigma !! l = Some (cs, s) -> heap m !! a = None -> a ∉ cs.*1.
Proof.
  intros Hrep Hl Ha Hin.
  destruct (rep_lookup _ _ _ _ _ Hrep Hl) as (o & _ & _ & _ & Hlk & _).
  destruct (linked_dom _ _ _ Hlk Hin) as [n Hn]. congruence.
Qed.

Lemma rep_get_next m sigma l cs s k :
  rep m sigma -> sigma !! l = Some (cs, s) -> (k <= length cs)%nat ->
  get_next (pos_ptr l cs k) m = Ok (first_ptr (drop k cs)) m.
Proof.
  intros Hrep Hl Hk.
  destruct (rep_lookup _ _ _ _ _ Hrep Hl) as (o & Ho & _ & Hp & Hlk & _).
  destruct k as [|j]; unfold get_next, bind, load; simpl.
  - rewrite Ho. unfold ret. by rewrite Hp, drop_0.
  - destruct (lookup_lt_is_Some_2 cs j) as [c Hc]; [lia|]. rewrite Hc.
    rewrite (linked_lookup _ _ _ _ Hlk Hc). done.
Qed.

Lemma rep_get_size m sigma l cs s :
  rep m sigma -> sigma !! l = Some (cs, s) -> get_size l m = Ok s m.
Proof.
  intros Hrep Hl.
  destruct (rep_lookup _ _ _ _ _ Hrep Hl) as (o & Ho & Hs & _).
  unfold get_size. by rewrite Ho, Hs.
Qed.

(** Restricting the description, and changing memory outside of it. *)
Lemma rep_subseteq m sigma sigma' : rep m sigma -> sigma' ⊆ sigma -> rep m sigma'.
Proof.
  intros [Hr Hd] Hsub. split.
  - intros l cs s Hl. apply Hr. by eapply lookup_weaken.
  - intros l1 l2 cs1 s1 cs2 s2 Hne H1 H2.
    eapply Hd; [done| |]; by eapply lookup_weaken.
Qed.

Lemma list_at_frame m m' l cs s :
  list_at m l cs s -> lists m' !! l = lists m !! l ->
  (forall a, a ∈ cs.*1 -> heap m' !! a = heap m !! a) ->
  list_at m' l cs s.
Proof.
  intros (o & Ho & Hs & Hp & Hlk) Hls Hh. exists o. rewrite Hls.
  repeat split; try done. by eapply linked_frame.
Qed.

Lemma rep_frame m m' sigma :
  rep m sigma ->
  (forall l, is_Some (sigma !! l) -> lists m' !! l = lists m !! l) ->
  (forall l cs s a, sigma !! l = Some (cs, s) -> a ∈ cs.*1 ->
     heap m' !! a = heap m !! a) ->
  rep m' sigma.
Proof.
  intros [Hr Hd] Hls Hh. split; [|done].
  intros l cs s Hl. destruct (Hr _ _ _ Hl) as [Hat Hrg]. split; [|done].
  eapply list_at_frame; [done|by apply Hls|]. intros a Ha. by eapply Hh.
Qed.

(** One list gets a new description; the others are left alone. *)
Lemma rep_update m m' sigma l cs' s' :
  rep m sigma ->
  list_at m' l cs' s' -> Forall in_range cs'.*1 ->
  (forall l', l' <> l -> is_Some (sigma !! l') -> lists m' !! l' = lists m !! l') ->
  (forall l' cs s a, l' <> l -> sigma !! l' = Some (cs, s) -> a ∈ cs.*1 ->
     heap m' !! a = heap m !! a /\ a ∉ cs'.*1) ->
  rep m' (<[l := (cs', s')]> sigma).
Proof.
  intros [Hr Hd] Hat Hrg Hls Hh. split.
  - intros l0 cs s Hl0. destruct (decide (l0 = l)) as [->|Hne].
    + rewrite lookup_insert_eq in Hl0. by injection Hl0 as <- <-.
    + rewrite lookup_insert_ne in Hl0 by done.
      destruct (Hr _ _ _ Hl0) as [Hat0 Hrg0]. split; [|done].
      eapply list_at_frame; [done|by apply Hls|].
      intros a Ha. by eapply Hh.
  - intros l1 l2 cs1 s1 cs2 s2 Hne H1 H2.
    destruct (decide (l1 = l)) as [->|Hne1]; destruct (decide (l2 = l)) as [->|Hne2];
      try done.
    + rewrite lookup_insert_eq in H1. rewrite lookup_insert_ne in H2 by done.
      injection H1 as <- <-. intros a Ha1 Ha2.
      by destruct (Hh _ _ _ _ Hne2 H2 Ha2) as [_ Hn].
    + rewrite lookup_insert_eq in H2. rewrite lookup_insert_ne in H1 by done.
      injection H2 as <- <-. intros a Ha1 Ha2.
      by destruct (Hh _ _ _ _ Hne1 H1 Ha1) as [_ Hn].
    + rewrite lookup_insert_ne in H1 by congruence.
      rewrite lookup_insert_ne in H2 by congruence.
      exact (Hd _ _ _ _ _ _ Hne H1 H2).
Qed.

Lemma first_ptr_lookup cs1 cs2 :
  cs1 !! 0%nat = cs2 !! 0%nat -> first_ptr cs1 = first_ptr cs2.
Proof. destruct cs1, cs2; simpl; congruence. Qed.

Lemma in_pos_prefix cs j c : cs !! j = Some c -> c.1 ∈ (take (S j) cs).*1.
Proof.
  intros Hc. apply list_elem_of_fmap. exists c. split; [done|].
  apply list_elem_of_lookup. exists j. by rewrite lookup_take_lt by lia.
Qed.

Lemma elem_of_take_fst cs k a : a ∈ (take k cs).*1 -> a ∈ cs.*1.
Proof.
  intros Ha. apply list_elem_of_fmap in Ha as (c & -> & Hc).
  apply list_elem_of_fmap. exists c. split; [done|].
  apply list_elem_of_lookup in Hc as [i Hi].
  apply lookup_take_Some in Hi as [Hi _]. by eapply list_elem_of_lookup_2.
Qed.

Lemma elem_of_drop_fst cs k a : a ∈ (drop k cs).*1 -> a ∈ cs.*1.
Proof.
  intros Ha. apply list_elem_of_fmap in Ha as (c & -> & Hc).
  apply list_elem_of_fmap. exists c. split; [done|].
  apply list_elem_of_lookup in Hc as [i Hi].
  rewrite lookup_drop in Hi. by eapply list_elem_of_lookup_2.
Qed.

(** What [p->next_node = q] does when [p] is position [k] of a list. *)
Lemma set_next_pos m sigma l cs s k q :
  rep m sigma -> sigma !! l = Some (cs, s) -> (k <= length cs)%nat ->
  exists m' o,
    set_next (pos_ptr l cs k) q m = Ok tt m' /\
    new_results m' = new_results m /\
    dom (lists m') = dom (lists m) /\
    lists m !! l = Some o /\
    match k with
    | O => heap m' = heap m /\
           lists m' = <[l := mkList (mkNode (value (head_ o)) q) (size_ o)]> (lists m)
    | S j => exists c, cs !! j = Some c /\
           heap m' = <[c.1 := mkNode c.2 q]> (heap m) /\ lists m' = lists m
    end.
Proof.
  intros Hrep Hl Hk.
  destruct (rep_lookup _ _ _ _ _ Hrep Hl) as (o & Ho & _ & Hp & Hlk & _).
  destruct k as [|j]; unfold set_next; simpl.
  - rewrite Ho. eexists _, o. repeat split; try done. simpl.
    apply dom_insert_lookup_L. by eexists.
  - destruct (lookup_lt_is_Some_2 cs j) as [c Hc]; [lia|]. rewrite Hc.
    rewrite (linked_lookup _ _ _ _ Hlk Hc).
    eexists _, o. repeat split; try done. exists c. done.
Qed.

(** Position [k] is made to point at the chain [rest]: the list becomes
    its first [k] cells followed by [rest]. *)
Lemma rep_relink m sigma l cs s k rest :
  rep m sigma -> sigma !! l = Some (cs, s) -> (k <= length cs)%nat ->
  linked (heap m) rest -> Forall in_range rest.*1 ->
  (forall a, a ∈ rest.*1 -> a ∉ (take k cs).*1) ->
  (forall l' cs' s', l' <> l -> sigma !! l' = Some (cs', s') -> rest.*1 ## cs'.*1) ->
  exists m',
    set_next (pos_ptr l cs k) (first_ptr rest) m = Ok tt m' /\
    rep m' (<[l := (take k cs ++ rest, s)]> sigma) /\
    new_results m' = new_results m /\
    dom (lists m') = dom (lists m) /\
    dom (heap m') = dom (heap m) /\
    (forall a, a ∉ cs.*1 -> heap m' !! a = heap m !! a).
Proof.
  intros Hrep Hl Hk Hrest Hrg Hpre Hoth.
  destruct (set_next_pos _ _ _ _ _ _ (first_ptr rest) Hrep Hl Hk)
    as (m' & o & Hset & Hnr & Hdom & Ho & Hm').
  destruct (rep_lookup _ _ _ _ _ Hrep Hl) as (o' & Ho' & Hs & Hp & Hlk & Hcr & Hnd).
  rewrite Ho in Ho'. injection Ho' as <-.
  exists m'. split; [done|].
  assert (forall a, a ∉ cs.*1 -> heap m' !! a = heap m !! a) as Hfr.
  { intros a Ha. destruct k as [|j].
    - destruct Hm' as [-> _]. done.
    - destruct Hm' as (c & Hc & -> & _). rewrite lookup_insert_ne; [done|].
      intros <-. apply Ha. eapply elem_of_take_fst, in_pos_prefix, Hc. }
  assert (dom (heap m') = dom (heap m)) as Hdh.
  { destruct k as [|j].
    - destruct Hm' as [-> _]. done.
    - destruct Hm' as (c & Hc & -> & _). apply dom_insert_lookup_L.
      rewrite (linked_lookup _ _ _ _ Hlk Hc). by eexists. }
  split; [|done].
  apply rep_update with (m := m); try done.
  - destruct k as [|j].
    + destruct Hm' as [Hh Hls]. rewrite take_0. simpl.
      eexists. rewrite Hls, lookup_insert_eq. split; [done|]. simpl.
      split; [done|]. split; [done|]. by rewrite Hh.
    + destruct Hm' as (c & Hc & Hh & Hls).
      exists o. rewrite Hls. split; [done|]. split; [done|]. split.
      * rewrite Hp. apply first_ptr_lookup.
        rewrite lookup_app_l by (rewrite length_take; lia).
        by rewrite lookup_take_lt by lia.
      * apply linked_app. split.
        { eapply linked_frame; [done|]. intros a Ha. rewrite Hh.
          rewrite lookup_insert_ne; [done|]. intros <-.
          apply (Hpre _ Ha). by apply in_pos_prefix. }
        intros j' c' Hc'. apply lookup_take_Some in Hc' as [Hc' Hlt].
        destruct (decide (j' = j)) as [->|Hne].
        { rewrite Hc in Hc'. injection Hc' as <-.
          rewrite Hh, lookup_insert_eq.
          rewrite drop_ge by (rewrite length_take; lia). done. }
        rewrite Hh, lookup_insert_ne.
        2:{ intros Heq. apply Hne.
            eapply (NoDup_lookup cs.*1); [done| |];
              rewrite list_lookup_fmap; [by rewrite Hc'|rewrite Hc; simpl; by rewrite Heq]. }
        rewrite (linked_lookup _ _ _ _ Hlk Hc'). do 2 f_equal.
        apply first_ptr_lookup.
        rewrite lookup_app_l by (rewrite length_drop, length_take; lia).
        rewrite !lookup_drop. by rewrite lookup_take_lt by lia.
  - rewrite fmap_app. apply Forall_app. split; [|done].
    rewrite fmap_take. by apply Forall_take.
  - intros l' Hne _. destruct k as [|j].
    + destruct Hm' as [_ ->]. by rewrite lookup_insert_ne.
    + by destruct Hm' as (c & _ & _ & ->).
  - intros l' cs' s' a Hne Hl' Ha.
    assert (a ∉ cs.*1) as Hna.
    { intros Hin. destruct Hrep as [_ Hd]. by apply (Hd _ _ _ _ _ _ Hne Hl' Hl a). }
    split; [by apply Hfr|].
    rewrite fmap_app. intros Hin. apply elem_of_app in Hin as [Hin|Hin].
    + by apply elem_of_take_fst in Hin.
    + by apply (Hoth _ _ _ Hne Hl' a).
Qed.

Lemma rep_set_size m sigma l cs s s' :
  rep m sigma -> sigma !! l = Some (cs, s) ->
  exists m',
    set_size l s' m = Ok tt m' /\ rep m' (<[l := (cs, s')]> sigma) /\
    heap m' = heap m /\ new_results m' = new_results m /\
    dom (lists m') = dom (lists m).
Proof.
  intros Hrep Hl.
  destruct (rep_lookup _ _ _ _ _ Hrep Hl) as (o & Ho & Hs & Hp & Hlk & Hcr & _).
  unfold set_size. rewrite Ho. eexists. split; [done|]. simpl.
  split; [|split; [done|split; [done|]]].
  - apply rep_update with (m := m); try done; simpl.
    + exists (mkList (head_ o) s'). simpl. rewrite lookup_insert_eq. by repeat split.
    + intros l' Hne _. by rewrite lookup_insert_ne.
    + intros l' cs' s0 a Hne Hl' Ha. split; [done|].
      intros Hin. destruct Hrep as [_ Hd]. by apply (Hd _ _ _ _ _ _ Hne Hl' Hl a).
  - apply dom_insert_lookup_L. by eexists.
Qed.

Lemma rep_incr_size m sigma l cs s :
  rep m sigma -> sigma !! l = Some (cs, s) ->
  exists m',
    incr_size l m = Ok tt m' /\ rep m' (<[l := (cs, to_size_t (s + 1))]> sigma) /\
    heap m' = heap m /\ new_results m' = new_results m /\
    dom (lists m') = dom (lists m).
Proof.
  intros Hrep Hl. unfold incr_size.
  rewrite (bind_Ok _ _ _ _ _ (rep_get_size _ _ _ _ _ Hrep Hl)).
  by eapply rep_set_size.
Qed.

Lemma rep_decr_size m sigma l cs s :
  rep m sigma -> sigma !! l = Some (cs, s) ->
  exists m',
    decr_size l m = Ok tt m' /\ rep m' (<[l := (cs, to_size_t (s - 1))]> sigma) /\
    heap m' = heap m /\ new_results m' = new_results m /\
    dom (lists m') = dom (lists m).
Proof.
  intros Hrep Hl. unfold decr_size.
  rewrite (bind_Ok _ _ _ _ _ (rep_get_size _ _ _ _ _ Hrep Hl)).
  by eapply rep_set_size.
Qed.

(** [new] either throws and leaves the nodes and the lists as they are, or
    adds one node at an address no list uses. *)
Lemma rep_new_Node m sigma v q :
  rep m sigma ->
  match new_Node v q m with
  | Ok p m' =>
      exists a, p = HeapNode a /\ in_range a /\ heap m !! a = None /\
                heap m' = <[a := mkNode v q]> (heap m) /\
                lists m' = lists m /\ rep m' sigma /\
                new_results m = Some a :: new_results m'
  | BadAlloc m' =>
      heap m' = heap m /\ lists m' = lists m /\ forall n, ~ supply (S n) m
  | _ => False
  end.
Proof.
  intros Hrep. unfold new_Node.
  assert (forall a0 (more : list (option Z)),
            new_results m = Some a0 :: more -> ~ usable m a0 ->
            forall n, ~ supply (S n) m) as Hno.
  { intros a0 more Hnr Hnu n (addrs & rest & Heq & Hlen & _ & Hus).
    destruct addrs as [|a1 addrs]; [done|]. rewrite Hnr in Heq.
    injection Heq as -> _. by apply Forall_cons in Hus as [Hus _]. }
  destruct (new_results m) as [|[a|] rest] eqn:Hnr.
  - split; [done|]. split; [done|]. intros n (addrs & rest & Heq & Hlen & _).
    rewrite Hnr in Heq. by destruct addrs.
  - destruct (decide (usable m a)) as [[Hr Hfresh]|Hnu].
    + exists a. split; [done|]. split; [exact Hr|]. do 3 (split; [done|]).
      split; [|done].
      eapply rep_frame; [done|done|]. simpl. intros l cs s b Hl Hb.
      rewrite lookup_insert_ne; [done|]. intros <-.
      by apply (rep_fresh _ _ _ _ _ _ Hrep Hl Hfresh).
    + split; [done|]. split; [done|]. by eapply Hno.
  - split; [done|]. split; [done|]. intros n (addrs & rest0 & Heq & Hlen & _).
    rewrite Hnr in Heq. by destruct addrs.
Qed.

Lemma supply_ext n m m' :
  heap m' = heap m -> new_results m' = new_results m -> supply n m -> supply n m'.
Proof.
  intros Hh Hnr (addrs & rest & Heq & Hlen & Hnd & Hus).
  exists addrs, rest. rewrite Hnr. do 3 (split; [done|]).
  eapply Forall_impl; [done|]. intros a [Hr Ha]. split; [done|]. by rewrite Hh.
Qed.

(** After one request was answered with [a], the supply is one shorter. *)
Lemma supply_S n m m' a :
  supply (S n) m -> new_results m = Some a :: new_results m' ->
  dom (heap m') = {[a]} ∪ dom (heap m) -> supply n m'.
Proof.
  intros (addrs & rest & Heq & Hlen & Hnd & Hus) Hnr Hdom.
  destruct addrs as [|a0 addrs]; [done|]. rewrite Hnr in Heq. simpl in Heq.
  injection Heq as -> Heq. apply NoDup_cons in Hnd as [Hnotin Hnd].
  apply Forall_cons in Hus as [_ Hus].
  exists addrs, rest. split; [done|]. split; [by injection Hlen|]. split; [done|].
  rewrite Forall_forall in Hus. apply Forall_forall. intros b Hb.
  destruct (Hus b Hb) as [Hr Hfree]. split; [done|].
  apply not_elem_of_dom. rewrite Hdom. apply not_elem_of_dom in Hfree.
  intros Hin. apply elem_of_union in Hin as [Hin|Hin]; [|done].
  apply elem_of_singleton in Hin as ->. done.
Qed.

(** Freeing a node that belongs to no list. *)
Lemma rep_delete_garbage m sigma a :
  rep m sigma -> is_Some (heap m !! a) ->
  (forall l cs s, sigma !! l = Some (cs, s) -> a ∉ cs.*1) ->
  exists m',
    delete_Node (HeapNode a) m = Ok tt m' /\ rep m' sigma /\
    lists m' = lists m /\ heap m' = delete a (heap m) /\
    new_results m' = new_results m.
Proof.
  intros Hrep [n Hn] Hg. unfold delete_Node. rewrite Hn.
  eexists. split; [done|]. split; [|done].
  eapply rep_frame; [done|done|]. simpl. intros l cs s b Hl Hb.
  rewrite lookup_delete_ne; [done|]. intros <-. by apply (Hg _ _ _ Hl).
Qed.

Lemma delete_set_next_comm (p q : ptr) a m :
  p <> HeapNode a ->
  (let* _ := delete_Node (HeapNode a) in set_next p q) m =
  (let* _ := set_next p q in delete_Node (HeapNode a)) m.
Proof.
  intros Hp. unfold bind, delete_Node, set_next.
  destruct p as [|b|l]; simpl.
  - by destruct (heap m !! a).
  - assert (a <> b) as Hab by congruence.
    destruct (heap m !! a) as [na|] eqn:Ha; simpl.
    + rewrite lookup_delete_ne by done.
      destruct (heap m !! b) as [nb|] eqn:Hb; simpl; [|done].
      rewrite lookup_insert_ne by done. rewrite Ha.
      unfold with_heap. simpl. by rewrite delete_insert_ne by done.
    + destruct (heap m !! b) as [nb|] eqn:Hb; simpl; [|done].
      rewrite lookup_insert_ne by done. by rewrite Ha.
  - destruct (heap m !! a) as [na|] eqn:Ha; simpl.
    + destruct (lists m !! l); simpl; [|done]. by rewrite Ha.
    + destruct (lists m !! l); simpl; [|done]. by rewrite Ha.
Qed.

(** The node after position [k] is freed and position [k] is linked to the
    node that followed it. *)
Lemma rep_erase m sigma l cs s k c :
  rep m sigma -> sigma !! l = Some (cs, s) -> cs !! k = Some c ->
  exists m',
    (let* _ := delete_Node (HeapNode c.1) in
     set_next (pos_ptr l cs k) (first_ptr (drop (S k) cs))) m = Ok tt m' /\
    rep m' (<[l := (take k cs ++ drop (S k) cs, s)]> sigma) /\
    new_results m' = new_results m /\
    dom (lists m') = dom (lists m).
Proof.
  intros Hrep Hl Hc.
  destruct (rep_lookup _ _ _ _ _ Hrep Hl) as (o & Ho & Hs & Hp & Hlk & Hcr & Hnd).
  pose proof (lookup_lt_Some _ _ _ Hc) as Hk.
  assert (forall a, a ∈ (drop (S k) cs).*1 -> a ∉ (take k cs).*1) as Hsplit.
  { rewrite <- (take_drop k cs), fmap_app in Hnd.
    apply NoDup_app in Hnd as (_ & Hnd & _). intros a Ha Hin.
    apply (Hnd _ Hin). apply (elem_of_drop_fst _ 1). rewrite drop_drop.
    by replace (k + 1)%nat with (S k) by lia. }
  assert (c.1 ∉ (take k cs ++ drop (S k) cs).*1) as Hgone.
  { rewrite <- (take_drop_middle _ _ _ Hc), fmap_app in Hnd. simpl in Hnd.
    apply NoDup_app in Hnd as (_ & Hn1 & Hn2). apply NoDup_cons in Hn2 as [Hn2 _].
    rewrite fmap_app. intros Hin. apply elem_of_app in Hin as [Hin|Hin]; [|done].
    apply (Hn1 _ Hin). apply list_elem_of_here. }
  rewrite delete_set_next_comm.
  2:{ destruct k as [|j]; simpl; [done|].
      destruct (cs !! j) as [c0|] eqn:Hc0; [|done]. intros [= Heq].
      assert (j = S j) as Hj; [|lia].
      eapply (NoDup_lookup cs.*1); [done| |]; rewrite list_lookup_fmap.
      - by rewrite Hc0.
      - rewrite Hc. simpl. by rewrite Heq. }
  destruct (rep_relink m sigma l cs s k (drop (S k) cs)) as
    (m1 & Hset & Hrep1 & Hnr1 & Hdom1 & Hdh1 & Hfr1); try done; try lia.
  - by apply linked_drop.
  - rewrite fmap_drop. by apply Forall_drop.
  - intros l' cs' s' Hne Hl' a Ha Ha'. destruct Hrep as [_ Hd].
    apply (Hd _ _ _ _ _ _ Hne Hl' Hl a); [done|]. by eapply elem_of_drop_fst.
  - rewrite (bind_Ok _ _ _ _ _ Hset).
    destruct (rep_delete_garbage m1 _ c.1 Hrep1) as (m2 & Hdel & Hrep2 & Hls2 & _ & Hnr2).
    + apply elem_of_dom. rewrite Hdh1. apply elem_of_dom.
      rewrite (linked_lookup _ _ _ _ Hlk Hc). by eexists.
    + intros l' cs' s' Hl' Hin. destruct (decide (l' = l)) as [->|Hne].
      * rewrite lookup_insert_eq in Hl'. injection Hl' as <- <-. done.
      * rewrite lookup_insert_ne in Hl' by done. destruct Hrep as [_ Hd].
        apply (Hd _ _ _ _ _ _ Hne Hl' Hl c.1); [done|].
        apply list_elem_of_fmap. exists c. split; [done|].
        by eapply list_elem_of_lookup_2.
    + exists m2. split; [done|]. split; [done|]. split; congruence.
Qed.

Lemma rep_release m sigma l :
  rep m sigma -> is_Some (lists m !! l) ->
  exists m',
    release l m = Ok tt m' /\ rep m' (delete l sigma) /\
    heap m' = heap m /\ lists m' = delete l (lists m) /\
    new_results m' = new_results m.
Proof.
  intros Hrep [o Ho]. unfold release. rewrite Ho. eexists. split; [done|].
  split; [|done].
  apply rep_frame with (m := m).
  - eapply rep_subseteq; [done|]. apply delete_subseteq.
  - intros l' [x Hx]. simpl. apply lookup_delete_Some in Hx as [Hne _].
    by rewrite lookup_delete_ne.
  - done.
Qed.

Lemma rep_member_init `{Element T} m sigma l :
  rep m sigma -> lists m !! l = None ->
  exists m',
    member_init l m = Ok tt m' /\ rep m' (<[l := ([], 0%Z)]> sigma) /\
    heap m' = heap m /\
    lists m' = <[l := mkList (mkNode elt_default nullptr) 0]> (lists m) /\
    new_results m' = new_results m.
Proof.
  intros Hrep Hl. unfold member_init. rewrite Hl. eexists. split; [done|].
  split; [|done].
  apply rep_update with (m := m); try done; simpl.
  - exists (mkList (mkNode elt_default nullptr) 0). simpl.
    rewrite lookup_insert_eq. by repeat split.
  - intros l' Hne _. by rewrite lookup_insert_ne.
  - intros l' cs s a _ _ _. split; [done|]. apply not_elem_of_nil.
Qed.

Lemma get_next_head m l o :
  lists m !! l = Some o -> get_next (HeadOf l) m = Ok (next_node (head_ o)) m.
Proof. intros Ho. unfold get_next, bind, load. by rewrite Ho. Qed.

Lemma get_next_node m a n :
  heap m !! a = Some n -> get_next (HeapNode a) m = Ok (next_node n) m.
Proof. intros Hn. unfold get_next, bind, load. by rewrite Hn. Qed.

Lemma get_value_node m a n :
  heap m !! a = Some n -> get_value (HeapNode a) m = Ok (value n) m.
Proof. intros Hn. unfold get_value, bind, load. by rewrite Hn. Qed.

Lemma set_next_head m l o q :
  lists m !! l = Some o ->
  set_next (HeadOf l) q m =
  Ok tt (with_lists m (<[l := mkList (mkNode (value (head_ o)) q) (size_ o)]> (lists m))).
Proof. intros Ho. unfold set_next. by rewrite Ho. Qed.

Lemma get_size_Ok m l o : lists m !! l = Some o -> get_size l m = Ok (size_ o) m.
Proof. intros Ho. unfold get_size. by rewrite Ho. Qed.

Lemma set_size_Ok m l o s :
  lists m !! l = Some o ->
  set_size l s m = Ok tt (with_lists m (<[l := mkList (head_ o) s]> (lists m))).
Proof. intros Ho. unfold set_size. by rewrite Ho. Qed.

Lemma begin_Ok m l o :
  lists m !! l = Some o -> begin l m = Ok (mkIter (next_node (head_ o))) m.
Proof. intros Ho. unfold begin, get_next, bind, load. by rewrite Ho. Qed.

Lemma end_Ok m l : end_ l m = Ok (mkIter nullptr) m.
Proof. done. Qed.

Ltac solve_lookup := simpl; simplify_map_eq; reflexivity.
Ltac mstep lem := erewrite bind_Ok by (apply lem; solve_lookup).

(** The exact effect of [swap] on the two list objects. *)
Lemma swap_lookup m a b oa ob :
  lists m !! a = Some oa -> lists m !! b = Some ob ->
  exists m',
    swap a b m = Ok tt m' /\ heap m' = heap m /\
    new_results m' = new_results m /\
    forall l, lists m' !! l =
      if decide (l = a)
      then Some (mkList (mkNode (value (head_ oa)) (next_node (head_ ob))) (size_ ob))
      else if decide (l = b)
      then Some (mkList (mkNode (value (head_ ob)) (next_node (head_ oa))) (size_ oa))
      else lists m !! l.
Proof.
  intros Ha Hb. unfold swap, std_swap_next, std_swap_size.
  destruct (decide (a = b)) as [->|Hne].
  - rewrite Ha in Hb. injection Hb as ->.
    erewrite bind_Ok.
    2:{ do 2 mstep get_next_head. mstep set_next_head.
        apply set_next_head. solve_lookup. }
    do 2 mstep get_size_Ok. mstep set_size_Ok.
    eexists. split; [apply set_size_Ok; solve_lookup|]. simpl.
    split; [done|]. split; [done|]. intros l.
    rewrite !lookup_insert. repeat case_decide; simplify_eq; done.
  - erewrite bind_Ok.
    2:{ do 2 mstep get_next_head. mstep set_next_head.
        apply set_next_head. solve_lookup. }
    do 2 mstep get_size_Ok. mstep set_size_Ok.
    eexists. split; [apply set_size_Ok; solve_lookup|]. simpl.
    split; [done|]. split; [done|]. intros l.
    rewrite !lookup_insert. repeat case_decide; simplify_eq; done.
Qed.

Lemma rep_swap m sigma a b xa xb :
  rep m sigma -> sigma !! a = Some xa -> sigma !! b = Some xb ->
  exists m',
    swap a b m = Ok tt m' /\ rep m' (<[a := xb]> (<[b := xa]> sigma)) /\
    heap m' = heap m /\ new_results m' = new_results m /\
    dom (lists m') = dom (lists m).
Proof.
  intros Hrep Ha Hb. destruct xa as [csa sa], xb as [csb sb].
  destruct (rep_lookup _ _ _ _ _ Hrep Ha) as (oa & Hoa & Hsa & Hpa & Hlka & Hra & _).
  destruct (rep_lookup _ _ _ _ _ Hrep Hb) as (ob & Hob & Hsb & Hpb & Hlkb & Hrb & _).
  destruct (swap_lookup _ _ _ _ _ Hoa Hob) as (m' & Hsw & Hh & Hnr & Hls).
  exists m'. split; [done|]. split; [|split; [done|split; [done|]]].
  - destruct Hrep as [Hr Hd]. split.
    + intros l cs s Hl. rewrite lookup_insert in Hl. case_decide as Hla.
      * subst l. injection Hl as <- <-. split; [|done].
        eexists. rewrite Hls. rewrite decide_True by done.
        split; [done|]. simpl. rewrite Hh. by repeat split.
      * rewrite lookup_insert in Hl. case_decide as Hlb.
        { subst l. injection Hl as <- <-. split; [|done].
          eexists. rewrite Hls. rewrite decide_False by done.
          rewrite decide_True by done.
          split; [done|]. simpl. rewrite Hh. by repeat split. }
        destruct (Hr _ _ _ Hl) as [Hat Hrg]. split; [|done].
        eapply list_at_frame; [done| |by rewrite Hh].
        rewrite Hls. rewrite decide_False by done. by rewrite decide_False by done.
    + intros l1 l2 cs1 s1 cs2 s2 Hne H1 H2.
      assert (forall l cs s, <[a:=(csb, sb)]> (<[b:=(csa, sa)]> sigma) !! l = Some (cs, s) ->
                exists l0 s0, sigma !! l0 = Some (cs, s0) /\
                  (l0 = if decide (l = a) then b else if decide (l = b) then a else l))
        as Hperm.
      { intros l cs s Hl. rewrite !lookup_insert in Hl.
        repeat case_decide; simplify_eq; eauto. }
      destruct (Hperm _ _ _ H1) as (k1 & t1 & Hk1 & E1).
      destruct (Hperm _ _ _ H2) as (k2 & t2 & Hk2 & E2).
      eapply (Hd k1 k2); [|exact Hk1|exact Hk2].
      repeat case_decide; simplify_eq; congruence.
  - apply set_eq. intros l. rewrite !elem_of_dom, Hls.
    repeat case_decide; simplify_eq; try done; split; intros _; by eexists.
Qed.

End Refinement.

(** * The member functions on represented lists *)

Section Operations.
Context {T : Type}.
Implicit Types (m : Memory T) (sigma : gmap nat (list (Z * T) * Z)).
Implicit Types (cs rest : list (Z * T)).

Lemma bind_Ok2 {A B C} (c1 : M T A) (c2 : A -> M T B) (k : B -> M T C) m b m' :
  bind c1 c2 m = Ok b m' ->
  bind c1 (fun x => bind (c2 x) k) m = k b m'.
Proof.
  unfold bind. destruct (c1 m) as [a m1| | |]; try done. by intros ->.
Qed.

Lemma pos_ptr_prefix l cs k rest :
  (k <= length cs)%nat -> pos_ptr l (take k cs ++ rest) k = pos_ptr l cs k.
Proof.
  intros Hk. destruct k as [|j]; simpl; [done|].
  rewrite lookup_app_l by (rewrite length_take; lia).
  by rewrite lookup_take_lt by lia.
Qed.

Lemma pos_ptr_app l cs k rest :
  (k <= length cs)%nat -> pos_ptr l (cs ++ rest) k = pos_ptr l cs k.
Proof.
  intros Hk. destruct k as [|j]; simpl; [done|].
  by rewrite lookup_app_l by lia.
Qed.

Lemma drop_prefix cs k rest :
  (k <= length cs)%nat -> drop k (take k cs ++ rest) = rest.
Proof.
  intros Hk. rewrite drop_app_length'; [done|]. rewrite length_take. lia.
Qed.

Lemma splice_take cs k (c : Z * T) :
  (k <= length cs)%nat -> take k (take k cs ++ c :: drop k cs) = take k cs.
Proof. intros Hk. apply take_app_length'. rewrite length_take. lia. Qed.

Lemma splice_drop cs k (c : Z * T) :
  (k <= length cs)%nat -> drop (S k) (take k cs ++ c :: drop k cs) = drop k cs.
Proof.
  intros Hk. rewrite cons_middle, app_assoc. apply drop_app_length'.
  rewrite length_app, length_take. simpl. lia.
Qed.

Lemma splice_lookup cs k (c : Z * T) :
  (k <= length cs)%nat -> (take k cs ++ c :: drop k cs) !! k = Some c.
Proof.
  intros Hk. rewrite lookup_app_r by (rewrite length_take; lia).
  rewrite length_take. by replace (k - k `min` length cs)%nat with 0%nat by lia.
Qed.

(** A fresh node is spliced in after position [k]. *)
Lemma rep_link m sigma l cs s k a v :
  rep m sigma -> sigma !! l = Some (cs, s) -> (k <= length cs)%nat ->
  heap m !! a = Some (mkNode v (first_ptr (drop k cs))) -> in_range a ->
  (forall l' cs' s', sigma !! l' = Some (cs', s') -> a ∉ cs'.*1) ->
  exists m',
    set_next (pos_ptr l cs k) (HeapNode a) m = Ok tt m' /\
    rep m' (<[l := (take k cs ++ (a, v) :: drop k cs, s)]> sigma) /\
    new_results m' = new_results m /\
    dom (lists m') = dom (lists m) /\
    dom (heap m') = dom (heap m) /\
    (forall b, b ∉ cs.*1 -> heap m' !! b = heap m !! b).
Proof.
  intros Hrep Hl Hk Ha Hr Hfresh.
  destruct (rep_lookup _ _ _ _ _ Hrep Hl) as (o & Ho & Hs & Hp & Hlk & Hcr & Hnd).
  apply (rep_relink m sigma l cs s k ((a, v) :: drop k cs)); try done.
  - simpl. split; [done|]. by apply linked_drop.
  - simpl. constructor; [done|]. rewrite fmap_drop. by apply Forall_drop.
  - intros b Hb Hin. simpl in Hb. apply elem_of_cons in Hb as [->|Hb].
    + apply (Hfresh _ _ _ Hl). by eapply elem_of_take_fst.
    + rewrite <- (take_drop k cs), fmap_app in Hnd.
      apply NoDup_app in Hnd as (_ & Hnd & _). by apply (Hnd _ Hin).
  - intros l' cs' s' Hne Hl' b Hb Hb'. simpl in Hb.
    apply elem_of_cons in Hb as [->|Hb].
    + by apply (Hfresh _ _ _ Hl').
    + destruct Hrep as [_ Hd].
      apply (Hd _ _ _ _ _ _ Hne Hl' Hl b); [done|]. by eapply elem_of_drop_fst.
Qed.

Lemma PushFront_rep m sigma l cs s v :
  rep m sigma -> sigma !! l = Some (cs, s) ->
  match PushFront l v m with
  | Ok _ m' =>
      exists a, heap m !! a = None /\
        rep m' (<[l := ((a, v) :: cs, to_size_t (s + 1))]> sigma) /\
        dom (lists m') = dom (lists m)
  | BadAlloc m' => heap m' = heap m /\ lists m' = lists m /\ ~ supply 1 m
  | _ => False
  end.
Proof.
  intros Hrep Hl. unfold PushFront.
  rewrite (bind_Ok _ _ _ _ _ (rep_get_next _ _ l cs s 0%nat Hrep Hl (Nat.le_0_l _))).
  rewrite drop_0. unfold bind at 1.
  pose proof (rep_new_Node m sigma v (first_ptr cs) Hrep) as Hnew.
  destruct (new_Node v (first_ptr cs) m) as [p m1|m1| |]; try done.
  2:{ destruct Hnew as (Hh & Hls & Hno). split; [done|]. split; [done|]. apply Hno. }
  destruct Hnew as (a & -> & Hr & Hfresh & Hh1 & Hls1 & Hrep1 & _).
  destruct (rep_link m1 sigma l cs s 0%nat a v) as
    (m2 & Hset & Hrep2 & _ & Hdom2 & _ & _); try done; try (simpl; lia).
  { rewrite Hh1, lookup_insert_eq. by rewrite drop_0. }
  { intros l' cs' s' Hl'. exact (rep_fresh _ _ _ _ _ _ Hrep Hl' Hfresh). }
  simpl in Hset. rewrite (bind_Ok _ _ _ _ _ Hset).
  rewrite take_0, drop_0 in Hrep2. simpl in Hrep2.
  destruct (rep_incr_size m2 _ l _ s Hrep2 (lookup_insert_eq _ _ _)) as (m3 & Hinc & Hrep3 & _ & _ & Hdom3).
  rewrite Hinc. exists a. split; [done|]. rewrite insert_insert_eq in Hrep3.
  split; [done|]. congruence.
Qed.

Lemma InsertAfter_rep m sigma l cs s k v :
  rep m sigma -> sigma !! l = Some (cs, s) -> (k <= length cs)%nat ->
  match InsertAfter l (mkIter (pos_ptr l cs k)) v m with
  | Ok it m' =>
      exists a, it = mkIter (HeapNode a) /\ heap m !! a = None /\
        rep m' (<[l := (take k cs ++ (a, v) :: drop k cs, to_size_t (s + 1))]> sigma) /\
        dom (lists m') = dom (lists m)
  | BadAlloc m' => heap m' = heap m /\ lists m' = lists m /\ ~ supply 1 m
  | _ => False
  end.
Proof.
  intros Hrep Hl Hk. unfold InsertAfter. simpl.
  rewrite (bind_Ok _ _ _ _ _ (rep_get_next _ _ l cs s k Hrep Hl Hk)).
  unfold bind at 1.
  pose proof (rep_new_Node m sigma v (first_ptr (drop k cs)) Hrep) as Hnew.
  destruct (new_Node v (first_ptr (drop k cs)) m) as [p m1|m1| |]; try done.
  2:{ destruct Hnew as (Hh & Hls & Hno). split; [done|]. split; [done|]. apply Hno. }
  destruct Hnew as (a & -> & Hr & Hfresh & Hh1 & Hls1 & Hrep1 & _).
  destruct (rep_link m1 sigma l cs s k a v) as
    (m2 & Hset & Hrep2 & _ & Hdom2 & _ & _); try done.
  { by rewrite Hh1, lookup_insert_eq. }
  { intros l' cs' s' Hl'. exact (rep_fresh _ _ _ _ _ _ Hrep Hl' Hfresh). }
  rewrite (bind_Ok _ _ _ _ _ Hset).
  destruct (rep_incr_size m2 _ l _ s Hrep2 (lookup_insert_eq _ _ _)) as (m3 & Hinc & Hrep3 & _ & _ & Hdom3).
  rewrite (bind_Ok _ _ _ _ _ Hinc). rewrite insert_insert_eq in Hrep3.
  rewrite <- (pos_ptr_prefix l cs k ((a, v) :: drop k cs)) by done.
  erewrite bind_Ok.
  2:{ eapply rep_get_next; [exact Hrep3|apply lookup_insert_eq|].
      rewrite length_app, length_take. lia. }
  rewrite drop_prefix by done. simpl. unfold ret.
  exists a. split; [done|]. split; [done|]. split; [done|]. congruence.
Qed.

Lemma EraseAfter_rep m sigma l cs s k c :
  rep m sigma -> sigma !! l = Some (cs, s) -> cs !! k = Some c ->
  exists m',
    EraseAfter l (mkIter (pos_ptr l cs k)) m =
      Ok (mkIter (first_ptr (drop (S k) cs))) m' /\
    rep m' (<[l := (take k cs ++ drop (S k) cs, to_size_t (s - 1))]> sigma) /\
    dom (lists m') = dom (lists m).
Proof.
  intros Hrep Hl Hc. pose proof (lookup_lt_Some _ _ _ Hc) as Hk.
  assert (first_ptr (drop k cs) = HeapNode c.1) as Hvictim.
  { rewrite <- (take_drop_middle _ _ _ Hc) at 1.
    rewrite drop_app_length'; [done|]. rewrite length_take. lia. }
  assert (pos_ptr l cs (S k) = HeapNode c.1) as Hpos by (simpl; by rewrite Hc).
  unfold EraseAfter. simpl.
  rewrite (bind_Ok _ _ _ _ _ (rep_get_next _ _ l cs s k Hrep Hl (Nat.lt_le_incl _ _ Hk))).
  rewrite Hvictim, <- Hpos.
  rewrite (bind_Ok _ _ _ _ _ (rep_get_next _ _ l cs s (S k) Hrep Hl Hk)).
  rewrite (bind_Ok _ _ _ _ _ (rep_get_next _ _ l cs s k Hrep Hl (Nat.lt_le_incl _ _ Hk))).
  rewrite Hvictim.
  destruct (rep_erase _ _ _ _ _ _ _ Hrep Hl Hc) as (m1 & Her & Hrep1 & _ & Hdom1).
  rewrite (bind_Ok2 _ _ _ _ _ _ Her).
  destruct (rep_decr_size m1 _ l _ s Hrep1 (lookup_insert_eq _ _ _)) as (m2 & Hdec & Hrep2 & _ & _ & Hdom2).
  rewrite (bind_Ok _ _ _ _ _ Hdec). rewrite insert_insert_eq in Hrep2.
  rewrite <- (pos_ptr_prefix l cs k (drop (S k) cs)) by lia.
  erewrite bind_Ok.
  2:{ eapply rep_get_next; [exact Hrep2|apply lookup_insert_eq|].
      rewrite length_app, length_take. lia. }
  rewrite drop_prefix by lia. unfold ret.
  exists m2. split; [done|]. split; [done|]. congruence.
Qed.

Lemma PopFront_rep m sigma l c cs s :
  rep m sigma -> sigma !! l = Some (c :: cs, s) ->
  exists m',
    PopFront l m = Ok tt m' /\
    rep m' (<[l := (cs, to_size_t (s - 1))]> sigma) /\
    dom (lists m') = dom (lists m).
Proof.
  intros Hrep Hl. unfold PopFront.
  pose proof (rep_get_next _ _ l _ s 0%nat Hrep Hl (Nat.le_0_l _)) as Hfirst.
  simpl in Hfirst. rewrite (bind_Ok _ _ _ _ _ Hfirst).
  pose proof (rep_get_next _ _ l (c :: cs) s 1%nat Hrep Hl) as Hsecond.
  simpl in Hsecond. rewrite drop_0 in Hsecond.
  rewrite (bind_Ok _ _ _ _ _ (Hsecond ltac:(lia))).
  rewrite (bind_Ok _ _ _ _ _ Hfirst).
  destruct (rep_erase _ _ l (c :: cs) s 0%nat c Hrep Hl eq_refl)
    as (m1 & Her & Hrep1 & _ & Hdom1).
  simpl in Her. rewrite drop_0 in Her. rewrite (bind_Ok2 _ _ _ _ _ _ Her).
  simpl in Hrep1. rewrite drop_0 in Hrep1.
  destruct (rep_decr_size m1 _ l _ s Hrep1 (lookup_insert_eq _ _ _)) as (m2 & Hdec & Hrep2 & _ & _ & Hdom2).
  rewrite insert_insert_eq in Hrep2.
  exists m2. split; [done|]. split; [done|]. congruence.
Qed.

Lemma Clear_loop_rep fuel m sigma l cs s :
  rep m sigma -> sigma !! l = Some (cs, s) -> (length cs < fuel)%nat ->
  exists m',
    Clear_loop fuel l m = Ok tt m' /\ rep m' (<[l := ([], s)]> sigma) /\
    dom (lists m') = dom (lists m).
Proof.
  revert m sigma cs. induction fuel as [|fuel IH]; intros m sigma cs Hrep Hl Hf; [lia|].
  simpl.
  pose proof (rep_get_next _ _ l _ s 0%nat Hrep Hl (Nat.le_0_l _)) as Hfirst.
  simpl in Hfirst. rewrite drop_0 in Hfirst. rewrite (bind_Ok _ _ _ _ _ Hfirst).
  destruct cs as [|c cs]; simpl.
  - exists m. split; [done|]. split; [|done].
    rewrite insert_id; done.
  - pose proof (rep_get_next _ _ l (c :: cs) s 1%nat Hrep Hl) as Hsecond.
    simpl in Hsecond. rewrite drop_0 in Hsecond.
    rewrite (bind_Ok _ _ _ _ _ (Hsecond ltac:(lia))).
    simpl in Hfirst. rewrite (bind_Ok _ _ _ _ _ Hfirst).
    destruct (rep_erase _ _ l (c :: cs) s 0%nat c Hrep Hl eq_refl)
      as (m1 & Her & Hrep1 & _ & Hdom1).
    simpl in Her. rewrite drop_0 in Her. rewrite (bind_Ok2 _ _ _ _ _ _ Her).
    simpl in Hrep1. rewrite drop_0 in Hrep1.
    destruct (IH m1 _ cs Hrep1) as (m2 & Hloop & Hrep2 & Hdom2).
    { by rewrite lookup_insert_eq. }
    { simpl in Hf. lia. }
    rewrite insert_insert_eq in Hrep2.
    exists m2. split; [done|]. split; [done|]. congruence.
Qed.

Lemma Clear_rep m sigma l cs s :
  rep m sigma -> sigma !! l = Some (cs, s) ->
  exists m',
    Clear l m = Ok tt m' /\ rep m' (<[l := ([], 0%Z)]> sigma) /\
    dom (lists m') = dom (lists m).
Proof.
  intros Hrep Hl. unfold Clear, chain_bound. unfold bind at 1.
  destruct (Clear_loop_rep (S (size (heap m))) m sigma l cs s Hrep Hl)
    as (m1 & Hloop & Hrep1 & Hdom1).
  { pose proof (rep_fuel _ _ _ _ _ Hrep Hl). lia. }
  rewrite (bind_Ok _ _ _ _ _ Hloop).
  destruct (rep_set_size m1 _ l [] s 0%Z Hrep1 (lookup_insert_eq _ _ _)) as (m2 & Hset & Hrep2 & _ & _ & Hdom2).
  rewrite insert_insert_eq in Hrep2.
  exists m2. split; [done|]. split; [done|]. congruence.
Qed.

(** *** Ranges *)

Lemma array_yields (P : Memory T -> Prop) (V : list T) k :
  (k <= length V)%nat ->
  yields P (il_end V) (mkArrayPtr V k) (drop k V).
Proof.
  intros Hk. remember (length V - k)%nat as d eqn:Hd.
  revert k Hk Hd. induction d as [|d IH]; intros k Hk Hd.
  - rewrite drop_ge by lia. apply yields_nil. simpl.
    apply negb_false_iff, Nat.eqb_eq. lia.
  - destruct (lookup_lt_is_Some_2 V k) as [v Hv]; [lia|].
    rewrite (drop_S _ _ _ Hv).
    apply yields_cons with (it' := mkArrayPtr V (S k)).
    + simpl. apply negb_true_iff, Nat.eqb_neq. lia.
    + intros m _. simpl. by rewrite Hv.
    + done.
    + apply IH; lia.
Qed.

Lemma chain_yields (h0 : gmap Z (Node T)) cs :
  linked h0 cs ->
  yields (fun m => h0 ⊆ heap m) (mkIter nullptr) (mkIter (first_ptr cs)) cs.*2.
Proof.
  induction cs as [|c cs IH]; intros Hlk; simpl.
  - by apply yields_nil.
  - destruct Hlk as [Hc Hlk].
    apply yields_cons with (it' := mkIter (first_ptr cs)).
    + done.
    + intros m Hsub. simpl. unfold deref. simpl.
      by rewrite (get_value_node _ _ _ (lookup_weaken _ _ _ _ Hc Hsub)).
    + intros m Hsub. simpl. unfold pre_incr. simpl.
      by rewrite (bind_Ok _ _ _ _ _
                    (get_next_node _ _ _ (lookup_weaken _ _ _ _ Hc Hsub))).
    + by apply IH.
Qed.

Lemma pos_ptr_last l cs c :
  pos_ptr l (cs ++ [c]) (length (cs ++ [c])) = HeapNode c.1.
Proof.
  rewrite length_app. simpl. rewrite Nat.add_1_r. simpl.
  rewrite lookup_app_r by lia. by rewrite Nat.sub_diag.
Qed.

(** *** Init *)

Lemma Init_loop_rep {It} `{@Range T It} fuel (h0 : gmap Z (Node T)) m sigma
    tmp cs0 s (it last : It) V :
  rep m sigma -> sigma !! tmp = Some (cs0, s) ->
  (0 <= s < 2 ^ SIZE_WIDTH)%Z ->
  yields (fun m' => h0 ⊆ heap m') last it V ->
  h0 ⊆ heap m -> (forall b, b ∈ cs0.*1 -> h0 !! b = None) ->
  (length V < fuel)%nat ->
  match Init_loop fuel tmp (pos_ptr tmp cs0 (length cs0)) it last m with
  | Ok _ m' =>
      exists cs1, cs1.*2 = V /\
        rep m' (<[tmp := (cs0 ++ cs1, to_size_t (s + Z.of_nat (length V)))]> sigma) /\
        dom (lists m') = dom (lists m)
  | BadAlloc m' =>
      (exists cs' s', rep m' (<[tmp := (cs', s')]> sigma) /\
         dom (lists m') = dom (lists m)) /\
      ~ supply (length V) m
  | _ => False
  end.
Proof.
  revert m sigma cs0 s it V.
  induction fuel as [|fuel IH]; intros m sigma cs0 s it V Hrep Hl Hs Hy Hsub Hnew Hf;
    [lia|].
  simpl. destruct Hy as [it Hne|it it' v V Hne Hderef Hincr Hy].
  - rewrite Hne. exists []. split; [done|]. rewrite app_nil_r. simpl.
    rewrite Z.add_0_r, to_size_t_small by done.
    rewrite insert_id; done.
  - rewrite Hne.
    destruct (rep_incr_size _ _ _ _ _ Hrep Hl) as (m1 & Hinc & Hrep1 & Hh1 & Hnr1 & Hdom1).
    rewrite (bind_Ok _ _ _ _ _ Hinc).
    rewrite (bind_Ok _ _ _ _ _ (Hderef m1 ltac:(by rewrite Hh1))).
    unfold bind at 1.
    pose proof (rep_new_Node m1 _ v nullptr Hrep1) as Hnode.
    destruct (new_Node v nullptr m1) as [p m2|m2| |]; try done.
    2:{ destruct Hnode as (Hh2 & Hls2 & Hno). split.
        - exists cs0, (to_size_t (s + 1)). split.
          + eapply rep_frame; [exact Hrep1| |]; intros; congruence.
          + congruence.
        - intros Hsup. apply (Hno (length V)). by apply (supply_ext _ m). }
    destruct Hnode as (a & -> & Hr & Hfresh & Hh2 & Hls2 & Hrep2 & Hnr2).
    rewrite Hh1 in Hfresh.
    destruct (rep_link m2 _ tmp cs0 (to_size_t (s + 1)) (length cs0) a v Hrep2
                (lookup_insert_eq _ _ _)) as
      (m3 & Hset & Hrep3 & Hnr3 & Hdom3 & Hdh3 & Hfr3); try done.
    { rewrite Hh2, lookup_insert_eq. by rewrite drop_all. }
    { intros l' cs' s' Hl'. eapply rep_fresh; [exact Hrep1|exact Hl'|].
      by rewrite Hh1. }
    rewrite (bind_Ok _ _ _ _ _ Hset).
    rewrite firstn_all, drop_all, insert_insert_eq in Hrep3.
    pose proof (rep_get_next m3 _ tmp (cs0 ++ [(a, v)]) _ (length cs0) Hrep3
                  (lookup_insert_eq _ _ _)) as Hnext.
    rewrite pos_ptr_app, drop_app_length in Hnext by done.
    rewrite (bind_Ok _ _ _ _ _ (Hnext ltac:(rewrite length_app; lia))).
    assert (h0 ⊆ heap m3) as Hsub3.
    { apply map_subseteq_spec. intros b n Hb.
      pose proof (lookup_weaken _ _ _ _ Hb Hsub) as Hbm.
      rewrite Hfr3, Hh2, Hh1.
      - rewrite lookup_insert_ne; [done|]. intros <-. congruence.
      - intros Hin. specialize (Hnew _ Hin). congruence. }
    rewrite (bind_Ok _ _ _ _ _ (Hincr m3 Hsub3)).
    assert (pos_ptr tmp (cs0 ++ [(a, v)]) (length (cs0 ++ [(a, v)])) = HeapNode a)
      as Hlast by apply (pos_ptr_last tmp cs0 (a, v)).
    simpl first_ptr. rewrite <- Hlast.
    assert (forall b, b ∈ (cs0 ++ [(a, v)]).*1 -> h0 !! b = None) as Hnew3.
    { rewrite fmap_app. intros b Hb. apply elem_of_app in Hb as [Hb|Hb].
      - by apply Hnew.
      - simpl in Hb. apply list_elem_of_singleton in Hb as ->.
        destruct (h0 !! a) as [n|] eqn:Hn; [|done].
        pose proof (lookup_weaken _ _ _ _ Hn Hsub). congruence. }
    assert (0 <= to_size_t (s + 1) < 2 ^ SIZE_WIDTH)%Z as Hs3
      by (by apply Z.mod_pos_bound).
    specialize (IH m3 _ (cs0 ++ [(a, v)]) (to_size_t (s + 1)) it' V Hrep3
                  (lookup_insert_eq _ _ _) Hs3 Hy Hsub3 Hnew3
                  ltac:(simpl in Hf; lia)).
    destruct (Init_loop fuel tmp _ it' last m3) as [u m4|m4| |]; try done.
    + destruct IH as (cs1 & Hv & Hrep4 & Hdom4).
      exists ((a, v) :: cs1). split; [rewrite fmap_cons; by rewrite Hv|].
      rewrite insert_insert_eq, <- app_assoc in Hrep4. simpl in Hrep4.
      rewrite to_size_t_add_l in Hrep4.
      replace (s + Z.of_nat (length (v :: V)))%Z
        with (s + 1 + Z.of_nat (length V))%Z by (simpl length; lia).
      split; [done|]. congruence.
    + destruct IH as [(cs' & s' & Hrep4 & Hdom4) Hno]. split.
      * exists cs', s'. rewrite insert_insert_eq in Hrep4. split; [done|]. congruence.
      * intros Hsup. apply Hno. apply (supply_S _ m m3 a Hsup).
        { rewrite Hnr3. by rewrite <- Hnr2, Hnr1. }
        rewrite Hdh3, Hh2, dom_insert_L. by rewrite Hh1.
Qed.

(** *** Traversal and comparison *)

Lemma iter_ne_first cs :
  iter_ne (mkIter (first_ptr cs)) (mkIter nullptr) =
  match cs with [] => false | _ :: _ => true end.
Proof. by destruct cs. Qed.

Lemma iter_eq_first cs :
  iter_eq (mkIter (first_ptr cs)) (mkIter nullptr) =
  match cs with [] => true | _ :: _ => false end.
Proof. by destruct cs. Qed.

Lemma deref_first m c cs :
  linked (heap m) (c :: cs) -> deref (mkIter (first_ptr (c :: cs))) m = Ok c.2 m.
Proof. intros [Hc _]. unfold deref. simpl. by rewrite (get_value_node _ _ _ Hc). Qed.

Lemma pre_incr_first m c cs :
  linked (heap m) (c :: cs) ->
  pre_incr (mkIter (first_ptr (c :: cs))) m = Ok (mkIter (first_ptr cs)) m.
Proof.
  intros [Hc _]. unfold pre_incr. simpl.
  by rewrite (bind_Ok _ _ _ _ _ (get_next_node _ _ _ Hc)).
Qed.

Lemma iterate_rep fuel m cs :
  linked (heap m) cs -> (length cs < fuel)%nat ->
  iterate fuel (mkIter (first_ptr cs)) (mkIter nullptr) m = Ok cs.*2 m.
Proof.
  revert cs. induction fuel as [|fuel IH]; intros cs Hlk Hf; [lia|].
  simpl iterate. rewrite iter_ne_first. destruct cs as [|c cs]; [done|].
  rewrite (bind_Ok _ _ _ _ _ (deref_first _ _ _ Hlk)).
  rewrite (bind_Ok _ _ _ _ _ (pre_incr_first _ _ _ Hlk)).
  rewrite (bind_Ok _ _ _ _ _ (IH cs (proj2 Hlk) ltac:(simpl in Hf; lia))).
  done.
Qed.

Lemma traverse_at m l cs s :
  list_at m l cs s -> traverse l m = Ok cs.*2 m.
Proof.
  intros (o & Ho & _ & Hp & Hlk).
  unfold traverse.
  rewrite (bind_Ok _ _ _ _ _ (begin_Ok _ _ _ Ho)).
  rewrite (bind_Ok _ _ _ _ _ (end_Ok _ _)).
  unfold bind, chain_bound. rewrite Hp. apply iterate_rep; [done|].
  pose proof (linked_length _ _ Hlk). lia.
Qed.

Lemma rep_traverse m sigma l cs s :
  rep m sigma -> sigma !! l = Some (cs, s) ->
  traverse l m = Ok cs.*2 m /\ GetSize l m = Ok s m.
Proof.
  intros Hrep Hl. split.
  - eapply traverse_at, rep_list_at; done.
  - by eapply rep_get_size.
Qed.

Lemma std_equal_rep `{Element T} fuel m cs1 cs2 :
  linked (heap m) cs1 -> linked (heap m) cs2 -> (length cs1 < fuel)%nat ->
  std_equal fuel (mkIter (first_ptr cs1)) (mkIter nullptr)
                 (mkIter (first_ptr cs2)) (mkIter nullptr) m =
  Ok (equal_values cs1.*2 cs2.*2) m.
Proof.
  revert cs1 cs2. induction fuel as [|fuel IH]; intros cs1 cs2 H1 H2 Hf; [lia|].
  simpl std_equal. rewrite !iter_ne_first, !iter_eq_first.
  destruct cs1 as [|c1 cs1], cs2 as [|c2 cs2]; try done.
  change (true && true) with true. cbv iota.
  rewrite (bind_Ok _ _ _ _ _ (deref_first _ _ _ H1)).
  rewrite (bind_Ok _ _ _ _ _ (deref_first _ _ _ H2)).
  simpl. destruct (negb (elt_eq c1.2 c2.2)); [done|].
  rewrite (bind_Ok _ _ _ _ _ (pre_incr_first _ _ _ H1)).
  rewrite (bind_Ok _ _ _ _ _ (pre_incr_first _ _ _ H2)).
  apply IH; [apply H1|apply H2|simpl in Hf; lia].
Qed.

Lemma std_lexicographical_compare_rep `{Element T} fuel m cs1 cs2 :
  linked (heap m) cs1 -> linked (heap m) cs2 -> (length cs1 < fuel)%nat ->
  std_lexicographical_compare fuel (mkIter (first_ptr cs1)) (mkIter nullptr)
                                   (mkIter (first_ptr cs2)) (mkIter nullptr) m =
  Ok (compare_values cs1.*2 cs2.*2) m.
Proof.
  revert cs1 cs2. induction fuel as [|fuel IH]; intros cs1 cs2 H1 H2 Hf; [lia|].
  simpl std_lexicographical_compare. rewrite !iter_ne_first, !iter_eq_first.
  destruct cs1 as [|c1 cs1], cs2 as [|c2 cs2]; try done.
  change (true && true) with true. cbv iota.
  rewrite (bind_Ok _ _ _ _ _ (deref_first _ _ _ H1)).
  rewrite (bind_Ok _ _ _ _ _ (deref_first _ _ _ H2)).
  simpl. destruct (elt_lt c1.2 c2.2); [done|].
  destruct (elt_lt c2.2 c1.2); [done|].
  rewrite (bind_Ok _ _ _ _ _ (pre_incr_first _ _ _ H1)).
  rewrite (bind_Ok _ _ _ _ _ (pre_incr_first _ _ _ H2)).
  apply IH; [apply H1|apply H2|simpl in Hf; lia].
Qed.

Lemma op_eq_at `{Element T} m l1 l2 cs1 s1 cs2 s2 :
  list_at m l1 cs1 s1 -> list_at m l2 cs2 s2 ->
  op_eq l1 l2 m = Ok (equal_values cs1.*2 cs2.*2) m.
Proof.
  intros (o1 & Ho1 & _ & Hp1 & Hlk1) (o2 & Ho2 & _ & Hp2 & Hlk2).
  unfold op_eq.
  rewrite (bind_Ok _ _ _ _ _ (begin_Ok _ _ _ Ho1)).
  rewrite (bind_Ok _ _ _ _ _ (end_Ok _ _)).
  rewrite (bind_Ok _ _ _ _ _ (begin_Ok _ _ _ Ho2)).
  rewrite (bind_Ok _ _ _ _ _ (end_Ok _ _)).
  unfold bind, chain_bound. rewrite Hp1, Hp2. apply std_equal_rep; try done.
  pose proof (linked_length _ _ Hlk1). lia.
Qed.

Lemma op_lt_at `{Element T} m l1 l2 cs1 s1 cs2 s2 :
  list_at m l1 cs1 s1 -> list_at m l2 cs2 s2 ->
  op_lt l1 l2 m = Ok (compare_values cs1.*2 cs2.*2) m.
Proof.
  intros (o1 & Ho1 & _ & Hp1 & Hlk1) (o2 & Ho2 & _ & Hp2 & Hlk2).
  unfold op_lt.
  rewrite (bind_Ok _ _ _ _ _ (begin_Ok _ _ _ Ho1)).
  rewrite (bind_Ok _ _ _ _ _ (end_Ok _ _)).
  rewrite (bind_Ok _ _ _ _ _ (begin_Ok _ _ _ Ho2)).
  rewrite (bind_Ok _ _ _ _ _ (end_Ok _ _)).
  unfold bind, chain_bound. rewrite Hp1, Hp2.
  apply std_lexicographical_compare_rep; try done.
  pose proof (linked_length _ _ Hlk1). lia.
Qed.

(** *** Lifetime: destructor, constructors, assignment *)

Lemma rep_live m sigma l x :
  rep m sigma -> sigma !! l = Some x -> is_Some (lists m !! l).
Proof.
  intros Hrep Hl. destruct x as [cs s].
  destruct (rep_lookup _ _ _ _ _ Hrep Hl) as (o & Ho & _). by eexists.
Qed.

Lemma rep_dead m sigma l : rep m sigma -> lists m !! l = None -> sigma !! l = None.
Proof.
  intros Hrep Hl. destruct (sigma !! l) as [x|] eqn:Hx; [|done].
  destruct (rep_live _ _ _ _ Hrep Hx) as [o Ho]. congruence.
Qed.

Lemma difference_insert_fresh (X : gset nat) x :
  x ∉ X -> ({[x]} ∪ X) ∖ {[x]} = X.
Proof.
  intros Hx. apply set_eq. intros y.
  rewrite elem_of_difference, elem_of_union, !elem_of_singleton. split.
  - by intros [[->|Hy] Hne].
  - intros Hy. split; [by right|]. by intros ->.
Qed.

Lemma fresh_dead m : lists m !! fresh (dom (lists m)) = None.
Proof. apply not_elem_of_dom, is_fresh. Qed.

Lemma finally_ext {A} (c c' : M T A) cleanup m :
  c m = c' m -> finally c cleanup m = finally c' cleanup m.
Proof. unfold finally. by intros ->. Qed.

Lemma destructor_rep m sigma l cs s :
  rep m sigma -> sigma !! l = Some (cs, s) ->
  exists m',
    destructor l m = Ok tt m' /\ rep m' (delete l sigma) /\
    dom (lists m') = dom (lists m) ∖ {[l]}.
Proof.
  intros Hrep Hl. unfold destructor.
  destruct (Clear_rep _ _ _ _ _ Hrep Hl) as (m1 & Hclear & Hrep1 & Hdom1).
  rewrite (bind_Ok _ _ _ _ _ Hclear).
  destruct (rep_release m1 _ l Hrep1) as (m2 & Hrel & Hrep2 & _ & Hls2 & _).
  { eapply rep_live; [done|]. apply lookup_insert_eq. }
  exists m2. split; [done|]. rewrite delete_insert_eq in Hrep2. split; [done|].
  rewrite Hls2, dom_delete_L. by rewrite Hdom1.
Qed.

Lemma SingleLinkedList_default_rep `{Element T} m sigma l :
  rep m sigma -> lists m !! l = None ->
  exists m',
    SingleLinkedList_default l m = Ok tt m' /\
    rep m' (<[l := ([], 0%Z)]> sigma) /\ heap m' = heap m /\
    lists m' = <[l := mkList (mkNode elt_default nullptr) 0]> (lists m) /\
    new_results m' = new_results m.
Proof.
  intros Hrep Hl. unfold SingleLinkedList_default, constructor.
  destruct (rep_member_init _ _ _ Hrep Hl) as (m1 & Hinit & Hrep1 & Hh1 & Hls1 & Hnr1).
  rewrite Hinit. unfold ret. by exists m1.
Qed.

(** The temporary is filled from the range, swapped with the (still empty)
    list under construction and destroyed. *)
Lemma build_rep {It} `{@Range T It} fuel m sigma l tmp (b last : It) V :
  rep m sigma -> sigma !! l = Some ([], 0%Z) -> sigma !! tmp = Some ([], 0%Z) ->
  l <> tmp ->
  yields (fun m' => heap m ⊆ heap m') last b V -> (length V < fuel)%nat ->
  match finally (let* _ := Init fuel tmp b last in swap l tmp) (destructor tmp) m with
  | Ok _ m' =>
      exists cs, cs.*2 = V /\
        rep m' (<[l := (cs, Z.of_nat (length V))]> (delete tmp sigma)) /\
        dom (lists m') = dom (lists m) ∖ {[tmp]}
  | BadAlloc m' =>
      rep m' (delete tmp sigma) /\ dom (lists m') = dom (lists m) ∖ {[tmp]} /\
      ~ supply (length V) m
  | _ => False
  end.
Proof.
  intros Hrep Hl Htmp Hne Hy Hf. unfold finally, bind, Init.
  pose proof (Init_loop_rep fuel (heap m) m sigma tmp [] 0%Z b last V Hrep Htmp
                ltac:(done) Hy ltac:(done)) as Hinit.
  simpl in Hinit.
  destruct (Init_loop fuel tmp (HeadOf tmp) b last m) as [u m1|m1| |].
  - destruct Hinit as (cs & HV & Hrep1 & Hdom1); [|done|].
    { intros b0 Hb0. by apply elem_of_nil in Hb0. }
    assert (length cs = length V) as Hlen by (by rewrite <- HV, length_fmap).
    rewrite to_size_t_small in Hrep1.
    2:{ pose proof (rep_count_bound _ _ _ _ _ Hrep1 (lookup_insert_eq _ _ _)). lia. }
    destruct (rep_swap m1 _ l tmp ([], 0%Z) (cs, Z.of_nat (length V)) Hrep1)
      as (m2 & Hsw & Hrep2 & _ & _ & Hdom2).
    { by rewrite lookup_insert_ne. }
    { by rewrite lookup_insert_eq. }
    rewrite Hsw.
    destruct (destructor_rep m2 _ tmp [] 0%Z Hrep2) as (m3 & Hd & Hrep3 & Hdom3).
    { rewrite lookup_insert_ne by done. by rewrite lookup_insert_eq. }
    rewrite Hd. exists cs. split; [done|]. split; [|congruence].
    replace (<[l:=(cs, Z.of_nat (length V))]> (delete tmp sigma))
      with (delete tmp (<[l:=(cs, Z.of_nat (length V))]>
                          (<[tmp:=([], 0%Z)]>
                             (<[tmp:=(cs, Z.of_nat (length V))]> sigma)))); [done|].
    rewrite delete_insert_ne by done. by rewrite !delete_insert_eq.
  - destruct Hinit as [(cs' & s' & Hrep1 & Hdom1) Hno]; [|done|].
    { intros b0 Hb0. by apply elem_of_nil in Hb0. }
    destruct (destructor_rep m1 _ tmp cs' s' Hrep1) as (m3 & Hd & Hrep3 & Hdom3).
    { by rewrite lookup_insert_eq. }
    rewrite Hd. rewrite delete_insert_eq in Hrep3. split; [done|].
    split; [congruence|done].
  - apply Hinit; [|done]. intros b0 Hb0. by apply elem_of_nil in Hb0.
  - apply Hinit; [|done]. intros b0 Hb0. by apply elem_of_nil in Hb0.
Qed.

Lemma constructor_build_rep {E : Element T} {It} {R : @Range T It}
    (body : nat -> M T unit) fuel m sigma l (b last : It) V :
  rep m sigma -> lists m !! l = None ->
  yields (fun m' => heap m ⊆ heap m') last b V -> (length V < fuel)%nat ->
  (forall tmp m2, heap m2 = heap m ->
     (forall l', is_Some (lists m !! l') -> lists m2 !! l' = lists m !! l') ->
     body tmp m2 = (let* _ := Init fuel tmp b last in swap l tmp) m2) ->
  match constructor l (local SingleLinkedList_default body) m with
  | Ok _ m' =>
      exists cs, cs.*2 = V /\
        rep m' (<[l := (cs, Z.of_nat (length V))]> sigma) /\
        dom (lists m') = {[l]} ∪ dom (lists m)
  | BadAlloc m' =>
      rep m' sigma /\ dom (lists m') = dom (lists m) /\ ~ supply (length V) m
  | _ => False
  end.
Proof.
  intros Hrep Hl Hy Hf Hbody. unfold constructor.
  destruct (rep_member_init _ _ _ Hrep Hl) as (m1 & Hinit & Hrep1 & Hh1 & Hls1 & Hnr1).
  rewrite Hinit. unfold local.
  set (tmp := fresh (dom (lists m1))).
  assert (lists m1 !! tmp = None) as Htmp by apply fresh_dead.
  assert (l <> tmp) as Hne.
  { intros <-. rewrite Hls1, lookup_insert_eq in Htmp. done. }
  assert (lists m !! tmp = None) as Htmp0.
  { rewrite Hls1 in Htmp. by rewrite lookup_insert_ne in Htmp. }
  destruct (SingleLinkedList_default_rep _ _ _ Hrep1 Htmp)
    as (m2 & Hdef & Hrep2 & Hh2 & Hls2 & Hnr2).
  rewrite (bind_Ok _ _ _ _ _ Hdef).
  rewrite (finally_ext _ (let* _ := Init fuel tmp b last in swap l tmp)).
  2:{ apply Hbody; [congruence|]. intros l' [o Ho].
      rewrite Hls2, Hls1. rewrite !lookup_insert_ne; [done| |]; congruence. }
  pose proof (build_rep fuel m2 _ l tmp b last V Hrep2) as Hb.
  assert (sigma !! l = None) as Hsl by (by eapply rep_dead).
  assert (sigma !! tmp = None) as Hst by (by eapply rep_dead).
  assert (dom (lists m2) ∖ {[tmp]} = {[l]} ∪ dom (lists m)) as Hdom.
  { rewrite Hls2, Hls1, !dom_insert_L.
    apply not_elem_of_dom in Htmp. rewrite Hls1, dom_insert_L in Htmp.
    by apply difference_insert_fresh. }
  destruct (finally _ _ m2) as [u m3|m3| |].
  - destruct Hb as (cs & HV & Hrep3 & Hdom3); try done.
    { rewrite lookup_insert_ne by done. by rewrite lookup_insert_eq. }
    { by rewrite lookup_insert_eq. }
    { by rewrite Hh2, Hh1. }
    exists cs. split; [done|]. split; [|congruence].
    rewrite delete_insert_eq in Hrep3.
    rewrite delete_id in Hrep3 by (by rewrite lookup_insert_ne).
    by rewrite insert_insert_eq in Hrep3.
  - destruct Hb as (Hrep3 & Hdom3 & Hno); try done.
    { rewrite lookup_insert_ne by done. by rewrite lookup_insert_eq. }
    { by rewrite lookup_insert_eq. }
    { by rewrite Hh2, Hh1. }
    rewrite delete_insert_eq in Hrep3.
    rewrite delete_id in Hrep3 by (by rewrite lookup_insert_ne).
    destruct (rep_release m3 _ l Hrep3) as (m4 & Hrel & Hrep4 & _ & Hls4 & _).
    { eapply rep_live; [done|]. apply lookup_insert_eq. }
    rewrite Hrel. rewrite delete_insert_eq, delete_id in Hrep4 by done.
    split; [done|]. split.
    + rewrite Hls4, dom_delete_L, Hdom3, Hdom.
      apply not_elem_of_dom in Hl. by apply difference_insert_fresh.
    + intros Hsup. apply Hno. apply (supply_ext _ m); [congruence|congruence|done].
  - apply Hb; try done.
    { rewrite lookup_insert_ne by done. by rewrite lookup_insert_eq. }
    { by rewrite lookup_insert_eq. }
    { by rewrite Hh2, Hh1. }
  - apply Hb; try done.
    { rewrite lookup_insert_ne by done. by rewrite lookup_insert_eq. }
    { by rewrite lookup_insert_eq. }
    { by rewrite Hh2, Hh1. }
Qed.

Lemma SingleLinkedList_ilist_rep `{Element T} m sigma l V :
  rep m sigma -> lists m !! l = None ->
  match SingleLinkedList_ilist l V m with
  | Ok _ m' =>
      exists cs, cs.*2 = V /\
        rep m' (<[l := (cs, Z.of_nat (length V))]> sigma) /\
        dom (lists m') = {[l]} ∪ dom (lists m)
  | BadAlloc m' =>
      rep m' sigma /\ dom (lists m') = dom (lists m) /\ ~ supply (length V) m
  | _ => False
  end.
Proof.
  intros Hrep Hl. unfold SingleLinkedList_ilist.
  apply (constructor_build_rep _ (S (length V)) m sigma l
           (il_begin V) (il_end V) V); try done; [|lia].
  rewrite <- (drop_0 V) at 3. apply array_yields. lia.
Qed.

Lemma SingleLinkedList_copy_rep `{Element T} m sigma l other cs0 s0 :
  rep m sigma -> lists m !! l = None -> sigma !! other = Some (cs0, s0) ->
  match SingleLinkedList_copy l other m with
  | Ok _ m' =>
      exists cs, cs.*2 = cs0.*2 /\
        rep m' (<[l := (cs, Z.of_nat (length cs0))]> sigma) /\
        dom (lists m') = {[l]} ∪ dom (lists m)
  | BadAlloc m' =>
      rep m' sigma /\ dom (lists m') = dom (lists m) /\ ~ supply (length cs0) m
  | _ => False
  end.
Proof.
  intros Hrep Hl Hother. unfold SingleLinkedList_copy.
  destruct (rep_lookup _ _ _ _ _ Hrep Hother) as (o & Ho & Hs & Hp & Hlk & _).
  rewrite <- (length_fmap snd cs0).
  apply (constructor_build_rep _ (S (size (heap m))) m sigma l
           (mkIter (first_ptr cs0)) (mkIter nullptr) cs0.*2); try done.
  - by apply chain_yields.
  - rewrite length_fmap. pose proof (linked_length _ _ Hlk). lia.
  - intros tmp m2 Hh2 Hls2.
    specialize (Hls2 other ltac:(by eexists)). rewrite Ho in Hls2.
    rewrite (bind_Ok _ _ _ _ _ (begin_Ok _ _ _ Hls2)).
    rewrite (bind_Ok _ _ _ _ _ (end_Ok _ _)).
    unfold bind at 1. unfold chain_bound. by rewrite Hh2, Hp.
Qed.

Lemma assign_rep `{Element T} m sigma this rhs cst st csr sr :
  rep m sigma -> sigma !! this = Some (cst, st) -> sigma !! rhs = Some (csr, sr) ->
  this <> rhs ->
  match assign this rhs m with
  | Ok _ m' =>
      exists cs, cs.*2 = csr.*2 /\
        rep m' (<[this := (cs, Z.of_nat (length csr))]> sigma) /\
        dom (lists m') = dom (lists m)
  | BadAlloc m' =>
      rep m' sigma /\ dom (lists m') = dom (lists m) /\ ~ supply (length csr) m
  | _ => False
  end.
Proof.
  intros Hrep Hthis Hrhs Hne. unfold assign. rewrite decide_True by done.
  unfold local. set (tmp := fresh (dom (lists m))).
  assert (lists m !! tmp = None) as Htmp by apply fresh_dead.
  assert (sigma !! tmp = None) as Hst by (by eapply rep_dead).
  assert (this <> tmp) as Hne1 by congruence.
  pose proof (SingleLinkedList_copy_rep _ _ _ _ _ _ Hrep Htmp Hrhs) as Hcopy.
  unfold bind at 1.
  destruct (SingleLinkedList_copy tmp rhs m) as [u m1|m1| |]; try done.
  destruct Hcopy as (cs & HV & Hrep1 & Hdom1). unfold finally.
  destruct (rep_swap m1 _ this tmp (cst, st) (cs, Z.of_nat (length csr)) Hrep1)
    as (m2 & Hsw & Hrep2 & _ & _ & Hdom2).
  { by rewrite lookup_insert_ne. }
  { by rewrite lookup_insert_eq. }
  rewrite Hsw.
  destruct (destructor_rep m2 _ tmp cst st Hrep2) as (m3 & Hd & Hrep3 & Hdom3).
  { rewrite lookup_insert_ne by done. by rewrite lookup_insert_eq. }
  rewrite Hd. exists cs. split; [done|]. split.
  - rewrite delete_insert_ne, !delete_insert_eq in Hrep3 by done.
    by rewrite delete_id in Hrep3.
  - rewrite Hdom3, Hdom2, Hdom1. apply not_elem_of_dom in Htmp.
    by apply difference_insert_fresh.
Qed.

End Operations.

(** * The invariant of reachable memories *)

Section Invariant.
Context {T : Type} `{Element T}.
Implicit Types (m : Memory T) (sigma : gmap nat (list (Z * T) * Z)).
Implicit Types (cs : list (Z * T)).

Lemma rep_empty m : rep m ∅.
Proof.
  split.
  - intros l cs s Hl. by rewrite lookup_empty in Hl.
  - intros l1 l2 cs1 s1 cs2 s2 _ Hl. by rewrite lookup_empty in Hl.
Qed.

Lemma Memory_eq m1 m2 :
  heap m1 = heap m2 -> lists m1 = lists m2 -> new_results m1 = new_results m2 ->
  m1 = m2.
Proof. destruct m1, m2; simpl. by intros -> -> ->. Qed.

Lemma list_at_inj m l cs1 s1 cs2 s2 :
  list_at m l cs1 s1 -> list_at m l cs2 s2 -> cs1 = cs2 /\ s1 = s2.
Proof.
  intros (o1 & Ho1 & Hs1 & Hp1 & Hlk1) (o2 & Ho2 & Hs2 & Hp2 & Hlk2).
  rewrite Ho1 in Ho2. injection Ho2 as <-. split; [|congruence].
  eapply linked_inj; [done|done|congruence].
Qed.

Lemma Inv_live m sigma l :
  rep m sigma -> dom sigma = dom (lists m) -> live m l ->
  exists cs s, sigma !! l = Some (cs, s).
Proof.
  intros Hrep Hdom Hl. apply elem_of_dom in Hl. rewrite <- Hdom in Hl.
  apply elem_of_dom in Hl as [[cs s] Hx]. by exists cs, s.
Qed.

Lemma Inv_valid_position m sigma l pos :
  rep m sigma -> dom sigma = dom (lists m) -> valid_position m l pos ->
  exists cs s k, sigma !! l = Some (cs, s) /\ (k <= length cs)%nat /\
                 pos = mkIter (pos_ptr l cs k).
Proof.
  intros Hrep Hdom (cs & s & k & Hat & Hk & Hpos).
  destruct (Inv_live m sigma l Hrep Hdom) as (cs' & s' & Hl).
  { destruct Hat as (o & Ho & _). by eexists. }
  destruct (list_at_inj _ _ _ _ _ _ Hat (rep_list_at _ _ _ _ _ Hrep Hl)) as [-> ->].
  exists cs', s', k. split; [done|]. split; [done|].
  destruct pos as [p]. simpl in Hpos. by rewrite Hpos.
Qed.

(** The description of one list changes to a chain whose length is the
    new count before wrap-around. *)
Lemma Inv_update m m' sigma l cs' z :
  dom sigma = dom (lists m) ->
  (forall l cs s, sigma !! l = Some (cs, s) -> s = Z.of_nat (length cs)) ->
  rep m' (<[l := (cs', to_size_t z)]> sigma) ->
  z = Z.of_nat (length cs') ->
  dom (lists m') = {[l]} ∪ dom (lists m) ->
  Inv m'.
Proof.
  intros Hdom Hsz Hrep Hz Hdom'.
  exists (<[l := (cs', to_size_t z)]> sigma). split; [done|]. split.
  - rewrite dom_insert_L. congruence.
  - intros l0 cs s Hl0. rewrite lookup_insert in Hl0. case_decide.
    + injection Hl0 as <- <-.
      pose proof (rep_count_bound _ _ _ _ _ Hrep (lookup_insert_eq _ _ _)).
      rewrite to_size_t_small; lia.
    + by eapply Hsz.
Qed.

Lemma Inv_same m m' sigma :
  dom sigma = dom (lists m) ->
  (forall l cs s, sigma !! l = Some (cs, s) -> s = Z.of_nat (length cs)) ->
  rep m' sigma -> dom (lists m') = dom (lists m) -> Inv m'.
Proof.
  intros Hdom Hsz Hrep Hdom'. exists sigma. split; [done|].
  split; [by rewrite Hdom'|done].
Qed.

Lemma Inv_unchanged m m' sigma :
  dom sigma = dom (lists m) ->
  (forall l cs s, sigma !! l = Some (cs, s) -> s = Z.of_nat (length cs)) ->
  rep m sigma -> heap m' = heap m -> lists m' = lists m -> Inv m'.
Proof.
  intros Hdom Hsz Hrep Hh Hls.
  apply (Inv_same m m' sigma Hdom Hsz); [|by rewrite Hls].
  eapply rep_frame; [done| |]; intros; by rewrite ?Hh, ?Hls.
Qed.

Lemma live_dom_union m l : live m l -> {[l]} ∪ dom (lists m) = dom (lists m).
Proof.
  intros Hl. apply elem_of_dom in Hl. apply set_eq. intros x.
  rewrite elem_of_union, elem_of_singleton. split; [by intros [->|Hx]|by right].
Qed.

Lemma PopFront_empty m sigma l s :
  rep m sigma -> sigma !! l = Some ([], s) -> PopFront l m = UB.
Proof.
  intros Hrep Hl. unfold PopFront.
  pose proof (rep_get_next _ _ l _ s 0%nat Hrep Hl (Nat.le_0_l _)) as Hfirst.
  simpl in Hfirst. by rewrite (bind_Ok _ _ _ _ _ Hfirst).
Qed.

Lemma EraseAfter_last m sigma l cs s :
  rep m sigma -> sigma !! l = Some (cs, s) ->
  EraseAfter l (mkIter (pos_ptr l cs (length cs))) m = UB.
Proof.
  intros Hrep Hl. unfold EraseAfter. simpl.
  rewrite (bind_Ok _ _ _ _ _ (rep_get_next _ _ l cs s _ Hrep Hl (Nat.le_refl _))).
  by rewrite drop_all.
Qed.

Lemma assign_self m this : assign this this m = Ok tt m.
Proof.
  unfold assign. by rewrite decide_False by (intros Hne; by apply Hne).
Qed.

Lemma Inv_start r : Inv (mkMemory (T := T) ∅ ∅ r).
Proof.
  exists ∅. split; [apply rep_empty|]. split; [by rewrite !dom_empty_L|].
  intros l cs s Hl. by rewrite lookup_empty in Hl.
Qed.

Lemma Inv_step m m' : Inv m -> step m m' -> Inv m'.
Proof.
  intros (sigma & Hrep & Hdom & Hsz) Hstep.
  destruct Hstep as [Hf|V Hf|other Hlive Hf|this rhs Ht Hr Hf|a b Ha Hb Hf|a b Ha Hb Hf
                    |l v Hl Hf|l pos v Hpos Hf|l Hl Hf|l pos Hpos Hf|l Hl Hf|l Hl Hf
                    |It R b e V fuel l Hat Hy Hfuel Hinit].
  - unfold declare in Hf.
    destruct (SingleLinkedList_default_rep m sigma _ Hrep (fresh_dead m))
      as (m1 & Hd & Hrep1 & Hh1 & Hls1 & _).
    rewrite (bind_Ok _ _ _ _ _ Hd) in Hf. injection Hf as <-.
    apply (Inv_update m m1 sigma (fresh (dom (lists m))) [] 0%Z); try done.
    by rewrite Hls1, dom_insert_L.
  - unfold declare, bind in Hf.
    pose proof (SingleLinkedList_ilist_rep m sigma _ V Hrep (fresh_dead m)) as Hc.
    destruct (SingleLinkedList_ilist _ V m) as [u m1|m1| |]; try done;
      injection Hf as <-.
    + destruct Hc as (cs & HV & Hrep1 & Hdom1).
      rewrite <- (to_size_t_small (Z.of_nat (length V))) in Hrep1.
      2:{ pose proof (rep_count_bound _ _ _ _ _ Hrep1 (lookup_insert_eq _ _ _)).
          rewrite <- HV, length_fmap. lia. }
      apply (Inv_update m m1 sigma _ cs (Z.of_nat (length V)) Hdom Hsz Hrep1);
        [|done].
      by rewrite <- HV, length_fmap.
    + destruct Hc as (Hrep1 & Hdom1 & _). by apply (Inv_same m m1 sigma).
  - unfold declare, bind in Hf.
    destruct (Inv_live _ _ _ Hrep Hdom Hlive) as (cs0 & s0 & Hother).
    pose proof (SingleLinkedList_copy_rep m sigma _ other cs0 s0 Hrep
                  (fresh_dead m) Hother) as Hc.
    destruct (SingleLinkedList_copy _ other m) as [u m1|m1| |]; try done;
      injection Hf as <-.
    + destruct Hc as (cs & HV & Hrep1 & Hdom1).
      assert (length cs = length cs0) as Hlen.
      { by rewrite <- (length_fmap snd cs), HV, length_fmap. }
      rewrite <- (to_size_t_small (Z.of_nat (length cs0))) in Hrep1.
      2:{ pose proof (rep_count_bound _ _ _ _ _ Hrep1 (lookup_insert_eq _ _ _)). lia. }
      apply (Inv_update m m1 sigma _ cs (Z.of_nat (length cs0)) Hdom Hsz Hrep1);
        [|done].
      by rewrite Hlen.
    + destruct Hc as (Hrep1 & Hdom1 & _). by apply (Inv_same m m1 sigma).
  - destruct (decide (this = rhs)) as [->|Hne].
    + rewrite assign_self in Hf. injection Hf as <-. by exists sigma.
    + destruct (Inv_live _ _ _ Hrep Hdom Ht) as (cst & st & Hthis).
      destruct (Inv_live _ _ _ Hrep Hdom Hr) as (csr & sr & Hrhs).
      pose proof (assign_rep m sigma this rhs _ _ _ _ Hrep Hthis Hrhs Hne) as Hc.
      destruct (assign this rhs m) as [u m1|m1| |]; try done; injection Hf as <-.
      * destruct Hc as (cs & HV & Hrep1 & Hdom1).
        assert (length cs = length csr) as Hlen.
        { by rewrite <- (length_fmap snd cs), HV, length_fmap. }
        rewrite <- (to_size_t_small (Z.of_nat (length csr))) in Hrep1.
        2:{ pose proof (rep_count_bound _ _ _ _ _ Hrep1 (lookup_insert_eq _ _ _)). lia. }
        apply (Inv_update m m1 sigma this cs (Z.of_nat (length csr))); try done.
        { by rewrite Hlen. }
        by rewrite live_dom_union.
      * destruct Hc as (Hrep1 & Hdom1 & _). by apply (Inv_same m m1 sigma).
  - destruct (Inv_live _ _ _ Hrep Hdom Ha) as (csa & sa & Hla).
    destruct (Inv_live _ _ _ Hrep Hdom Hb) as (csb & sb & Hlb).
    destruct (rep_swap _ _ _ _ _ _ Hrep Hla Hlb) as (m1 & Hsw & Hrep1 & _ & _ & Hdom1).
    rewrite Hsw in Hf. injection Hf as <-.
    exists (<[a:=(csb, sb)]> (<[b:=(csa, sa)]> sigma)). split; [done|]. split.
    + rewrite !dom_insert_L, Hdom1, Hdom.
      rewrite (live_dom_union _ _ Hb). by rewrite (live_dom_union _ _ Ha).
    + intros l cs s Hl. rewrite !lookup_insert in Hl.
      repeat case_decide; simplify_eq; by eapply Hsz.
  - unfold swap_free in Hf.
    destruct (Inv_live _ _ _ Hrep Hdom Ha) as (csa & sa & Hla).
    destruct (Inv_live _ _ _ Hrep Hdom Hb) as (csb & sb & Hlb).
    destruct (rep_swap _ _ _ _ _ _ Hrep Hla Hlb) as (m1 & Hsw & Hrep1 & _ & _ & Hdom1).
    rewrite Hsw in Hf. injection Hf as <-.
    exists (<[a:=(csb, sb)]> (<[b:=(csa, sa)]> sigma)). split; [done|]. split.
    + rewrite !dom_insert_L, Hdom1, Hdom.
      rewrite (live_dom_union _ _ Hb). by rewrite (live_dom_union _ _ Ha).
    + intros l cs s Hl. rewrite !lookup_insert in Hl.
      repeat case_decide; simplify_eq; by eapply Hsz.
  - destruct (Inv_live _ _ _ Hrep Hdom Hl) as (cs & s & Hlk).
    pose proof (PushFront_rep m sigma l cs s v Hrep Hlk) as Hc.
    destruct (PushFront l v m) as [u m1|m1| |]; try done; injection Hf as <-.
    + destruct Hc as (a & _ & Hrep1 & Hdom1).
      apply (Inv_update m m1 sigma l ((a, v) :: cs) (s + 1)); try done.
      * rewrite (Hsz _ _ _ Hlk). simpl length. lia.
      * by rewrite live_dom_union.
    + destruct Hc as (Hh & Hls & _). by apply (Inv_unchanged m m1 sigma).
  - destruct (Inv_valid_position _ _ _ _ Hrep Hdom Hpos) as (cs & s & k & Hlk & Hk & ->).
    pose proof (InsertAfter_rep m sigma l cs s k v Hrep Hlk Hk) as Hc.
    destruct (InsertAfter l _ v m) as [u m1|m1| |]; try done; injection Hf as <-.
    + destruct Hc as (a & _ & _ & Hrep1 & Hdom1).
      apply (Inv_update m m1 sigma l _ (s + 1) Hdom Hsz Hrep1).
      * rewrite (Hsz _ _ _ Hlk), length_app, length_take. simpl length.
        rewrite length_drop. lia.
      * rewrite live_dom_union; [done|]. eapply rep_live; done.
    + destruct Hc as (Hh & Hls & _). by apply (Inv_unchanged m m1 sigma).
  - destruct (Inv_live _ _ _ Hrep Hdom Hl) as (cs & s & Hlk).
    destruct cs as [|c cs].
    { by rewrite (PopFront_empty _ _ _ _ Hrep Hlk) in Hf. }
    destruct (PopFront_rep _ _ _ _ _ _ Hrep Hlk) as (m1 & Hpop & Hrep1 & Hdom1).
    rewrite Hpop in Hf. injection Hf as <-.
    apply (Inv_update m m1 sigma l cs (s - 1)); try done.
    + rewrite (Hsz _ _ _ Hlk). simpl length. lia.
    + by rewrite live_dom_union.
  - destruct (Inv_valid_position _ _ _ _ Hrep Hdom Hpos) as (cs & s & k & Hlk & Hk & ->).
    destruct (cs !! k) as [c|] eqn:Hc.
    2:{ apply lookup_ge_None in Hc. assert (k = length cs) as -> by lia.
        by rewrite (EraseAfter_last _ _ _ _ _ Hrep Hlk) in Hf. }
    destruct (EraseAfter_rep _ _ _ _ _ _ _ Hrep Hlk Hc) as (m1 & Her & Hrep1 & Hdom1).
    rewrite Her in Hf. injection Hf as <-.
    apply (Inv_update m m1 sigma l _ (s - 1) Hdom Hsz Hrep1).
    + rewrite (Hsz _ _ _ Hlk), length_app, length_take, length_drop.
      apply lookup_lt_Some in Hc. lia.
    + rewrite live_dom_union; [done|]. eapply rep_live; done.
  - destruct (Inv_live _ _ _ Hrep Hdom Hl) as (cs & s & Hlk).
    destruct (Clear_rep _ _ _ _ _ Hrep Hlk) as (m1 & Hcl & Hrep1 & Hdom1).
    rewrite Hcl in Hf. injection Hf as <-.
    apply (Inv_update m m1 sigma l [] 0%Z); try done.
    by rewrite live_dom_union.
  - destruct (Inv_live _ _ _ Hrep Hdom Hl) as (cs & s & Hlk).
    destruct (destructor_rep _ _ _ _ _ Hrep Hlk) as (m1 & Hd & Hrep1 & Hdom1).
    rewrite Hd in Hf. injection Hf as <-.
    exists (delete l sigma). split; [done|]. split.
    + rewrite dom_delete_L. congruence.
    + intros l0 cs0 s0 Hl0. apply lookup_delete_Some in Hl0 as [_ Hl0].
      by eapply Hsz.
  - destruct (Inv_live m sigma l Hrep Hdom) as (cs & s & Hlk).
    { destruct Hat as (o & Ho & _). by eexists. }
    destruct (list_at_inj _ _ _ _ _ _ Hat (rep_list_at _ _ _ _ _ Hrep Hlk)) as [<- <-].
    pose proof (Init_loop_rep fuel (heap m) m sigma l [] 0%Z b e V Hrep Hlk
                  ltac:(done) Hy ltac:(done)) as Hloop.
    simpl in Hloop. unfold Init in Hinit. rewrite Hinit in Hloop.
    destruct Hloop as (cs1 & HV & Hrep1 & Hdom1); [|done|].
    { intros a Ha. by apply elem_of_nil in Ha. }
    apply (Inv_update m m' sigma l cs1 (0 + Z.of_nat (length V)) Hdom Hsz Hrep1).
    + rewrite <- HV, length_fmap. lia.
    + rewrite live_dom_union; [done|]. eapply rep_live; done.
Qed.

End Invariant.

(** * The claims *)

Section Claims.
Context {T : Type} `{Element T}.
Implicit Types (m : Memory T) (sigma : gmap nat (list (Z * T) * Z)).
Implicit Types (cs : list (Z * T)) (V : list T).

(** C1. A list constructed from the values [V], by the initializer-list
    constructor or by [Init] over a range that delivers [V] on a list that
    was just default-constructed, is traversed from [begin()] to [end()]
    with [++] and [*] as exactly [V], and [GetSize()] is the length of [V].
    Construction returns unless the allocator fails to come up with a node
    for each value. *)
Theorem construct_then_iterate V m :
  match declare (fun l => SingleLinkedList_ilist l V) m with
  | Ok l m' =>
      traverse l m' = Ok V m' /\ GetSize l m' = Ok (Z.of_nat (length V)) m'
  | BadAlloc _ => ~ supply (length V) m
  | _ => False
  end /\
  (forall It (R : @Range T It) (b e : It) fuel l m1,
     declare SingleLinkedList_default m = Ok l m1 ->
     yields (fun m2 => heap m1 ⊆ heap m2) e b V -> (length V < fuel)%nat ->
     match Init fuel l b e m1 with
     | Ok _ m' =>
         traverse l m' = Ok V m' /\ GetSize l m' = Ok (Z.of_nat (length V)) m'
     | BadAlloc _ => ~ supply (length V) m
     | _ => False
     end).
Proof.
  split.
  - unfold declare, bind.
    pose proof (SingleLinkedList_ilist_rep m ∅ _ V (rep_empty m) (fresh_dead m)) as Hc.
    destruct (SingleLinkedList_ilist _ V m) as [u m1|m1| |]; try done.
    + destruct Hc as (cs & <- & Hrep & _). unfold ret.
      apply (rep_traverse _ _ _ _ _ Hrep), lookup_insert_eq.
    + by destruct Hc as (_ & _ & Hno).
  - intros It R b e fuel l m1 Hd Hy Hf. unfold declare in Hd.
    destruct (SingleLinkedList_default_rep m ∅ _ (rep_empty m) (fresh_dead m))
      as (m0 & Hdef & Hrep0 & Hh0 & _ & Hnr0).
    rewrite (bind_Ok _ _ _ _ _ Hdef) in Hd. injection Hd as <- <-.
    pose proof (Init_loop_rep fuel (heap m0) m0 _ (fresh (dom (lists m))) [] 0%Z
                  b e V Hrep0 (lookup_insert_eq _ _ _) ltac:(done) Hy ltac:(done))
      as Hloop.
    unfold Init. simpl in Hloop.
    destruct (Init_loop fuel _ _ b e m0) as [u m'|m'| |].
    + destruct Hloop as (cs & <- & Hrep & _); [|done|].
      { intros a Ha. by apply elem_of_nil in Ha. }
      rewrite insert_insert_eq in Hrep. rewrite to_size_t_small in Hrep.
      2:{ pose proof (rep_count_bound _ _ _ _ _ Hrep (lookup_insert_eq _ _ _)).
          rewrite length_fmap. lia. }
      apply (rep_traverse _ _ _ _ _ Hrep), lookup_insert_eq.
    + destruct Hloop as [_ Hno]; [|done|].
      { intros a Ha. by apply elem_of_nil in Ha. }
      intros Hsup. apply Hno. by apply (supply_ext _ m).
    + apply Hloop; [|done]. intros a Ha. by apply elem_of_nil in Ha.
    + apply Hloop; [|done]. intros a Ha. by apply elem_of_nil in Ha.
Qed.

(** C2. In every memory reached from the empty one by the public
    operations (constructors, with [Init] as the construction step on an
    empty list, assignment, swap, PushFront, InsertAfter, PopFront,
    EraseAfter, Clear, destructor), whether they return or throw
    [std::bad_alloc], each live list is well formed: its count is the
    number of nodes on the chain from the sentinel, the chain is finite and
    without repetition, and its last node has a null next-link. *)
Theorem reachable_well_formed m l :
  reachable m -> live m l -> well_formed m l.
Proof.
  intros Hreach Hl.
  assert (Inv m) as (sigma & Hrep & Hdom & Hsz).
  { clear Hl. induction Hreach as [r|m0 m1 _ IH Hstep]; [apply Inv_start|].
    by apply (Inv_step m0). }
  destruct (Inv_live _ _ _ Hrep Hdom Hl) as (cs & s & Hlk).
  destruct (rep_lookup _ _ _ _ _ Hrep Hlk) as (o & Ho & Hs & Hp & Hlinked & _ & Hnd).
  exists o, cs. split; [done|]. split; [by split|]. split; [|split; [done|]].
  - rewrite Hs. by eapply Hsz.
  - destruct (last cs) as [c|] eqn:Hlast.
    + eexists. split; [by eapply linked_last|done].
    + apply last_None in Hlast. by subst cs.
Qed.

(** C3, amended. [L1 == L2] is true exactly when the element sequences
    have the same length and are equal element by element, and [L1 != L2]
    is its negation.  [L == L] is true exactly when every element of [L] is
    [==] to itself: for every list when [==] of the elements is reflexive,
    and not for a list that holds an element that is not [==] to itself. *)
Theorem list_equality m l1 l2 cs1 s1 cs2 s2 :
  list_at m l1 cs1 s1 -> list_at m l2 cs2 s2 ->
  (exists b, op_eq l1 l2 m = Ok b m /\
             (b = true <-> seq_equal cs1.*2 cs2.*2) /\
             op_ne l1 l2 m = Ok (negb b) m) /\
  (holds (op_eq l1 l1) m <-> forall x, x ∈ cs1.*2 -> elt_eq x x = true) /\
  ((forall x, elt_eq x x = true) -> holds (op_eq l1 l1) m).
Proof.
  intros H1 H2. split; [|split].
  - exists (equal_values cs1.*2 cs2.*2).
    pose proof (op_eq_at _ _ _ _ _ _ _ H1 H2) as Heq.
    split; [done|]. split; [apply equal_values_spec|].
    unfold op_ne. by rewrite (bind_Ok _ _ _ _ _ Heq).
  - unfold holds. rewrite (op_eq_at _ _ _ _ _ _ _ H1 H1).
    generalize (cs1.*2). intros V. split.
    + intros Heq. injection Heq as Heq. induction V as [|y V IH]; intros x Hx.
      * by apply elem_of_nil in Hx.
      * simpl in Heq. destruct (elt_eq y y) eqn:Hy; [|done]. simpl in Heq.
        apply elem_of_cons in Hx as [->|Hx]; [done|by apply IH].
    + intros Hall. f_equal. induction V as [|y V IH]; simpl; [done|].
      rewrite (Hall y) by apply list_elem_of_here. simpl.
      apply IH. intros x Hx. apply Hall. by apply list_elem_of_further.
  - intros Hrefl. unfold holds.
    rewrite (op_eq_at _ _ _ _ _ _ _ H1 H1). by rewrite equal_values_refl.
Qed.

(** C4. With a strict total order on the elements, [L1 < L2] is true
    exactly when the element sequence of [L1] is lexicographically less than
    that of [L2]; the comparison always returns; it is asymmetric,
    transitive and total, [<=] is antisymmetric; and [>], [<=], [>=] are
    [L2 < L1], not [L2 < L1] and not [L1 < L2]. *)
Theorem list_order `{!StrictTotalOrder} m l1 l2 l3 cs1 s1 cs2 s2 cs3 s3 :
  list_at m l1 cs1 s1 -> list_at m l2 cs2 s2 -> list_at m l3 cs3 s3 ->
  (exists b, op_lt l1 l2 m = Ok b m) /\
  (holds (op_lt l1 l2) m <-> lex_lt cs1.*2 cs2.*2) /\
  (holds (op_lt l1 l2) m -> ~ holds (op_lt l2 l1) m) /\
  (holds (op_lt l1 l2) m -> holds (op_lt l2 l3) m -> holds (op_lt l1 l3) m) /\
  (holds (op_lt l1 l2) m \/ cs1.*2 = cs2.*2 \/ holds (op_lt l2 l1) m) /\
  (holds (op_le l1 l2) m -> holds (op_le l2 l1) m -> cs1.*2 = cs2.*2) /\
  (holds (op_gt l1 l2) m <-> holds (op_lt l2 l1) m) /\
  (holds (op_le l1 l2) m <-> ~ holds (op_lt l2 l1) m) /\
  (holds (op_ge l1 l2) m <-> ~ holds (op_lt l1 l2) m).
Proof.
  intros H1 H2 H3.
  assert (forall la lb csa sa csb sb,
            list_at m la csa sa -> list_at m lb csb sb ->
            (holds (op_lt la lb) m <-> lex_lt csa.*2 csb.*2) /\
            (holds (let* r := op_lt la lb in ret (negb r)) m <->
             ~ lex_lt csa.*2 csb.*2)) as Hlt.
  { intros la lb csa sa csb sb Ha Hb. unfold holds.
    pose proof (op_lt_at _ _ _ _ _ _ _ Ha Hb) as Hc.
    rewrite (bind_Ok _ _ _ _ _ Hc), Hc. unfold ret.
    rewrite <- compare_values_spec.
    destruct (compare_values csa.*2 csb.*2); simpl; split; split;
      try done; try congruence; intros Hn; by destruct Hn. }
  destruct (Hlt _ _ _ _ _ _ H1 H2) as [H12 N12].
  destruct (Hlt _ _ _ _ _ _ H2 H1) as [H21 N21].
  destruct (Hlt _ _ _ _ _ _ H2 H3) as [H23 _].
  destruct (Hlt _ _ _ _ _ _ H1 H3) as [H13 _].
  split; [eexists; by eapply op_lt_at|].
  split; [done|].
  split; [rewrite H12, H21; apply lex_lt_asym|].
  split; [rewrite H12, H23, H13; apply lex_lt_trans|].
  split; [rewrite H12, H21; apply lex_lt_total|].
  split.
  { unfold op_le. rewrite N21, N12. intros Hn1 Hn2.
    by destruct (lex_lt_total cs1.*2 cs2.*2) as [?|[?|?]]. }
  split; [done|].
  split; [unfold op_le; by rewrite N21, H21|].
  unfold op_ge. by rewrite N12, H12.
Qed.

(** C5. [InsertAfter(pos, v)] followed by [EraseAfter(pos)], for [pos] the
    sentinel or a real node of the list, gives back the list as it was: the
    same nodes with the same values in the same order and the same count;
    the other lists are left alone. *)
Theorem insert_then_erase m sigma l cs k v it m1 :
  rep m sigma -> sigma !! l = Some (cs, Z.of_nat (length cs)) ->
  (k <= length cs)%nat ->
  InsertAfter l (mkIter (pos_ptr l cs k)) v m = Ok it m1 ->
  exists m2,
    EraseAfter l (mkIter (pos_ptr l cs k)) m1 =
      Ok (mkIter (first_ptr (drop k cs))) m2 /\
    rep m2 sigma /\
    traverse l m2 = Ok cs.*2 m2 /\
    GetSize l m2 = Ok (Z.of_nat (length cs)) m2.
Proof.
  intros Hrep Hl Hk Hins.
  pose proof (InsertAfter_rep m sigma l cs _ k v Hrep Hl Hk) as Hc.
  rewrite Hins in Hc. destruct Hc as (a & -> & Hfresh & Hrep1 & _).
  set (cs1 := take k cs ++ (a, v) :: drop k cs) in *.
  assert (cs1 !! k = Some (a, v)) as Hat by (by apply splice_lookup).
  destruct (EraseAfter_rep m1 _ l cs1 _ k (a, v) Hrep1 (lookup_insert_eq _ _ _) Hat)
    as (m2 & Her & Hrep2 & _).
  assert (take k cs1 ++ drop (S k) cs1 = cs) as Hback.
  { unfold cs1. rewrite splice_take, splice_drop by done. apply take_drop. }
  rewrite Hback, insert_insert_eq, to_size_t_sub_l in Hrep2.
  replace (Z.of_nat (length cs) + 1 - 1)%Z with (Z.of_nat (length cs)) in Hrep2 by lia.
  rewrite to_size_t_small in Hrep2.
  2:{ pose proof (rep_count_bound _ _ _ _ _ Hrep Hl). lia. }
  rewrite insert_id in Hrep2 by done.
  exists m2. split.
  - unfold cs1 in Her. rewrite pos_ptr_prefix in Her by done. rewrite Her.
    by rewrite splice_drop.
  - split; [done|]. by apply (rep_traverse _ _ _ _ _ Hrep2).
Qed.

(** C6. [InsertAfter(position, value)] at the sentinel or at a real node of
    the list either returns an iterator to one new node that holds [value]
    and directly follows [position], with the count one larger and all other
    cells and lists as before, or, when the allocator has no node to give,
    throws [std::bad_alloc] with the nodes and the list objects exactly as
    they were. *)
Theorem InsertAfter_spec m sigma l cs k v :
  rep m sigma -> sigma !! l = Some (cs, Z.of_nat (length cs)) ->
  (k <= length cs)%nat ->
  match InsertAfter l (mkIter (pos_ptr l cs k)) v m with
  | Ok it m' =>
      exists a,
        it = mkIter (HeapNode a) /\ heap m !! a = None /\
        deref it m' = Ok v m' /\
        rep m' (<[l := (take k cs ++ (a, v) :: drop k cs,
                        Z.of_nat (length cs) + 1)%Z]> sigma) /\
        traverse l m' = Ok (take k cs.*2 ++ v :: drop k cs.*2) m' /\
        GetSize l m' = Ok (Z.of_nat (length cs) + 1)%Z m'
  | BadAlloc m' => heap m' = heap m /\ lists m' = lists m /\ ~ supply 1 m
  | _ => False
  end.
Proof.
  intros Hrep Hl Hk.
  pose proof (InsertAfter_rep m sigma l cs _ k v Hrep Hl Hk) as Hc.
  destruct (InsertAfter l _ v m) as [it m'|m'| |]; try done.
  destruct Hc as (a & -> & Hfresh & Hrep1 & _).
  set (cs1 := take k cs ++ (a, v) :: drop k cs) in *.
  assert (length cs1 = S (length cs)) as Hlen.
  { unfold cs1. rewrite length_app, length_take. simpl. rewrite length_drop. lia. }
  rewrite to_size_t_small in Hrep1.
  2:{ pose proof (rep_count_bound _ _ _ _ _ Hrep1 (lookup_insert_eq _ _ _)). lia. }
  exists a. split; [done|]. split; [done|]. split; [|split; [done|]].
  - destruct (rep_lookup _ _ _ _ _ Hrep1 (lookup_insert_eq _ _ _))
      as (o & _ & _ & _ & Hlk & _).
    assert (cs1 !! k = Some (a, v)) as Hat by (by apply splice_lookup).
    pose proof (linked_lookup _ _ _ _ Hlk Hat) as Hnode. simpl in Hnode.
    unfold deref. simpl. by rewrite (get_value_node _ _ _ Hnode).
  - destruct (rep_traverse _ _ _ _ _ Hrep1 (lookup_insert_eq _ _ _)) as [Htr Hsz].
    split; [|done]. rewrite Htr. unfold cs1.
    by rewrite fmap_app, fmap_cons, fmap_take, fmap_drop.
Qed.

(** C7. Copy assignment [A = B]: when it returns, [A] has the element
    sequence and the count of [B] (and [A == B] when [==] of the elements
    is reflexive), and [B] and the other lists are as before; [A = A]
    changes nothing; it throws [std::bad_alloc] only when the allocator has
    no node for each element of [B], and then [A] (like every other list)
    still has its nodes, values and count. *)
Theorem assign_spec m sigma this rhs cst st csr :
  rep m sigma -> sigma !! this = Some (cst, st) ->
  sigma !! rhs = Some (csr, Z.of_nat (length csr)) ->
  match assign this rhs m with
  | Ok _ m' =>
      (this = rhs -> m' = m) /\
      exists cs,
        cs.*2 = csr.*2 /\
        rep m' (<[this := (cs, Z.of_nat (length csr))]> sigma) /\
        traverse this m' = Ok csr.*2 m' /\
        traverse rhs m' = Ok csr.*2 m' /\
        GetSize this m' = Ok (Z.of_nat (length csr)) m' /\
        GetSize rhs m' = Ok (Z.of_nat (length csr)) m' /\
        ((forall x, elt_eq x x = true) -> holds (op_eq this rhs) m')
  | BadAlloc m' =>
      this <> rhs /\ ~ supply (length csr) m /\ rep m' sigma /\
      traverse this m' = Ok cst.*2 m' /\ GetSize this m' = Ok st m'
  | _ => False
  end.
Proof.
  intros Hrep Hthis Hrhs. destruct (decide (this = rhs)) as [->|Hne].
  - rewrite assign_self. split; [done|].
    rewrite Hthis in Hrhs. injection Hrhs as -> ->.
    exists csr. split; [done|]. rewrite insert_id by done.
    destruct (rep_traverse _ _ _ _ _ Hrep Hthis) as [Htr Hsz].
    split; [done|]. do 4 (split; [done|]). intros Hrefl. unfold holds.
    pose proof (rep_list_at _ _ _ _ _ Hrep Hthis) as Hat.
    rewrite (op_eq_at _ _ _ _ _ _ _ Hat Hat). by rewrite equal_values_refl.
  - pose proof (assign_rep m sigma this rhs _ _ _ _ Hrep Hthis Hrhs Hne) as Hc.
    destruct (assign this rhs m) as [u m'|m'| |]; try done.
    + destruct Hc as (cs & HV & Hrep1 & _). split; [done|].
      exists cs. split; [done|]. split; [done|].
      destruct (rep_traverse _ _ _ _ _ Hrep1 (lookup_insert_eq _ _ _)) as [Htr Hsz].
      destruct (rep_traverse m' _ rhs csr (Z.of_nat (length csr)) Hrep1)
        as [Htr' Hsz'].
      { by rewrite lookup_insert_ne. }
      rewrite HV in Htr. do 4 (split; [done|]). intros Hrefl. unfold holds.
      pose proof (rep_list_at _ _ _ _ _ Hrep1 (lookup_insert_eq _ _ _)) as Hat1.
      assert (list_at m' rhs csr (Z.of_nat (length csr))) as Hat2.
      { eapply rep_list_at; [done|]. by rewrite lookup_insert_ne. }
      rewrite (op_eq_at _ _ _ _ _ _ _ Hat1 Hat2), HV.
      by rewrite equal_values_refl.
    + destruct Hc as (Hrep1 & _ & Hno). split; [done|]. split; [done|].
      split; [done|]. by apply (rep_traverse _ _ _ _ _ Hrep1).
Qed.

(** C8. [swap(A, B)], member or free function, always returns when both
    lists are live; afterwards [A] has the nodes, values and count [B] had
    and the other way round; it allocates nothing and writes only the two
    head links and the two counts; doing it twice gives back the memory it
    started from. *)
Theorem swap_spec m sigma a b csa sa csb sb :
  rep m sigma -> sigma !! a = Some (csa, sa) -> sigma !! b = Some (csb, sb) ->
  exists m',
    swap a b m = Ok tt m' /\ swap_free a b m = Ok tt m' /\
    rep m' (<[a := (csb, sb)]> (<[b := (csa, sa)]> sigma)) /\
    traverse a m' = Ok csb.*2 m' /\ GetSize a m' = Ok sb m' /\
    traverse b m' = Ok csa.*2 m' /\ GetSize b m' = Ok sa m' /\
    heap m' = heap m /\ new_results m' = new_results m /\
    (forall l, l <> a -> l <> b -> lists m' !! l = lists m !! l) /\
    (forall oa ob, lists m !! a = Some oa -> lists m !! b = Some ob ->
       lists m' !! a =
         Some (mkList (mkNode (value (head_ oa)) (next_node (head_ ob))) (size_ ob)) /\
       lists m' !! b =
         Some (mkList (mkNode (value (head_ ob)) (next_node (head_ oa))) (size_ oa))) /\
    swap a b m' = Ok tt m /\ swap_free a b m' = Ok tt m.
Proof.
  intros Hrep Ha Hb.
  destruct (rep_live _ _ _ _ Hrep Ha) as [oa Hoa].
  destruct (rep_live _ _ _ _ Hrep Hb) as [ob Hob].
  destruct (swap_lookup _ _ _ _ _ Hoa Hob) as (m' & Hsw & Hh & Hnr & Hls).
  destruct (rep_swap _ _ _ _ _ _ Hrep Ha Hb) as (m1 & Hsw1 & Hrep1 & _).
  rewrite Hsw in Hsw1. injection Hsw1 as <-.
  assert (lists m' !! a =
            Some (mkList (mkNode (value (head_ oa)) (next_node (head_ ob))) (size_ ob)))
    as Hoa'.
  { rewrite Hls. by rewrite decide_True. }
  assert (lists m' !! b =
            Some (mkList (mkNode (value (head_ ob)) (next_node (head_ oa))) (size_ oa)))
    as Hob'.
  { rewrite Hls. destruct (decide (b = a)) as [->|Hne].
    - rewrite Hoa in Hob. by injection Hob as ->.
    - by rewrite decide_True. }
  assert (swap a b m' = Ok tt m) as Hback.
  { destruct (swap_lookup _ _ _ _ _ Hoa' Hob') as (m2 & Hsw2 & Hh2 & Hnr2 & Hls2).
    rewrite Hsw2. f_equal. apply Memory_eq; [congruence| |congruence].
    apply map_eq. intros l. rewrite Hls2. simpl.
    destruct (decide (l = a)) as [->|Hla].
    - rewrite Hoa. by destruct oa as [[? ?] ?].
    - destruct (decide (l = b)) as [->|Hlb].
      + rewrite Hob. by destruct ob as [[? ?] ?].
      + rewrite Hls. rewrite decide_False by done. by rewrite decide_False. }
  exists m'. unfold swap_free. split; [done|]. split; [done|]. split; [done|].
  destruct (rep_traverse m' _ a csb sb Hrep1 (lookup_insert_eq _ _ _)) as [Hta Hsa].
  destruct (rep_traverse m' _ b csa sa Hrep1) as [Htb Hsb].
  { rewrite lookup_insert. case_decide as Hab; [|by rewrite lookup_insert_eq].
    subst b. rewrite Ha in Hb. by injection Hb as -> ->. }
  do 4 (split; [done|]). split; [done|]. split; [done|]. split.
  { intros l Hla Hlb. rewrite Hls. rewrite decide_False by done.
    by rewrite decide_False. }
  split; [|done].
  intros oa0 ob0 Hoa0 Hob0. rewrite Hoa in Hoa0. rewrite Hob in Hob0.
  injection Hoa0 as <-. injection Hob0 as <-. done.
Qed.

(** C9. [operator->] of an iterator that references no node, such as a
    default-constructed one or [end()], is the null pointer; otherwise it
    is the address of the value in the referenced node, and reading through
    it reads that value.  Dereferencing or incrementing an iterator that
    references no node is undefined instead. *)
Theorem arrow_spec (it : BasicIterator) :
  (node_ it = nullptr -> arrow it = null_value) /\
  (node_ it <> nullptr ->
     arrow it = value_of (node_ it) /\
     forall m, load_pointer (arrow it) m = deref it m) /\
  (forall m a n, node_ it = HeapNode a -> heap m !! a = Some n ->
     load_pointer (arrow it) m = Ok (value n) m) /\
  arrow BasicIterator_default = null_value /\
  (forall m l e m', end_ l m = Ok e m' -> arrow e = null_value) /\
  (forall m, deref BasicIterator_default m = UB /\
             pre_incr BasicIterator_default m = UB /\
             post_incr BasicIterator_default m = UB).
Proof.
  destruct it as [p]. simpl. unfold arrow. simpl. repeat split.
  - by intros ->.
  - by rewrite decide_True.
  - by rewrite decide_True.
  - intros m a n -> Hn. simpl. by apply get_value_node.
  - intros m l e m' He. unfold end_, ret in He. by injection He as <- _.
Qed.

(** C10. [A.swap(A)] and [swap(A, A)] on a live list return and leave
    the whole memory, and so the elements and the count of [A], unchanged. *)
Theorem self_swap m a o :
  lists m !! a = Some o ->
  swap a a m = Ok tt m /\ swap_free a a m = Ok tt m.
Proof.
  intros Ho. unfold swap_free.
  destruct (swap_lookup _ _ _ _ _ Ho Ho) as (m' & Hsw & Hh & Hnr & Hls).
  assert (m' = m) as ->; [|done].
  apply Memory_eq; try done. apply map_eq. intros l. rewrite Hls.
  destruct (decide (l = a)) as [->|Hne]; [|done].
  rewrite Ho. by destruct o as [[? ?] ?].
Qed.

End Claims.

(** * The theorems at work on [SingleLinkedList<int>] *)

Section TwoLists.
Context {T : Type}.

Lemma rep_two (m : Memory T) l1 l2 cs1 s1 cs2 s2 :
  l1 <> l2 -> list_at m l1 cs1 s1 -> list_at m l2 cs2 s2 ->
  Forall in_range cs1.*1 -> Forall in_range cs2.*1 -> cs1.*1 ## cs2.*1 ->
  rep m (<[l1 := (cs1, s1)]> {[l2 := (cs2, s2)]}).
Proof.
  intros Hne H1 H2 R1 R2 Hd. split.
  - intros l cs s Hl. rewrite lookup_insert in Hl. case_decide.
    + by simplify_eq.
    + apply lookup_singleton_Some in Hl as [<- Heq]. by simplify_eq.
  - intros k1 k2 c1 t1 c2 t2 Hk H3 H4.
    assert (forall k c t, <[l1:=(cs1, s1)]> ({[l2:=(cs2, s2)]} : gmap _ _) !! k = Some (c, t) ->
              (k = l1 /\ c = cs1) \/ (k = l2 /\ c = cs2)) as Hcases.
    { intros k c t Hk0. rewrite lookup_insert in Hk0. case_decide.
      - left. by simplify_eq.
      - right. apply lookup_singleton_Some in Hk0 as [<- Heq]. by simplify_eq. }
    destruct (Hcases _ _ _ H3) as [[-> ->]|[-> ->]];
      destruct (Hcases _ _ _ H4) as [[-> ->]|[-> ->]]; try done.
    intros x Hx Hy. by apply (Hd x).
Qed.

End TwoLists.

#[global] Instance Z_strict_total_order : StrictTotalOrder (T := Z).
Proof.
  split; simpl.
  - apply Z.ltb_irrefl.
  - intros x y z Hxy Hyz. apply Z.ltb_lt. apply Z.ltb_lt in Hxy, Hyz. lia.
  - intros x y. rewrite !Z.ltb_lt. lia.
Qed.

(** The allocator hands out seven addresses, then fails. *)
Definition ex_new_results : list (option Z) :=
  [Some 16; Some 32; Some 48; Some 64; Some 80; Some 96; Some 112; None]%Z.

Definition ex_start : Memory Z := empty_memory ex_new_results.

(** [SingleLinkedList<int> a{1, 2, 3};] *)
Definition ex_one : Memory Z :=
  mkMemory
    (list_to_map [(16, mkNode 1 (HeapNode 32)); (32, mkNode 2 (HeapNode 48));
                  (48, mkNode 3 nullptr)]%Z)
    (list_to_map [(0%nat, mkList (mkNode 0%Z (HeapNode 16)) 3)])
    [Some 64; Some 80; Some 96; Some 112; None]%Z.

(** [SingleLinkedList<int> a{1, 2, 3}, b{1, 5};] *)
Definition ex_two : Memory Z :=
  mkMemory
    (list_to_map [(16, mkNode 1 (HeapNode 32)); (32, mkNode 2 (HeapNode 48));
                  (48, mkNode 3 nullptr);
                  (64, mkNode 1 (HeapNode 80)); (80, mkNode 5 nullptr)]%Z)
    (list_to_map [(0%nat, mkList (mkNode 0%Z (HeapNode 16)) 3);
                  (1%nat, mkList (mkNode 0%Z (HeapNode 64)) 2)])
    [Some 96; Some 112; None]%Z.

Definition ex_cells_a : list (Z * Z) := [(16, 1); (32, 2); (48, 3)]%Z.
Definition ex_cells_b : list (Z * Z) := [(64, 1); (80, 5)]%Z.

Definition ex_sigma : gmap nat (list (Z * Z) * Z) :=
  <[0%nat := (ex_cells_a, 3%Z)]> {[1%nat := (ex_cells_b, 2%Z)]}.

(** [a.InsertAfter(a.begin(), 10)] in [ex_two]. *)
Definition ex_inserted : Memory Z :=
  mkMemory
    (list_to_map [(16, mkNode 1 (HeapNode 96)); (32, mkNode 2 (HeapNode 48));
                  (48, mkNode 3 nullptr);
                  (64, mkNode 1 (HeapNode 80)); (80, mkNode 5 nullptr);
                  (96, mkNode 10 (HeapNode 32))]%Z)
    (list_to_map [(0%nat, mkList (mkNode 0%Z (HeapNode 16)) 4);
                  (1%nat, mkList (mkNode 0%Z (HeapNode 64)) 2)])
    [Some 112; None]%Z.

Ltac solve_list_at :=
  eexists; split; [vm_compute; reflexivity|];
  split; [reflexivity|]; split; [reflexivity|];
  simpl; repeat split; vm_compute; reflexivity.

Lemma ex_list_a : list_at ex_two 0 ex_cells_a 3.
Proof. solve_list_at. Qed.

Lemma ex_list_b : list_at ex_two 1 ex_cells_b 2.
Proof. solve_list_at. Qed.

Lemma ex_rep : rep ex_two ex_sigma.
Proof.
  apply rep_two; [done|apply ex_list_a|apply ex_list_b| | |].
  - repeat constructor; vm_compute; split; reflexivity.
  - repeat constructor; vm_compute; split; reflexivity.
  - intros x Hx Hy. simpl in Hx, Hy.
    rewrite !elem_of_cons in Hx. rewrite !elem_of_cons in Hy.
    rewrite elem_of_nil in Hx. rewrite elem_of_nil in Hy. lia.
Qed.

(** [SingleLinkedList<int> a;] *)
Definition ex_empty : Memory Z :=
  mkMemory ∅ (list_to_map [(0%nat, mkList (mkNode 0%Z nullptr) 0)]) ex_new_results.

Lemma ex_construct :
  declare (fun l => SingleLinkedList_ilist l [1; 2; 3]%Z) ex_start = Ok 0%nat ex_one.
Proof. vm_compute. reflexivity. Qed.

(** The scenarios of the container on [{1, 2, 3}]. *)
Example ex_begin_is_first :
  (let* it := begin 0 in deref it) ex_one = Ok 1%Z ex_one.
Proof. vm_compute. reflexivity. Qed.

Example ex_insert_after_begin :
  exists it m',
    (let* pos := begin 0 in InsertAfter 0 pos 10%Z) ex_one = Ok it m' /\
    traverse 0 m' = Ok [1; 10; 2; 3]%Z m' /\ GetSize 0 m' = Ok 4%Z m'.
Proof.
  do 2 eexists. split; [vm_compute; reflexivity|]. split; vm_compute; reflexivity.
Qed.

Example ex_erase_after_before_begin :
  exists it m',
    (let* pos := before_begin 0 in EraseAfter 0 pos) ex_one = Ok it m' /\
    traverse 0 m' = Ok [2; 3]%Z m' /\ GetSize 0 m' = Ok 2%Z m'.
Proof.
  do 2 eexists. split; [vm_compute; reflexivity|]. split; vm_compute; reflexivity.
Qed.

Example ex_clear :
  exists m',
    Clear 0 ex_one = Ok tt m' /\ GetSize 0 m' = Ok 0%Z m' /\
    IsEmpty 0 m' = Ok true m' /\
    (let* b := begin 0 in let* e := end_ 0 in ret (iter_eq b e)) m' = Ok true m'.
Proof.
  eexists. split; [vm_compute; reflexivity|]. repeat split; vm_compute; reflexivity.
Qed.

Example ex_pop_front_empty : PopFront 0 ex_empty = UB.
Proof. vm_compute. reflexivity. Qed.

(** [Init] is written for the empty temporary of the constructors: it does
    not free the chain of a list that has elements and it adds to the
    count.  Called on [{1, 2, 3}] with the range [{7}] it leaves the nodes
    of 1, 2 and 3 behind and a list that reads [{7}] with a count of 4. *)
Example ex_Init_on_elements :
  exists m',
    Init 2 0 (il_begin [7]%Z) (il_end [7]%Z) ex_one = Ok tt m' /\
    traverse 0 m' = Ok [7]%Z m' /\ GetSize 0 m' = Ok 4%Z m' /\
    heap m' !! 16%Z = Some (mkNode 1%Z (HeapNode 32)).
Proof.
  eexists. split; [vm_compute; reflexivity|]. repeat split; vm_compute; reflexivity.
Qed.

(** When [new] throws in the middle of [Init] the count has already been
    raised for the node that was not made: the constructors run [Init] on a
    temporary, which is then destroyed. *)
Example ex_Init_throws :
  exists m',
    Init 3 0 (il_begin [7; 8]%Z) (il_end [7; 8]%Z)
      (mkMemory ∅ (lists ex_empty) [Some 16%Z; None]) = BadAlloc m' /\
    traverse 0 m' = Ok [7]%Z m' /\ GetSize 0 m' = Ok 2%Z m'.
Proof.
  eexists. split; [vm_compute; reflexivity|]. split; vm_compute; reflexivity.
Qed.

Lemma ex_construct_b :
  declare (fun l => SingleLinkedList_ilist l [1; 5]%Z) ex_one = Ok 1%nat ex_two.
Proof. vm_compute. reflexivity. Qed.

Lemma ex_lookup_a :
  ex_sigma !! 0%nat = Some (ex_cells_a, Z.of_nat (length ex_cells_a)).
Proof. reflexivity. Qed.

Lemma ex_lookup_b :
  ex_sigma !! 1%nat = Some (ex_cells_b, Z.of_nat (length ex_cells_b)).
Proof. reflexivity. Qed.

Lemma construct_then_iterate_witness :
  (traverse 0 ex_one = Ok [1; 2; 3]%Z ex_one /\
   GetSize 0 ex_one = Ok 3%Z ex_one) /\
  (declare SingleLinkedList_default ex_start = Ok 0%nat ex_empty /\
   (3 < 4)%nat /\
   Init 4 0 (il_begin [1; 2; 3]%Z) (il_end [1; 2; 3]%Z) ex_empty = Ok tt ex_one /\
   traverse 0 ex_one = Ok [1; 2; 3]%Z ex_one /\
   GetSize 0 ex_one = Ok 3%Z ex_one).
Proof.
  pose proof (construct_then_iterate [1; 2; 3]%Z ex_start) as [Hil Hinit].
  assert (declare SingleLinkedList_default ex_start = Ok 0%nat ex_empty) as Hd
    by (vm_compute; reflexivity).
  assert (Init 4 0 (il_begin [1; 2; 3]%Z) (il_end [1; 2; 3]%Z) ex_empty = Ok tt ex_one)
    as Hi by (vm_compute; reflexivity).
  assert (3 < 4)%nat as Hlt by lia.
  rewrite ex_construct in Hil.
  specialize (Hinit _ _ (il_begin [1; 2; 3]%Z) (il_end [1; 2; 3]%Z) 4%nat 0%nat
                ex_empty Hd (array_yields _ [1; 2; 3]%Z 0 (Nat.le_0_l _)) Hlt).
  rewrite Hi in Hinit.
  split; [exact Hil|].
  split; [exact Hd|]. split; [exact Hlt|]. split; [exact Hi|]. exact Hinit.
Defined.

Lemma ex_reachable : reachable ex_two.
Proof.
  apply (reachable_step ex_one).
  - apply (reachable_step ex_start); [apply reachable_start|].
    apply (step_ilist _ _ [1; 2; 3]%Z). by rewrite ex_construct.
  - apply (step_ilist _ _ [1; 5]%Z). by rewrite ex_construct_b.
Qed.

Lemma reachable_well_formed_witness :
  reachable ex_two /\ live ex_two 0 /\ well_formed ex_two 0.
Proof.
  assert (live ex_two 0) as Hl by (vm_compute; eexists; reflexivity).
  split; [exact ex_reachable|]. split; [exact Hl|].
  exact (reachable_well_formed ex_two 0%nat ex_reachable Hl).
Defined.

Lemma list_equality_witness :
  list_at ex_two 0 ex_cells_a 3 /\ list_at ex_two 1 ex_cells_b 2 /\
  (exists b, op_eq 0 1 ex_two = Ok b ex_two /\
             (b = true <-> seq_equal ex_cells_a.*2 ex_cells_b.*2) /\
             op_ne 0 1 ex_two = Ok (negb b) ex_two) /\
  (holds (op_eq 0 0) ex_two <-> forall x : Z, x ∈ ex_cells_a.*2 -> elt_eq x x = true) /\
  ((forall x : Z, elt_eq x x = true) -> holds (op_eq 0 0) ex_two).
Proof.
  split; [exact ex_list_a|]. split; [exact ex_list_b|].
  exact (list_equality ex_two 0%nat 1%nat _ _ _ _ ex_list_a ex_list_b).
Defined.

(** [SingleLinkedList<Number> a{NaN};] *)
Definition ex_nan : Memory Number :=
  mkMemory
    (list_to_map [(16%Z, mkNode NaN nullptr)])
    (list_to_map [(0%nat, mkList (mkNode (Finite 0) (HeapNode 16)) 1)])
    [].

(** C3 as it was stated: [L == L] for every list.  The list [{NaN}],
    built by the initializer-list constructor, is not [==] to itself:
    [operator==] returns and its result is false. *)
Lemma list_equality_counterexample :
  declare (fun l => SingleLinkedList_ilist l [NaN]) (mkMemory ∅ ∅ [Some 16%Z]) =
    Ok 0%nat ex_nan /\
  list_at ex_nan 0 [(16%Z, NaN)] 1 /\
  traverse 0 ex_nan = Ok [NaN] ex_nan /\
  op_eq 0 0 ex_nan = Ok false ex_nan /\
  op_ne 0 0 ex_nan = Ok true ex_nan /\
  ~ holds (op_eq 0 0) ex_nan.
Proof.
  assert (op_eq 0 0 ex_nan = Ok false ex_nan) as Heq by (vm_compute; reflexivity).
  split; [vm_compute; reflexivity|]. split; [solve_list_at|].
  split; [vm_compute; reflexivity|]. split; [exact Heq|].
  split; [vm_compute; reflexivity|].
  unfold holds. rewrite Heq. discriminate.
Qed.

Lemma list_order_witness :
  list_at ex_two 0 ex_cells_a 3 /\ list_at ex_two 1 ex_cells_b 2 /\
  holds (op_lt 0 1) ex_two /\ lex_lt [1; 2; 3]%Z [1; 5]%Z /\
  ~ holds (op_lt 1 0) ex_two /\ holds (op_gt 1 0) ex_two /\
  holds (op_le 0 1) ex_two /\ holds (op_ge 1 0) ex_two.
Proof.
  pose proof (list_order ex_two 0%nat 1%nat 1%nat _ _ _ _ _ _
                ex_list_a ex_list_b ex_list_b)
    as (_ & Hlex & Hasym & _ & _ & _ & _ & Hle & _).
  pose proof (list_order ex_two 1%nat 0%nat 0%nat _ _ _ _ _ _
                ex_list_b ex_list_a ex_list_a)
    as (_ & _ & _ & _ & _ & _ & Hgt & _ & Hge).
  assert (holds (op_lt 0 1) ex_two) as Hlt by (vm_compute; reflexivity).
  split; [exact ex_list_a|]. split; [exact ex_list_b|]. split; [exact Hlt|].
  split; [exact (proj1 Hlex Hlt)|]. split; [exact (Hasym Hlt)|].
  split; [exact (proj2 Hgt Hlt)|]. split; [exact (proj2 Hle (Hasym Hlt))|].
  exact (proj2 Hge (Hasym Hlt)).
Defined.

Lemma ex_insert :
  InsertAfter 0 (mkIter (pos_ptr 0 ex_cells_a 1)) 10%Z ex_two =
  Ok (mkIter (HeapNode 96)) ex_inserted.
Proof. vm_compute. reflexivity. Qed.

Lemma insert_then_erase_witness :
  rep ex_two ex_sigma /\
  ex_sigma !! 0%nat = Some (ex_cells_a, Z.of_nat (length ex_cells_a)) /\
  (1 <= length ex_cells_a)%nat /\
  InsertAfter 0 (mkIter (pos_ptr 0 ex_cells_a 1)) 10%Z ex_two =
    Ok (mkIter (HeapNode 96)) ex_inserted /\
  exists m2,
    EraseAfter 0 (mkIter (pos_ptr 0 ex_cells_a 1)) ex_inserted =
      Ok (mkIter (first_ptr (drop 1 ex_cells_a))) m2 /\
    rep m2 ex_sigma /\
    traverse 0 m2 = Ok ex_cells_a.*2 m2 /\
    GetSize 0 m2 = Ok (Z.of_nat (length ex_cells_a)) m2.
Proof.
  assert (1 <= length ex_cells_a)%nat as Hk by (simpl; lia).
  split; [exact ex_rep|]. split; [exact ex_lookup_a|]. split; [exact Hk|].
  split; [exact ex_insert|].
  exact (insert_then_erase ex_two ex_sigma 0%nat ex_cells_a 1%nat 10%Z _ _
           ex_rep ex_lookup_a Hk ex_insert).
Defined.

Lemma InsertAfter_spec_witness :
  rep ex_two ex_sigma /\
  ex_sigma !! 0%nat = Some (ex_cells_a, Z.of_nat (length ex_cells_a)) /\
  (1 <= length ex_cells_a)%nat /\
  match InsertAfter 0 (mkIter (pos_ptr 0 ex_cells_a 1)) 10%Z ex_two with
  | Ok it m' =>
      exists a,
        it = mkIter (HeapNode a) /\ heap ex_two !! a = None /\
        deref it m' = Ok 10%Z m' /\
        rep m' (<[0%nat := (take 1 ex_cells_a ++ (a, 10%Z) :: drop 1 ex_cells_a,
                            Z.of_nat (length ex_cells_a) + 1)%Z]> ex_sigma) /\
        traverse 0 m' = Ok (take 1 ex_cells_a.*2 ++ 10%Z :: drop 1 ex_cells_a.*2) m' /\
        GetSize 0 m' = Ok (Z.of_nat (length ex_cells_a) + 1)%Z m'
  | BadAlloc m' =>
      heap m' = heap ex_two /\ lists m' = lists ex_two /\ ~ supply 1 ex_two
  | _ => False
  end.
Proof.
  assert (1 <= length ex_cells_a)%nat as Hk by (simpl; lia).
  pose proof (InsertAfter_spec ex_two ex_sigma 0%nat ex_cells_a 1%nat 10%Z
                ex_rep ex_lookup_a Hk) as Hinsert.
  split; [exact ex_rep|]. split; [exact ex_lookup_a|]. split; [exact Hk|].
  exact Hinsert.
Defined.

Lemma assign_spec_witness :
  rep ex_two ex_sigma /\
  ex_sigma !! 0%nat = Some (ex_cells_a, 3%Z) /\
  ex_sigma !! 1%nat = Some (ex_cells_b, Z.of_nat (length ex_cells_b)) /\
  match assign 0 1 ex_two with
  | Ok _ m' =>
      (0%nat = 1%nat -> m' = ex_two) /\
      exists cs,
        cs.*2 = ex_cells_b.*2 /\
        rep m' (<[0%nat := (cs, Z.of_nat (length ex_cells_b))]> ex_sigma) /\
        traverse 0 m' = Ok ex_cells_b.*2 m' /\
        traverse 1 m' = Ok ex_cells_b.*2 m' /\
        GetSize 0 m' = Ok (Z.of_nat (length ex_cells_b)) m' /\
        GetSize 1 m' = Ok (Z.of_nat (length ex_cells_b)) m' /\
        ((forall x : Z, elt_eq x x = true) -> holds (op_eq 0 1) m')
  | BadAlloc m' =>
      0%nat <> 1%nat /\ ~ supply (length ex_cells_b) ex_two /\ rep m' ex_sigma /\
      traverse 0 m' = Ok ex_cells_a.*2 m' /\ GetSize 0 m' = Ok 3%Z m'
  | _ => False
  end.
Proof.
  pose proof (assign_spec ex_two ex_sigma 0%nat 1%nat ex_cells_a 3%Z ex_cells_b
                ex_rep ex_lookup_a ex_lookup_b) as Hassign.
  split; [exact ex_rep|]. split; [exact ex_lookup_a|]. split; [exact ex_lookup_b|].
  exact Hassign.
Defined.

Lemma swap_spec_witness :
  rep ex_two ex_sigma /\
  ex_sigma !! 0%nat = Some (ex_cells_a, 3%Z) /\
  ex_sigma !! 1%nat = Some (ex_cells_b, 2%Z) /\
  exists m',
    swap 0 1 ex_two = Ok tt m' /\ swap_free 0 1 ex_two = Ok tt m' /\
    traverse 0 m' = Ok [1; 5]%Z m' /\ GetSize 0 m' = Ok 2%Z m' /\
    traverse 1 m' = Ok [1; 2; 3]%Z m' /\ GetSize 1 m' = Ok 3%Z m' /\
    heap m' = heap ex_two /\ new_results m' = new_results ex_two /\
    swap 0 1 m' = Ok tt ex_two.
Proof.
  split; [exact ex_rep|]. split; [exact ex_lookup_a|]. split; [exact ex_lookup_b|].
  destruct (swap_spec ex_two ex_sigma 0%nat 1%nat ex_cells_a 3%Z ex_cells_b 2%Z
              ex_rep ex_lookup_a ex_lookup_b)
    as (m' & H1 & H2 & _ & H3 & H4 & H5 & H6 & H7 & H8 & _ & _ & H9 & _).
  exists m'. repeat split; assumption.
Defined.

Lemma arrow_spec_witness :
  node_ (mkIter (HeapNode 16)) <> nullptr /\
  heap ex_two !! 16%Z = Some (mkNode 1%Z (HeapNode 32)) /\
  arrow (mkIter (HeapNode 16)) = value_of (HeapNode 16) /\
  load_pointer (arrow (mkIter (HeapNode 16))) ex_two = Ok 1%Z ex_two /\
  arrow (mkIter nullptr) = null_value.
Proof.
  assert (node_ (mkIter (HeapNode 16)) <> nullptr) as Hn by (simpl; discriminate).
  assert (heap ex_two !! 16%Z = Some (mkNode 1%Z (HeapNode 32))) as Hh
    by (vm_compute; reflexivity).
  destruct (arrow_spec (T := Z) (mkIter (HeapNode 16))) as (_ & Hv & Hr & _).
  destruct (arrow_spec (T := Z) (mkIter nullptr)) as (Hnull & _).
  split; [exact Hn|]. split; [exact Hh|]. split; [exact (proj1 (Hv Hn))|].
  split; [exact (Hr ex_two 16%Z _ eq_refl Hh)|]. exact (Hnull eq_refl).
Defined.

Lemma self_swap_witness :
  lists ex_two !! 0%nat = Some (mkList (mkNode 0%Z (HeapNode 16)) 3) /\
  swap 0 0 ex_two = Ok tt ex_two /\ swap_free 0 0 ex_two = Ok tt ex_two.
Proof.
  assert (lists ex_two !! 0%nat = Some (mkList (mkNode 0%Z (HeapNode 16)) 3)) as Ho
    by (vm_compute; reflexivity).
  split; [exact Ho|]. exact (self_swap ex_two 0%nat _ Ho).
Defined.

(** * Further properties of the member functions

    ** The exact effect of the operations at the front

    These hold in every memory in which the list object is live, whatever
    its chain looks like. *)

Section Front.
Context {T : Type}.
Implicit Types (m : Memory T) (o : SingleLinkedList T) (n : Node T).

Lemma PushFront_exact m l o a rest v :
  lists m !! l = Some o -> new_results m = Some a :: rest -> usable m a ->
  PushFront l v m =
  Ok tt (mkMemory (<[a := mkNode v (next_node (head_ o))]> (heap m))
           (<[l := mkList (mkNode (value (head_ o)) (HeapNode a))
                          (to_size_t (size_ o + 1))]> (lists m))
           rest).
Proof.
  intros Ho Hnr Hu. unfold PushFront, incr_size.
  rewrite (bind_Ok _ _ _ _ _ (get_next_head _ _ _ Ho)).
  assert (new_Node v (next_node (head_ o)) m =
          Ok (HeapNode a)
             (mkMemory (<[a := mkNode v (next_node (head_ o))]> (heap m)) (lists m) rest))
    as Hnew.
  { unfold new_Node. rewrite Hnr. by rewrite decide_True. }
  rewrite (bind_Ok _ _ _ _ _ Hnew).
  erewrite bind_Ok by (apply set_next_head; simpl; exact Ho).
  erewrite bind_Ok by (apply get_size_Ok; simpl; apply lookup_insert_eq).
  erewrite set_size_Ok by (simpl; apply lookup_insert_eq).
  unfold with_lists. simpl. by rewrite insert_insert_eq.
Qed.

Lemma PushFront_throws m l o v :
  lists m !! l = Some o ->
  (forall a rest, new_results m = Some a :: rest -> ~ usable m a) ->
  PushFront l v m = BadAlloc (with_new_results m (tail (new_results m))).
Proof.
  intros Ho Hnr. unfold PushFront.
  rewrite (bind_Ok _ _ _ _ _ (get_next_head _ _ _ Ho)).
  unfold bind at 1. unfold new_Node.
  destruct (new_results m) as [|[a|] rest] eqn:Heq; simpl.
  - destruct m; simpl in *. by subst.
  - by rewrite decide_False by (by eapply Hnr).
  - done.
Qed.

Lemma PopFront_exact m l o a n :
  lists m !! l = Some o -> next_node (head_ o) = HeapNode a -> heap m !! a = Some n ->
  PopFront l m =
  Ok tt (mkMemory (delete a (heap m))
           (<[l := mkList (mkNode (value (head_ o)) (next_node n))
                          (to_size_t (size_ o - 1))]> (lists m))
           (new_results m)).
Proof.
  intros Ho Hnext Hn. unfold PopFront, decr_size.
  pose proof (get_next_head _ _ _ Ho) as Hfirst. rewrite Hnext in Hfirst.
  rewrite (bind_Ok _ _ _ _ _ Hfirst).
  rewrite (bind_Ok _ _ _ _ _ (get_next_node _ _ _ Hn)).
  rewrite (bind_Ok _ _ _ _ _ Hfirst).
  assert (delete_Node (HeapNode a) m = Ok tt (with_heap m (delete a (heap m)))) as Hdel.
  { unfold delete_Node. by rewrite Hn. }
  rewrite (bind_Ok _ _ _ _ _ Hdel).
  erewrite bind_Ok by (apply set_next_head; simpl; exact Ho).
  erewrite bind_Ok by (apply get_size_Ok; simpl; apply lookup_insert_eq).
  erewrite set_size_Ok by (simpl; apply lookup_insert_eq).
  unfold with_lists, with_heap. simpl. by rewrite insert_insert_eq.
Qed.

Lemma to_size_t_incr_decr s :
  (0 <= s < 2 ^ SIZE_WIDTH)%Z -> to_size_t (to_size_t (s + 1) - 1) = s.
Proof.
  intros Hs. rewrite to_size_t_sub_l.
  replace (s + 1 - 1)%Z with s by lia. by apply to_size_t_small.
Qed.

(** X2. [PushFront(v)] directly followed by [PopFront()] gives back every
    node and every list object exactly as they were, the count included
    (also when it was at the largest [size_t]); all that has changed is that
    the allocator has given one answer.  When [PushFront] throws, the same
    holds without the [PopFront]. *)
Theorem PushFront_then_PopFront m l o v :
  lists m !! l = Some o -> (0 <= size_ o < 2 ^ SIZE_WIDTH)%Z ->
  match PushFront l v m with
  | Ok _ m1 =>
      (exists a, begin l m1 = Ok (mkIter (HeapNode a)) m1 /\ heap m !! a = None /\
                 heap m1 !! a = Some (mkNode v (next_node (head_ o)))) /\
      PopFront l m1 = Ok tt (with_new_results m (tail (new_results m)))
  | BadAlloc m1 => m1 = with_new_results m (tail (new_results m))
  | _ => False
  end.
Proof.
  intros Ho Hs.
  destruct (new_results m) as [|[a|] rest] eqn:Hnr.
  - rewrite (PushFront_throws _ _ _ _ Ho) by (intros ? ?; congruence). by rewrite Hnr.
  - destruct (decide (usable m a)) as [Hu|Hu].
    + rewrite (PushFront_exact _ _ _ _ _ _ Ho Hnr Hu). split.
      * exists a. split; [|split; [apply Hu|]].
        -- erewrite begin_Ok by (simpl; apply lookup_insert_eq). done.
        -- simpl. by rewrite lookup_insert_eq.
      * rewrite (PopFront_exact _ l _ a (mkNode v (next_node (head_ o))))
          by (simpl; first [apply lookup_insert_eq | reflexivity]).
        f_equal. apply Memory_eq; cbn [heap lists new_results head_ size_ value next_node
                                       with_new_results].
        -- rewrite delete_insert_eq. apply delete_id, Hu.
        -- rewrite insert_insert_eq, to_size_t_incr_decr by done.
           apply insert_id. rewrite Ho. by destruct o as [[? ?] ?].
        -- done.
    + rewrite (PushFront_throws _ _ _ _ Ho).
      * by rewrite Hnr.
      * intros a' rest' Heq. rewrite Hnr in Heq. by injection Heq as <- _.
  - rewrite (PushFront_throws _ _ _ _ Ho) by (intros ? ?; congruence). by rewrite Hnr.
Qed.

(** X6. [EraseAfter(before_begin())] is [PopFront()] followed by
    [begin()]: the two do the same to the memory in every case, undefined
    behaviour on an empty list included, and the iterator returned is the new
    [begin()]. *)
Theorem EraseAfter_before_begin l m :
  (let* p := before_begin l in EraseAfter l p) m =
  (let* _ := PopFront l in begin l) m.
Proof.
  unfold before_begin, EraseAfter, PopFront, begin, bind, ret. simpl.
  repeat case_match; congruence.
Qed.

(** X7. [InsertAfter(before_begin(), v)] is [PushFront(v)] followed by
    [begin()]: the same memory results, the same exception is thrown, and
    the iterator returned is the new [begin()]. *)
Theorem InsertAfter_before_begin l v m :
  (let* p := before_begin l in InsertAfter l p v) m =
  (let* _ := PushFront l v in begin l) m.
Proof.
  unfold before_begin, InsertAfter, PushFront, begin, bind, ret. simpl.
  repeat case_match; congruence.
Qed.

End Front.

(** ** What a memory access leaves unchanged *)

Section Effects.
Context {T : Type}.
Implicit Types (m : Memory T) (p q : ptr).

Lemma bind_inv {A B} (c : M T A) (k : A -> M T B) m b m' :
  bind c k m = Ok b m' -> exists a m1, c m = Ok a m1 /\ k a m1 = Ok b m'.
Proof. unfold bind. destruct (c m) as [a m1| | |]; try done. eauto. Qed.

Lemma bind_throws {A B} (c : M T A) (k : A -> M T B) m m' :
  bind c k m = BadAlloc m' ->
  c m = BadAlloc m' \/ exists a m1, c m = Ok a m1 /\ k a m1 = BadAlloc m'.
Proof. unfold bind. destruct (c m) as [a m1|m1| |]; try done; [eauto|]. left. congruence. Qed.

Lemma load_inv p m n m' : load p m = Ok n m' -> m' = m.
Proof. unfold load. repeat case_match; congruence. Qed.

Lemma get_next_inv p m q m' : get_next p m = Ok q m' -> m' = m.
Proof.
  unfold get_next. intros (n & m1 & Hl & Hr)%bind_inv.
  apply load_inv in Hl. unfold ret in Hr. congruence.
Qed.

Lemma get_value_inv p m (v : T) m' : get_value p m = Ok v m' -> m' = m.
Proof.
  unfold get_value. intros (n & m1 & Hl & Hr)%bind_inv.
  apply load_inv in Hl. unfold ret in Hr. congruence.
Qed.

Lemma get_size_inv l m s m' : get_size l m = Ok s m' -> m' = m.
Proof. unfold get_size. case_match; congruence. Qed.

Lemma set_size_inv l s m m' :
  set_size l s m = Ok tt m' ->
  heap m' = heap m /\ new_results m' = new_results m /\
  (forall l', l' <> l -> lists m' !! l' = lists m !! l').
Proof.
  unfold set_size. destruct (lists m !! l); [|done]. intros [= <-].
  split; [done|]. split; [done|]. intros l' Hne. simpl. by rewrite lookup_insert_ne.
Qed.

Lemma incr_size_inv l m m' :
  incr_size l m = Ok tt m' ->
  heap m' = heap m /\ new_results m' = new_results m /\
  (forall l', l' <> l -> lists m' !! l' = lists m !! l').
Proof.
  unfold incr_size. intros (s & m1 & Hg & Hs)%bind_inv.
  apply get_size_inv in Hg as ->. by apply set_size_inv in Hs.
Qed.

Lemma decr_size_inv l m m' :
  decr_size l m = Ok tt m' ->
  heap m' = heap m /\ new_results m' = new_results m /\
  (forall l', l' <> l -> lists m' !! l' = lists m !! l').
Proof.
  unfold decr_size. intros (s & m1 & Hg & Hs)%bind_inv.
  apply get_size_inv in Hg as ->. by apply set_size_inv in Hs.
Qed.

Lemma set_next_inv p q m m' :
  set_next p q m = Ok tt m' ->
  new_results m' = new_results m /\ dom (heap m') = dom (heap m) /\
  (forall a, p <> HeapNode a -> heap m' !! a = heap m !! a) /\
  (forall l, p <> HeadOf l -> lists m' !! l = lists m !! l).
Proof.
  unfold set_next. destruct p as [|a|l]; [done| |].
  - destruct (heap m !! a) as [n|] eqn:Hn; [|done]. intros [= <-]. simpl.
    split; [done|]. split; [|split; [|done]].
    + apply dom_insert_lookup_L. by rewrite Hn.
    + intros b Hne. rewrite lookup_insert_ne; [done|congruence].
  - destruct (lists m !! l) as [o|]; [|done]. intros [= <-]. simpl.
    split; [done|]. split; [done|]. split; [done|].
    intros l' Hne. rewrite lookup_insert_ne; [done|congruence].
Qed.

Lemma delete_Node_inv a m m' :
  delete_Node (HeapNode a) m = Ok tt m' -> m' = with_heap m (delete a (heap m)).
Proof. unfold delete_Node. destruct (heap m !! a); congruence. Qed.

Lemma new_Node_inv (v : T) q m p m' :
  new_Node v q m = Ok p m' ->
  exists a, p = HeapNode a /\ heap m !! a = None /\
            heap m' = <[a := mkNode v q]> (heap m) /\ lists m' = lists m.
Proof.
  unfold new_Node. destruct (new_results m) as [|[a|] rest]; try done.
  destruct (decide (usable m a)) as [[_ Hu]|]; [|done]. intros [= <- <-]. eauto.
Qed.

Lemma new_Node_throws (v : T) q m m' :
  new_Node v q m = BadAlloc m' -> heap m' = heap m /\ lists m' = lists m.
Proof.
  unfold new_Node. destruct (new_results m) as [|[a|] rest]; try (by intros [= <-]).
  destruct (decide (usable m a)); [done|]. by intros [= <-].
Qed.

End Effects.

(** ** The operations at the front on represented lists *)

Section FrontSpec.
Context {T : Type}.
Implicit Types (m : Memory T) (sigma : gmap nat (list (Z * T) * Z)).
Implicit Types (cs : list (Z * T)).

(** An iterator to a node of a represented list reads the node's value and
    steps to the node's successor. *)
Lemma rep_deref m sigma l cs s j c :
  rep m sigma -> sigma !! l = Some (cs, s) -> cs !! j = Some c ->
  deref (mkIter (HeapNode c.1)) m = Ok c.2 m /\
  pre_incr (mkIter (HeapNode c.1)) m = Ok (mkIter (first_ptr (drop (S j) cs))) m.
Proof.
  intros Hrep Hl Hj.
  destruct (rep_lookup _ _ _ _ _ Hrep Hl) as (o & _ & _ & _ & Hlinked & _).
  pose proof (linked_lookup _ _ _ _ Hlinked Hj) as Hc. split.
  - unfold deref. simpl. by rewrite (get_value_node _ _ _ Hc).
  - unfold pre_incr. simpl. by rewrite (bind_Ok _ _ _ _ _ (get_next_node _ _ _ Hc)).
Qed.

Lemma rep_begin m sigma l cs s :
  rep m sigma -> sigma !! l = Some (cs, s) -> begin l m = Ok (mkIter (first_ptr cs)) m.
Proof.
  intros Hrep Hl.
  destruct (rep_lookup _ _ _ _ _ Hrep Hl) as (o & Ho & _ & Hnext & _).
  by rewrite (begin_Ok _ _ _ Ho), Hnext.
Qed.

Lemma dangling_deref m a : heap m !! a = None -> deref (mkIter (HeapNode a)) m = UB.
Proof. intros Ha. unfold deref, get_value, bind, load. simpl. by rewrite Ha. Qed.

(** X1. [PushFront(v)] on a list with the elements [V] either returns, and
    then the list reads [v :: V], [begin()] refers to one new node holding
    [v], the count is one larger and the other lists are as before; or the
    allocator has no node to give, [std::bad_alloc] is thrown and the nodes
    and list objects are exactly as they were. *)
Theorem PushFront_spec m sigma l cs s v :
  rep m sigma -> sigma !! l = Some (cs, s) ->
  match PushFront l v m with
  | Ok _ m' =>
      exists a,
        heap m !! a = None /\
        begin l m' = Ok (mkIter (HeapNode a)) m' /\
        deref (mkIter (HeapNode a)) m' = Ok v m' /\
        rep m' (<[l := ((a, v) :: cs, to_size_t (s + 1))]> sigma) /\
        traverse l m' = Ok (v :: cs.*2) m' /\
        GetSize l m' = Ok (to_size_t (s + 1)) m'
  | BadAlloc m' => heap m' = heap m /\ lists m' = lists m /\ ~ supply 1 m
  | _ => False
  end.
Proof.
  intros Hrep Hl. pose proof (PushFront_rep _ _ _ _ _ v Hrep Hl) as Hpush.
  destruct (PushFront l v m) as [[] m'|m'| |]; try done.
  destruct Hpush as (a & Hfresh & Hrep' & _). exists a.
  pose proof (lookup_insert_eq sigma l ((a, v) :: cs, to_size_t (s + 1))) as Hl'.
  split; [done|]. split; [exact (rep_begin _ _ _ _ _ Hrep' Hl')|].
  split; [exact (proj1 (rep_deref _ _ _ _ _ 0%nat (a, v) Hrep' Hl' eq_refl))|].
  split; [done|]. exact (rep_traverse _ _ _ _ _ Hrep' Hl').
Qed.

(** X3. [PopFront()] on an empty list is undefined behaviour.  On a list
    with a first element it returns: the list reads the remaining elements
    and the count is one smaller; exactly the first node is freed and no
    other node is written; no other list object is touched; an iterator that
    referred to the removed element dangles. *)
Theorem PopFront_spec m sigma l cs s :
  rep m sigma -> sigma !! l = Some (cs, s) ->
  match cs with
  | [] => PopFront l m = UB
  | c :: cs' =>
      exists m',
        PopFront l m = Ok tt m' /\
        rep m' (<[l := (cs', to_size_t (s - 1))]> sigma) /\
        traverse l m' = Ok cs'.*2 m' /\
        GetSize l m' = Ok (to_size_t (s - 1)) m' /\
        heap m' = delete c.1 (heap m) /\
        new_results m' = new_results m /\
        (forall l', l' <> l -> lists m' !! l' = lists m !! l') /\
        deref (mkIter (HeapNode c.1)) m' = UB
  end.
Proof.
  intros Hrep Hl. destruct cs as [|c cs'].
  - destruct (rep_lookup _ _ _ _ _ Hrep Hl) as (o & Ho & _ & Hnext & _).
    unfold PopFront. rewrite (bind_Ok _ _ _ _ _ (get_next_head _ _ _ Ho)).
    by rewrite Hnext.
  - destruct (PopFront_rep _ _ _ _ _ _ Hrep Hl) as (m' & Hpop & Hrep' & _).
    destruct (rep_lookup _ _ _ _ _ Hrep Hl) as (o & Ho & _ & Hnext & [Hc _] & _).
    pose proof (PopFront_exact _ _ _ _ _ Ho Hnext Hc) as Hex.
    rewrite Hpop in Hex. injection Hex as Hm'.
    exists m'. split; [done|]. split; [done|].
    pose proof (rep_traverse _ _ _ _ _ Hrep' (lookup_insert_eq _ _ _)) as [Htr Hsz].
    split; [done|]. split; [done|]. rewrite Hm'. simpl.
    split; [done|]. split; [done|]. split.
    + intros l' Hne. by rewrite lookup_insert_ne.
    + apply dangling_deref. simpl. apply lookup_delete_eq.
Qed.

End FrontSpec.

(** ** Erasing and inserting in the middle *)

Section Middle.
Context {T : Type}.
Implicit Types (m : Memory T) (sigma : gmap nat (list (Z * T) * Z)).
Implicit Types (cs : list (Z * T)).

Lemma drop_lookup_cons cs k (c : Z * T) :
  cs !! k = Some c -> drop k cs = c :: drop (S k) cs.
Proof.
  revert k. induction cs as [|c0 cs IH]; intros [|k] Hk; simpl in *; try done.
  - by injection Hk as ->.
  - by apply IH.
Qed.

Lemma unsplice_lookup cs k j (c : Z * T) :
  j <> k -> cs !! j = Some c ->
  exists j', (take k cs ++ drop (S k) cs) !! j' = Some c.
Proof.
  intros Hne Hj. pose proof (lookup_lt_Some _ _ _ Hj) as Hlt.
  destruct (decide (j < k)%nat) as [Hjk|Hjk].
  - exists j. rewrite lookup_app_l by (rewrite length_take; lia).
    by rewrite lookup_take_lt.
  - exists (j - 1)%nat. rewrite lookup_app_r by (rewrite length_take; lia).
    rewrite length_take, lookup_drop. rewrite <- Hj. f_equal. lia.
Qed.

(** The heap after [EraseAfter]: the erased node is gone and nothing else
    is allocated or freed. *)
Lemma EraseAfter_heap m sigma l cs s k c it m' :
  rep m sigma -> sigma !! l = Some (cs, s) -> cs !! k = Some c ->
  EraseAfter l (mkIter (pos_ptr l cs k)) m = Ok it m' ->
  dom (heap m') = dom (heap m) ∖ {[c.1]} /\ new_results m' = new_results m /\
  (forall l', l' <> l -> lists m' !! l' = lists m !! l').
Proof.
  intros Hrep Hl Hk Hrun. pose proof (lookup_lt_Some _ _ _ Hk) as Hlt.
  pose proof (rep_get_next _ _ l _ s k Hrep Hl ltac:(lia)) as Hvictim.
  rewrite (drop_lookup_cons _ _ _ Hk) in Hvictim. simpl in Hvictim.
  unfold EraseAfter in Hrun. simpl in Hrun.
  apply bind_inv in Hrun as (victim & m1 & H1 & Hrun).
  pose proof (get_next_inv _ _ _ _ H1) as ->.
  apply bind_inv in Hrun as (tmp & m2 & H2 & Hrun).
  pose proof (get_next_inv _ _ _ _ H2) as ->.
  apply bind_inv in Hrun as (victim' & m3 & H3 & Hrun).
  pose proof (get_next_inv _ _ _ _ H3) as ->.
  rewrite Hvictim in H3. injection H3 as <-.
  apply bind_inv in Hrun as ([] & m4 & H4 & Hrun).
  apply delete_Node_inv in H4 as ->.
  apply bind_inv in Hrun as ([] & m5 & H5 & Hrun).
  apply set_next_inv in H5 as (Hnr5 & Hd5 & _ & Hls5).
  apply bind_inv in Hrun as ([] & m6 & H6 & Hrun).
  apply decr_size_inv in H6 as (Hh6 & Hnr6 & Hls6).
  apply bind_inv in Hrun as (r & m7 & H7 & Hrun).
  pose proof (get_next_inv _ _ _ _ H7) as ->.
  unfold ret in Hrun. injection Hrun as _ <-.
  split; [|split].
  - rewrite Hh6, Hd5. simpl. apply dom_delete_L.
  - by rewrite Hnr6, Hnr5.
  - intros l' Hne. rewrite (Hls6 l' Hne).
    destruct k as [|j]; simpl in Hls5.
    + rewrite Hls5 by congruence. done.
    + destruct (cs !! j); by rewrite Hls5.
Qed.

(** X4. [EraseAfter(pos)] where [pos] is the last position of the list, or
    [end()], is undefined behaviour.  Where an element follows [pos] the
    call returns an iterator to the element after the erased one, or [end()]
    when there is none; the list reads as before without that element and
    the count is one smaller; exactly the erased node is freed; an iterator
    to the erased element dangles and the iterators to all other elements
    still read their values. *)
Theorem EraseAfter_spec m sigma l cs s k :
  rep m sigma -> sigma !! l = Some (cs, s) ->
  match cs !! k with
  | None => EraseAfter l (mkIter (pos_ptr l cs k)) m = UB
  | Some c =>
      exists m',
        EraseAfter l (mkIter (pos_ptr l cs k)) m =
          Ok (mkIter (first_ptr (drop (S k) cs))) m' /\
        (S k = length cs -> end_ l m' = Ok (mkIter (first_ptr (drop (S k) cs))) m') /\
        (forall c', cs !! S k = Some c' ->
           first_ptr (drop (S k) cs) = HeapNode c'.1 /\
           deref (mkIter (HeapNode c'.1)) m' = Ok c'.2 m') /\
        rep m' (<[l := (take k cs ++ drop (S k) cs, to_size_t (s - 1))]> sigma) /\
        traverse l m' = Ok (take k cs.*2 ++ drop (S k) cs.*2) m' /\
        GetSize l m' = Ok (to_size_t (s - 1)) m' /\
        dom (heap m') = dom (heap m) ∖ {[c.1]} /\
        deref (mkIter (HeapNode c.1)) m' = UB /\
        (forall j c', j <> k -> cs !! j = Some c' ->
           deref (mkIter (HeapNode c'.1)) m' = Ok c'.2 m')
  end.
Proof.
  intros Hrep Hl. destruct (cs !! k) as [c|] eqn:Hk.
  - destruct (EraseAfter_rep _ _ _ _ _ _ _ Hrep Hl Hk) as (m' & Hrun & Hrep' & _).
    destruct (EraseAfter_heap _ _ _ _ _ _ _ _ _ Hrep Hl Hk Hrun) as (Hdom & _ & _).
    pose proof (lookup_insert_eq sigma l
                  (take k cs ++ drop (S k) cs, to_size_t (s - 1))) as Hl'.
    assert (forall j c', j <> k -> cs !! j = Some c' ->
              deref (mkIter (HeapNode c'.1)) m' = Ok c'.2 m') as Hkeep.
    { intros j c' Hne Hj. destruct (unsplice_lookup _ _ _ _ Hne Hj) as [j' Hj'].
      exact (proj1 (rep_deref _ _ _ _ _ _ _ Hrep' Hl' Hj')). }
    exists m'. split; [done|]. split; [|split; [|split; [done|]]].
    + intros Hlast. rewrite drop_ge by lia. done.
    + intros c' Hc'. rewrite (drop_lookup_cons _ _ _ Hc'). split; [done|].
      apply (Hkeep (S k)); [lia|done].
    + pose proof (rep_traverse _ _ _ _ _ Hrep' Hl') as [Htr Hsz].
      rewrite fmap_app, fmap_take, fmap_drop in Htr.
      split; [done|]. split; [done|]. split; [done|]. split; [|done].
      apply dangling_deref, not_elem_of_dom. rewrite Hdom.
      intros [_ Hn]%elem_of_difference. apply Hn. by apply elem_of_singleton.
  - apply lookup_ge_None in Hk.
    destruct (decide (k = length cs)) as [->|Hne].
    + exact (EraseAfter_last _ _ _ _ _ Hrep Hl).
    + destruct k as [|j]; [simpl in Hk; lia|].
      unfold pos_ptr. rewrite (proj2 (lookup_ge_None cs j)) by lia. done.
Qed.

(** X5. [InsertAfter] invalidates no iterator: after it has returned, an
    iterator to any element of any list still reads the value it read
    before, and [++] takes it to the element it went to before, except from
    the insert position, where it now goes to the new node. *)
Theorem InsertAfter_keeps_iterators m sigma l cs s k v it m' :
  rep m sigma -> sigma !! l = Some (cs, s) -> (k <= length cs)%nat ->
  InsertAfter l (mkIter (pos_ptr l cs k)) v m = Ok it m' ->
  forall l' cs' s' j c, sigma !! l' = Some (cs', s') -> cs' !! j = Some c ->
    deref (mkIter (HeapNode c.1)) m = Ok c.2 m /\
    deref (mkIter (HeapNode c.1)) m' = Ok c.2 m' /\
    pre_incr (mkIter (HeapNode c.1)) m = Ok (mkIter (first_ptr (drop (S j) cs'))) m /\
    pre_incr (mkIter (HeapNode c.1)) m' =
      if decide (l' = l /\ S j = k) then Ok it m'
      else Ok (mkIter (first_ptr (drop (S j) cs'))) m'.
Proof.
  intros Hrep Hl Hk Hrun l' cs' s' j c Hl' Hj.
  destruct (rep_deref _ _ _ _ _ _ _ Hrep Hl' Hj) as [Hd Hi].
  split; [done|].
  enough (deref (mkIter (HeapNode c.1)) m' = Ok c.2 m' /\
          pre_incr (mkIter (HeapNode c.1)) m' =
            if decide (l' = l /\ S j = k) then Ok it m'
            else Ok (mkIter (first_ptr (drop (S j) cs'))) m') as [? ?] by done.
  clear Hd Hi.
  pose proof (InsertAfter_rep _ _ _ _ _ k v Hrep Hl Hk) as Hins.
  rewrite Hrun in Hins. destruct Hins as (a & -> & _ & Hrep' & _).
  set (new := take k cs ++ (a, v) :: drop k cs) in *.
  pose proof (lookup_insert_eq sigma l (new, to_size_t (s + 1))) as Hnew.
  destruct (decide (l' = l)) as [->|Hne].
  - rewrite Hl in Hl'. injection Hl' as <- <-.
    pose proof (lookup_lt_Some _ _ _ Hj) as Hlt.
    destruct (decide (j < k)%nat) as [Hjk|Hjk].
    + assert (new !! j = Some c) as Hj'.
      { unfold new. rewrite lookup_app_l by (rewrite length_take; lia).
        by rewrite lookup_take_lt. }
      destruct (rep_deref _ _ _ _ _ _ _ Hrep' Hnew Hj') as [Hd' Hi'].
      split; [done|]. rewrite Hi'. destruct (decide (S j = k)) as [Heq|Hneq].
      * rewrite decide_True by done. subst k. unfold new.
        by rewrite drop_prefix by lia.
      * rewrite decide_False by tauto. do 2 f_equal. apply first_ptr_lookup.
        rewrite !lookup_drop. unfold new.
        rewrite lookup_app_l by (rewrite length_take; lia).
        rewrite lookup_take_lt by lia. done.
    + assert (new !! S j = Some c) as Hj'.
      { unfold new. rewrite lookup_app_r by (rewrite length_take; lia).
        rewrite length_take. replace (S j - k `min` length cs)%nat with (S (j - k)) by lia.
        simpl. rewrite lookup_drop. rewrite <- Hj. f_equal. lia. }
      destruct (rep_deref _ _ _ _ _ _ _ Hrep' Hnew Hj') as [Hd' Hi'].
      split; [done|]. rewrite Hi'. rewrite decide_False by lia.
      do 2 f_equal. apply first_ptr_lookup. rewrite !lookup_drop. unfold new.
      rewrite lookup_app_r by (rewrite length_take; lia).
      rewrite length_take.
      replace (S (S j) + 0 - k `min` length cs)%nat with (S (S j - k)) by lia.
      simpl. rewrite lookup_drop. f_equal. lia.
  - assert (<[l := (new, to_size_t (s + 1))]> sigma !! l' = Some (cs', s')) as Hl''.
    { by rewrite lookup_insert_ne. }
    destruct (rep_deref _ _ _ _ _ _ _ Hrep' Hl'' Hj) as [Hd' Hi'].
    split; [done|]. by rewrite decide_False by tauto.
Qed.

End Middle.

(** ** Clearing and destroying a list *)

Section Release.
Context {T : Type}.
Implicit Types (m : Memory T) (sigma : gmap nat (list (Z * T) * Z)).
Implicit Types (cs : list (Z * T)).

(** The heap after the loop of [Clear]: the nodes of the list are gone and
    every other node is as it was. *)
Lemma Clear_loop_heap fuel m sigma l cs s m' :
  rep m sigma -> sigma !! l = Some (cs, s) ->
  Clear_loop fuel l m = Ok tt m' ->
  (forall a, heap m' !! a = if decide (a ∈ cs.*1) then None else heap m !! a) /\
  new_results m' = new_results m /\
  (forall l', l' <> l -> lists m' !! l' = lists m !! l').
Proof.
  revert m sigma cs. induction fuel as [|fuel IH]; intros m sigma cs Hrep Hl Hrun;
    [done|].
  simpl in Hrun.
  pose proof (rep_get_next _ _ l _ s 0%nat Hrep Hl (Nat.le_0_l _)) as Hfirst.
  simpl in Hfirst. rewrite drop_0 in Hfirst.
  rewrite (bind_Ok _ _ _ _ _ Hfirst) in Hrun.
  destruct cs as [|c cs]; simpl in Hrun.
  - unfold ret in Hrun. injection Hrun as <-.
    split; [|done]. intros a. rewrite decide_False; [done|]. by intros ?%elem_of_nil.
  - pose proof (rep_get_next _ _ l (c :: cs) s 1%nat Hrep Hl) as Hsecond.
    simpl in Hsecond. rewrite drop_0 in Hsecond.
    rewrite (bind_Ok _ _ _ _ _ (Hsecond ltac:(lia))) in Hrun.
    simpl in Hfirst. rewrite (bind_Ok _ _ _ _ _ Hfirst) in Hrun.
    destruct (rep_erase _ _ l (c :: cs) s 0%nat c Hrep Hl eq_refl)
      as (m1 & Her & Hrep1 & _ & _).
    simpl in Her. rewrite drop_0 in Her. simpl in Hrep1. rewrite drop_0 in Hrep1.
    rewrite (bind_Ok2 _ _ _ _ _ _ Her) in Hrun.
    apply bind_inv in Her as ([] & m0 & Hdel & Hset).
    apply delete_Node_inv in Hdel as ->.
    apply set_next_inv in Hset as (Hnr1 & _ & Hh1 & Hls1).
    destruct (IH m1 _ cs Hrep1 (lookup_insert_eq _ _ _) Hrun) as (Hh & Hnr & Hls).
    split; [|split].
    + intros a. rewrite Hh, Hh1 by done. cbn [heap with_heap].
      destruct (decide (a ∈ cs.*1)) as [Hin|Hin];
        destruct (decide (a ∈ (c :: cs).*1)) as [Hin'|Hin']; try done.
      * exfalso. apply Hin'. rewrite fmap_cons. by apply list_elem_of_further.
      * rewrite fmap_cons in Hin'.
        apply elem_of_cons in Hin' as [->|?]; [apply lookup_delete_eq|done].
      * apply lookup_delete_ne. intros Heq. apply Hin'. rewrite fmap_cons, Heq.
        apply list_elem_of_here.
    + by rewrite Hnr, Hnr1.
    + intros l' Hne. rewrite (Hls l' Hne). rewrite Hls1 by congruence. done.
Qed.

Lemma Clear_heap m sigma l cs s m' :
  rep m sigma -> sigma !! l = Some (cs, s) -> Clear l m = Ok tt m' ->
  (forall a, heap m' !! a = if decide (a ∈ cs.*1) then None else heap m !! a) /\
  new_results m' = new_results m /\
  (forall l', l' <> l -> lists m' !! l' = lists m !! l').
Proof.
  intros Hrep Hl Hrun. unfold Clear, chain_bound in Hrun. unfold bind at 1 in Hrun.
  apply bind_inv in Hrun as ([] & m1 & Hloop & Hset).
  destruct (Clear_loop_heap _ _ _ _ _ _ _ Hrep Hl Hloop) as (Hh & Hnr & Hls).
  apply set_size_inv in Hset as (Hh2 & Hnr2 & Hls2).
  split; [|split].
  - intros a. by rewrite Hh2.
  - by rewrite Hnr2.
  - intros l' Hne. by rewrite Hls2, Hls.
Qed.

(** [Clear()] on a list that is empty and has the count zero changes
    nothing at all. *)
Lemma Clear_empty m sigma l :
  rep m sigma -> sigma !! l = Some ([], 0%Z) -> Clear l m = Ok tt m.
Proof.
  intros Hrep Hl.
  destruct (rep_lookup _ _ _ _ _ Hrep Hl) as (o & Ho & Hs & Hnext & _).
  unfold Clear, chain_bound. unfold bind at 1.
  assert (Clear_loop (S (size (heap m))) l m = Ok tt m) as Hloop.
  { simpl. rewrite (bind_Ok _ _ _ _ _ (get_next_head _ _ _ Ho)). by rewrite Hnext. }
  rewrite (bind_Ok _ _ _ _ _ Hloop), (set_size_Ok _ _ _ _ Ho). f_equal.
  apply Memory_eq; simpl; try done.
  apply insert_id. rewrite Ho. destruct o as [hd sz]. simpl in *. by subst.
Qed.

(** X8. [Clear()] always returns and never throws.  Afterwards the list is
    empty: [begin()] is [end()], the count is zero and [IsEmpty()] is true.
    The nodes of the list, and no others, have been freed; no other node
    and no other list object has been written; and a second [Clear()]
    changes nothing. *)
Theorem Clear_spec m sigma l cs s :
  rep m sigma -> sigma !! l = Some (cs, s) ->
  exists m',
    Clear l m = Ok tt m' /\
    rep m' (<[l := ([], 0%Z)]> sigma) /\
    traverse l m' = Ok [] m' /\
    GetSize l m' = Ok 0%Z m' /\
    IsEmpty l m' = Ok true m' /\
    begin l m' = end_ l m' /\
    (forall a, heap m' !! a = if decide (a ∈ cs.*1) then None else heap m !! a) /\
    new_results m' = new_results m /\
    (forall l', l' <> l -> lists m' !! l' = lists m !! l') /\
    Clear l m' = Ok tt m'.
Proof.
  intros Hrep Hl.
  destruct (Clear_rep _ _ _ _ _ Hrep Hl) as (m' & Hrun & Hrep' & _).
  destruct (Clear_heap _ _ _ _ _ _ Hrep Hl Hrun) as (Hh & Hnr & Hls).
  pose proof (lookup_insert_eq sigma l (@nil (Z * T), 0%Z)) as Hl'.
  pose proof (rep_traverse _ _ _ _ _ Hrep' Hl') as [Htr Hsz].
  exists m'. split; [done|]. split; [done|]. split; [done|]. split; [done|].
  split; [|split; [|split; [done|split; [done|split; [done|]]]]].
  - unfold IsEmpty. unfold GetSize in Hsz. by rewrite (bind_Ok _ _ _ _ _ Hsz).
  - by rewrite (rep_begin _ _ _ _ _ Hrep' Hl').
  - exact (Clear_empty _ _ _ Hrep' Hl').
Qed.

Lemma destructor_exact m sigma l cs s :
  rep m sigma -> sigma !! l = Some (cs, s) ->
  exists m',
    destructor l m = Ok tt m' /\
    rep m' (delete l sigma) /\
    (forall a, heap m' !! a = if decide (a ∈ cs.*1) then None else heap m !! a) /\
    lists m' = delete l (lists m) /\
    new_results m' = new_results m.
Proof.
  intros Hrep Hl.
  destruct (destructor_rep _ _ _ _ _ Hrep Hl) as (m' & Hrun & Hrep' & _).
  pose proof Hrun as Hrun'. unfold destructor in Hrun'.
  apply bind_inv in Hrun' as ([] & m1 & Hclear & Hrel).
  destruct (Clear_heap _ _ _ _ _ _ Hrep Hl Hclear) as (Hh & Hnr & Hls).
  unfold release in Hrel. destruct (lists m1 !! l) as [o1|] eqn:Ho1; [|done].
  injection Hrel as <-.
  assert (delete l (lists m1) = delete l (lists m)) as Hlists.
  { apply map_eq. intros l'. destruct (decide (l' = l)) as [->|Hne].
    - by rewrite !lookup_delete_eq.
    - rewrite !lookup_delete_ne by done. by apply Hls. }
  exists (with_lists m1 (delete l (lists m1))).
  split; [done|]. split; [done|]. split; [done|]. split; done.
Qed.

(** X9. The destructor always returns and never throws: the nodes of the
    list, and no others, are freed, the list object is gone and no other
    list object has been written.  Using the list afterwards is undefined
    behaviour. *)
Theorem destructor_spec m sigma l cs s :
  rep m sigma -> sigma !! l = Some (cs, s) ->
  exists m',
    destructor l m = Ok tt m' /\
    rep m' (delete l sigma) /\
    (forall a, heap m' !! a = if decide (a ∈ cs.*1) then None else heap m !! a) /\
    lists m' = delete l (lists m) /\
    new_results m' = new_results m /\
    GetSize l m' = UB /\ begin l m' = UB.
Proof.
  intros Hrep Hl.
  destruct (destructor_exact _ _ _ _ _ Hrep Hl) as (m' & Hrun & Hrep' & Hh & Hls & Hnr).
  exists m'. split; [done|]. split; [done|]. split; [done|]. split; [done|].
  split; [done|].
  unfold GetSize, get_size, begin, get_next, bind, load. simpl.
  by rewrite Hls, lookup_delete_eq.
Qed.

End Release.

(** ** Building a chain: [Init] in full *)

Section Building.
Context {T : Type}.
Implicit Types (m : Memory T) (sigma : gmap nat (list (Z * T) * Z)).
Implicit Types (cs : list (Z * T)).

Lemma pos_ptr_ne_head l l' cs k : l' <> l -> pos_ptr l cs k <> HeadOf l'.
Proof.
  intros Hne. destruct k as [|j]; simpl; [congruence|]. by destruct (cs !! j).
Qed.

Lemma Init_loop_exact {It} `{@Range T It} fuel (h0 : gmap Z (Node T)) m sigma
    tmp cs0 s (it last : It) V :
  rep m sigma -> sigma !! tmp = Some (cs0, s) ->
  (0 <= s < 2 ^ SIZE_WIDTH)%Z ->
  yields (fun m' => h0 ⊆ heap m') last it V ->
  h0 ⊆ heap m -> (forall b, b ∈ cs0.*1 -> h0 !! b = None) ->
  (length V < fuel)%nat ->
  match Init_loop fuel tmp (pos_ptr tmp cs0 (length cs0)) it last m with
  | Ok _ m' =>
      exists cs1, cs1.*2 = V /\
        rep m' (<[tmp := (cs0 ++ cs1, to_size_t (s + Z.of_nat (length V)))]> sigma) /\
        built m m' tmp cs0 cs1
  | BadAlloc m' =>
      exists cs1 j, (j < length V)%nat /\ cs1.*2 = take j V /\
        rep m' (<[tmp := (cs0 ++ cs1, to_size_t (s + Z.of_nat j + 1))]> sigma) /\
        built m m' tmp cs0 cs1
  | _ => False
  end.
Proof.
  revert m sigma cs0 s it V.
  induction fuel as [|fuel IH]; intros m sigma cs0 s it V Hrep Hl Hs Hy Hsub Hnew Hf;
    [lia|].
  simpl. destruct Hy as [it Hne|it it' v V Hne Hderef Hincr Hy].
  - rewrite Hne. exists []. split; [done|]. rewrite app_nil_r. simpl.
    rewrite Z.add_0_r, to_size_t_small by done.
    rewrite insert_id by done. split; [done|].
    split; [by intros a ?%elem_of_nil|]. done.
  - rewrite Hne.
    destruct (rep_incr_size _ _ _ _ _ Hrep Hl) as (m1 & Hinc & Hrep1 & Hh1 & Hnr1 & Hdom1).
    rewrite (bind_Ok _ _ _ _ _ Hinc).
    apply incr_size_inv in Hinc as (_ & _ & Hls1).
    rewrite (bind_Ok _ _ _ _ _ (Hderef m1 ltac:(by rewrite Hh1))).
    unfold bind at 1.
    pose proof (rep_new_Node m1 _ v nullptr Hrep1) as Hnode.
    destruct (new_Node v nullptr m1) as [p m2|m2| |]; try done.
    2:{ destruct Hnode as (Hh2 & Hls2 & Hno). exists [], 0%nat.
        split; [simpl; lia|]. split; [done|]. rewrite app_nil_r, Z.add_0_r. split.
        - eapply rep_frame; [exact Hrep1| |]; intros; congruence.
        - split; [by intros a ?%elem_of_nil|]. split; [intros; congruence|].
          intros l' Hne'. rewrite Hls2. by apply Hls1. }
    destruct Hnode as (a & -> & Hr & Hfresh & Hh2 & Hls2 & Hrep2 & Hnr2).
    rewrite Hh1 in Hfresh.
    destruct (rep_link m2 _ tmp cs0 (to_size_t (s + 1)) (length cs0) a v Hrep2
                (lookup_insert_eq _ _ _)) as
      (m3 & Hset & Hrep3 & Hnr3 & Hdom3 & Hdh3 & Hfr3); try done.
    { rewrite Hh2, lookup_insert_eq. by rewrite drop_all. }
    { intros l' cs' s' Hl'. eapply rep_fresh; [exact Hrep1|exact Hl'|].
      by rewrite Hh1. }
    rewrite (bind_Ok _ _ _ _ _ Hset).
    apply set_next_inv in Hset as (_ & _ & _ & Hls3).
    rewrite firstn_all, drop_all, insert_insert_eq in Hrep3.
    pose proof (rep_get_next m3 _ tmp (cs0 ++ [(a, v)]) _ (length cs0) Hrep3
                  (lookup_insert_eq _ _ _)) as Hnext.
    rewrite pos_ptr_app, drop_app_length in Hnext by done.
    rewrite (bind_Ok _ _ _ _ _ (Hnext ltac:(rewrite length_app; lia))).
    assert (h0 ⊆ heap m3) as Hsub3.
    { apply map_subseteq_spec. intros b n Hb.
      pose proof (lookup_weaken _ _ _ _ Hb Hsub) as Hbm.
      rewrite Hfr3, Hh2, Hh1.
      - rewrite lookup_insert_ne; [done|]. intros <-. congruence.
      - intros Hin. specialize (Hnew _ Hin). congruence. }
    rewrite (bind_Ok _ _ _ _ _ (Hincr m3 Hsub3)).
    assert (pos_ptr tmp (cs0 ++ [(a, v)]) (length (cs0 ++ [(a, v)])) = HeapNode a)
      as Hlast by apply (pos_ptr_last tmp cs0 (a, v)).
    simpl first_ptr. rewrite <- Hlast.
    assert (forall b, b ∈ (cs0 ++ [(a, v)]).*1 -> h0 !! b = None) as Hnew3.
    { rewrite fmap_app. intros b Hb. apply elem_of_app in Hb as [Hb|Hb].
      - by apply Hnew.
      - simpl in Hb. apply list_elem_of_singleton in Hb as ->.
        destruct (h0 !! a) as [n|] eqn:Hn; [|done].
        pose proof (lookup_weaken _ _ _ _ Hn Hsub). congruence. }
    assert (0 <= to_size_t (s + 1) < 2 ^ SIZE_WIDTH)%Z as Hs3
      by (by apply Z.mod_pos_bound).
    specialize (IH m3 _ (cs0 ++ [(a, v)]) (to_size_t (s + 1)) it' V Hrep3
                  (lookup_insert_eq _ _ _) Hs3 Hy Hsub3 Hnew3
                  ltac:(simpl in Hf; lia)).
    (* what the remaining rounds did, seen from [m] *)
    assert (forall m4 cs1, built m3 m4 tmp (cs0 ++ [(a, v)]) cs1 ->
              built m m4 tmp cs0 ((a, v) :: cs1)) as Hbuilt.
    { intros m4 cs1 (Hb1 & Hb2 & Hb3).
      destruct (rep_lookup _ _ _ _ _ Hrep Hl) as (_ & _ & _ & _ & Hlk0 & _).
      assert (forall b, is_Some (heap m !! b) \/ b = a -> is_Some (heap m3 !! b)) as Hlive.
      { intros b Hb. apply elem_of_dom. rewrite Hdh3, Hh2, dom_insert_L, Hh1.
        destruct Hb as [Hb| ->]; [|apply elem_of_union_l; by apply elem_of_singleton].
        by apply elem_of_union_r, elem_of_dom. }
      split; [|split].
      - intros b Hb. rewrite fmap_cons in Hb. apply elem_of_cons in Hb as [->|Hb]; [done|].
        specialize (Hb1 b Hb). destruct (heap m !! b) as [n|] eqn:Hn; [|done].
        destruct (Hlive b) as [n3 Hn3]; [left; by eexists|]. congruence.
      - intros b Hb. rewrite Hb2 by (by rewrite <- app_assoc).
        assert ((b ∉ cs0.*1) /\ b <> a) as [Hb0 Hba].
        { rewrite fmap_app, fmap_cons in Hb. split.
          - intros ?. apply Hb. by apply elem_of_app; left.
          - intros ->. apply Hb. apply elem_of_app; right. apply list_elem_of_here. }
        rewrite Hfr3, Hh2 by done. rewrite lookup_insert_ne by done. by rewrite Hh1.
      - intros l' Hne'. rewrite (Hb3 l' Hne').
        rewrite Hls3 by (by apply pos_ptr_ne_head). rewrite Hls2. by apply Hls1. }
    destruct (Init_loop fuel tmp _ it' last m3) as [u m4|m4| |]; try done.
    + destruct IH as (cs1 & Hv & Hrep4 & Hb4).
      exists ((a, v) :: cs1). split; [rewrite fmap_cons; by rewrite Hv|].
      rewrite insert_insert_eq, <- app_assoc in Hrep4. simpl in Hrep4.
      rewrite to_size_t_add_l in Hrep4.
      replace (s + Z.of_nat (length (v :: V)))%Z
        with (s + 1 + Z.of_nat (length V))%Z by (simpl length; lia).
      split; [done|]. by apply Hbuilt.
    + destruct IH as (cs1 & j & Hj & Hv & Hrep4 & Hb4).
      exists ((a, v) :: cs1), (S j). split; [simpl; lia|].
      split; [rewrite fmap_cons; simpl; by rewrite Hv|].
      rewrite insert_insert_eq, <- app_assoc in Hrep4. simpl in Hrep4.
      rewrite <- Z.add_assoc, to_size_t_add_l in Hrep4.
      replace (s + Z.of_nat (S j) + 1)%Z
        with (s + 1 + (Z.of_nat j + 1))%Z by lia.
      split; [done|]. by apply Hbuilt.
Qed.

End Building.

Section InitSpec.
Context {T : Type}.
Implicit Types (m : Memory T) (sigma : gmap nat (list (Z * T) * Z)).
Implicit Types (cs : list (Z * T)) (V : list T).

Lemma rep_not_well_formed m sigma l cs s :
  rep m sigma -> sigma !! l = Some (cs, s) -> s <> Z.of_nat (length cs) ->
  ~ well_formed m l.
Proof.
  intros Hrep Hl Hs (o & cs' & Ho & Hchain & Hsize & _).
  destruct (rep_lookup _ _ _ _ _ Hrep Hl) as (o' & Ho' & Hs' & Hnext & Hlk & _).
  rewrite Ho in Ho'. injection Ho' as <-. destruct Hchain as [Hp Hlk'].
  assert (cs = cs') as <- by (apply (linked_inj (heap m)); congruence).
  congruence.
Qed.

(** X10. [Init] rolls nothing back.  When the allocator fails while [Init]
    fills an empty list from a range that delivers [V], the exception leaves
    the list with the first [j] values of [V], for some [j] below the length
    of [V], on [j] new nodes, and with the count [j + 1]: the count was
    raised before the allocation that failed.  The list is then not
    well formed. *)
Theorem Init_throws {It} `{@Range T It} fuel m sigma l (b e : It) V m' :
  rep m sigma -> sigma !! l = Some ([], 0%Z) ->
  yields (fun m2 => heap m ⊆ heap m2) e b V -> (length V < fuel)%nat ->
  Init fuel l b e m = BadAlloc m' ->
  exists cs j,
    (j < length V)%nat /\ cs.*2 = take j V /\ length cs = j /\
    rep m' (<[l := (cs, to_size_t (Z.of_nat j + 1))]> sigma) /\
    traverse l m' = Ok (take j V) m' /\
    GetSize l m' = Ok (to_size_t (Z.of_nat j + 1)) m' /\
    to_size_t (Z.of_nat j + 1) <> Z.of_nat j /\
    ~ well_formed m' l /\
    (forall a, a ∈ cs.*1 -> heap m !! a = None /\ is_Some (heap m' !! a)).
Proof.
  intros Hrep Hl Hy Hf Hrun. unfold Init in Hrun.
  pose proof (Init_loop_exact fuel (heap m) m sigma l [] 0%Z b e V Hrep Hl
                ltac:(done) Hy ltac:(done)) as Hinit.
  simpl in Hinit. rewrite Hrun in Hinit.
  destruct Hinit as (cs & j & Hj & HV & Hrep' & Hfresh & _); [|done|].
  { by intros a ?%elem_of_nil. }
  rewrite Z.add_0_l in Hrep'.
  assert (length cs = j) as Hlen.
  { rewrite <- (length_fmap snd), HV, length_take. lia. }
  pose proof (lookup_insert_eq sigma l (cs, to_size_t (Z.of_nat j + 1))) as Hl'.
  pose proof (rep_traverse _ _ _ _ _ Hrep' Hl') as [Htr Hsz]. rewrite HV in Htr.
  assert (to_size_t (Z.of_nat j + 1) <> Z.of_nat j) as Hoff.
  { pose proof (rep_count_bound _ _ _ _ _ Hrep' Hl') as Hb. rewrite Hlen in Hb.
    unfold to_size_t.
    destruct (decide (Z.of_nat j + 1 < 2 ^ SIZE_WIDTH)%Z) as [Hlt|Hge].
    - rewrite Z.mod_small by lia. lia.
    - replace (Z.of_nat j + 1)%Z with (2 ^ SIZE_WIDTH)%Z by lia.
      rewrite Z.mod_same by done. unfold SIZE_WIDTH in *. lia. }
  exists cs, j. split; [done|]. split; [done|]. split; [done|]. split; [done|].
  split; [done|]. split; [done|]. split; [done|]. split.
  - apply (rep_not_well_formed _ _ _ _ _ Hrep' Hl'). by rewrite Hlen.
  - intros a Ha. split; [by apply Hfresh|].
    destruct (rep_lookup _ _ _ _ _ Hrep' Hl') as (_ & _ & _ & _ & Hlk & _).
    by apply (linked_dom _ cs).
Qed.

(** X11. [Init] does not clear the list it is called on.  On a list that
    already has elements, with a non-empty range that delivers [V], it
    overwrites the head link: afterwards the list reads [V] on new nodes,
    the count is the old count plus the length of [V], and every node the
    list had before is still allocated but belongs to the list no longer. *)
Theorem Init_over_elements {It} `{@Range T It} fuel m sigma l cs s (b e : It) v V m' :
  rep m sigma -> sigma !! l = Some (cs, s) ->
  yields (fun m2 => heap m ⊆ heap m2) e b (v :: V) -> (S (length V) < fuel)%nat ->
  Init fuel l b e m = Ok tt m' ->
  exists cs1,
    cs1.*2 = v :: V /\
    rep m' (<[l := (cs1, to_size_t (s + 1 + Z.of_nat (length V)))]> sigma) /\
    traverse l m' = Ok (v :: V) m' /\
    GetSize l m' = Ok (to_size_t (s + 1 + Z.of_nat (length V))) m' /\
    (forall c, c ∈ cs -> heap m' !! c.1 = heap m !! c.1 /\ c.1 ∉ cs1.*1).
Proof.
  intros Hrep Hl Hy Hf Hrun. unfold Init in Hrun.
  destruct fuel as [|fuel]; [lia|]. simpl in Hrun.
  inversion Hy as [|it it' v' V' Hne Hderef Hincr Hy' Heq1 Heq2]; subst.
  rewrite Hne in Hrun.
  destruct (rep_incr_size _ _ _ _ _ Hrep Hl) as (m1 & Hinc & Hrep1 & Hh1 & Hnr1 & _).
  rewrite (bind_Ok _ _ _ _ _ Hinc) in Hrun.
  rewrite (bind_Ok _ _ _ _ _ (Hderef m1 ltac:(by rewrite Hh1))) in Hrun.
  unfold bind at 1 in Hrun.
  pose proof (rep_new_Node m1 _ v nullptr Hrep1) as Hnode.
  destruct (new_Node v nullptr m1) as [p m2|m2| |]; try done.
  destruct Hnode as (a & -> & Hr & Hfresh & Hh2 & Hls2 & Hrep2 & Hnr2).
  rewrite Hh1 in Hfresh.
  destruct (rep_relink m2 _ l cs (to_size_t (s + 1)) 0%nat [(a, v)] Hrep2
              (lookup_insert_eq _ _ _) (Nat.le_0_l _)) as
    (m3 & Hset & Hrep3 & _ & _ & _ & _).
  { simpl. by rewrite Hh2, lookup_insert_eq. }
  { by constructor. }
  { intros a' _. simpl. by intros ?%elem_of_nil. }
  { intros l' cs' s' Hne' Hl'. rewrite lookup_insert_ne in Hl' by done.
    simpl. intros a' Ha' Hin. apply list_elem_of_singleton in Ha' as ->.
    by apply (rep_fresh _ _ _ _ _ _ Hrep Hl' Hfresh). }
  change (set_next (HeadOf l) (HeapNode a) m2 = Ok tt m3) in Hset.
  simpl in Hrep3. rewrite insert_insert_eq in Hrep3.
  rewrite (bind_Ok _ _ _ _ _ Hset) in Hrun.
  apply set_next_inv in Hset as (_ & _ & Hh3 & _).
  pose proof (rep_get_next m3 _ l [(a, v)] _ 0%nat Hrep3 (lookup_insert_eq _ _ _)
                (Nat.le_0_l _)) as Hnext.
  simpl in Hnext. rewrite (bind_Ok _ _ _ _ _ Hnext) in Hrun.
  assert (forall b0, heap m3 !! b0 = <[a := mkNode v nullptr]> (heap m) !! b0) as Hheap3.
  { intros b0. rewrite Hh3 by done. by rewrite Hh2, Hh1. }
  assert (heap m ⊆ heap m3) as Hsub3.
  { apply map_subseteq_spec. intros b0 n Hb0. rewrite Hheap3.
    rewrite lookup_insert_ne; [done|]. intros <-. congruence. }
  rewrite (bind_Ok _ _ _ _ _ (Hincr m3 Hsub3)) in Hrun.
  pose proof (Init_loop_exact fuel (heap m) m3 _ l [(a, v)] (to_size_t (s + 1)) it' e V
                Hrep3 (lookup_insert_eq _ _ _)) as Hinit.
  simpl in Hinit. rewrite Hrun in Hinit.
  destruct Hinit as (cs1 & HV & Hrep' & Hb1 & Hb2 & _); try done.
  { by apply Z.mod_pos_bound. }
  { intros b0 Hb0. apply list_elem_of_singleton in Hb0 as ->. done. }
  { lia. }
  rewrite insert_insert_eq, to_size_t_add_l in Hrep'.
  pose proof (lookup_insert_eq sigma l
                ((a, v) :: cs1, to_size_t (s + 1 + Z.of_nat (length V)))) as Hl'.
  pose proof (rep_traverse _ _ _ _ _ Hrep' Hl') as [Htr Hsz].
  rewrite fmap_cons, HV in Htr.
  exists ((a, v) :: cs1). split; [by rewrite fmap_cons, HV|]. split; [done|].
  split; [done|]. split; [done|].
  intros c Hc.
  destruct (rep_lookup _ _ _ _ _ Hrep Hl) as (_ & _ & _ & _ & Hlk & _).
  destruct (linked_dom _ _ c.1 Hlk) as [n Hn]; [by apply list_elem_of_fmap_2|].
  assert (c.1 <> a) as Hca by (intros Heq; rewrite Heq in Hn; congruence).
  assert (heap m3 !! c.1 = Some n) as Hn3.
  { rewrite Hheap3. by rewrite lookup_insert_ne. }
  assert (c.1 ∉ ((a, v) :: cs1).*1) as Hout.
  { rewrite fmap_cons. intros [?|Hin]%elem_of_cons; [done|].
    specialize (Hb1 _ Hin). congruence. }
  split; [|done]. rewrite Hb2 by done. congruence.
Qed.

End InitSpec.

(** ** Constructors and assignment: what is allocated and what is freed *)

Section Lifetime.
Context {T : Type} {E : Element T}.
Implicit Types (m : Memory T) (sigma : gmap nat (list (Z * T) * Z)).
Implicit Types (cs : list (Z * T)) (V : list T).

(** A constructor that fills a temporary from a range and swaps: when it
    returns the new list sits on nodes at addresses that were free, and
    nothing else has changed; when it throws, every node and every list
    object is as it was. *)
Lemma constructor_build_exact {It} {R : @Range T It}
    (body : nat -> M T unit) fuel m sigma l (b last : It) V :
  rep m sigma -> lists m !! l = None ->
  yields (fun m' => heap m ⊆ heap m') last b V -> (length V < fuel)%nat ->
  (forall tmp m2, heap m2 = heap m ->
     (forall l', is_Some (lists m !! l') -> lists m2 !! l' = lists m !! l') ->
     body tmp m2 = (let* _ := Init fuel tmp b last in swap l tmp) m2) ->
  match constructor l (local SingleLinkedList_default body) m with
  | Ok _ m' =>
      exists cs, cs.*2 = V /\
        rep m' (<[l := (cs, Z.of_nat (length V))]> sigma) /\
        (forall a, a ∈ cs.*1 -> heap m !! a = None) /\
        (forall a, a ∉ cs.*1 -> heap m' !! a = heap m !! a) /\
        (forall l', l' <> l -> lists m' !! l' = lists m !! l')
  | BadAlloc m' => heap m' = heap m /\ lists m' = lists m
  | _ => False
  end.
Proof.
  intros Hrep Hl Hy Hf Hbody. unfold constructor.
  destruct (rep_member_init _ _ _ Hrep Hl) as (m1 & Hinit & Hrep1 & Hh1 & Hls1 & Hnr1).
  rewrite Hinit. unfold local.
  set (tmp := fresh (dom (lists m1))).
  assert (lists m1 !! tmp = None) as Htmp by apply fresh_dead.
  assert (l <> tmp) as Hne.
  { intros <-. rewrite Hls1, lookup_insert_eq in Htmp. done. }
  assert (lists m !! tmp = None) as Htmp0.
  { rewrite Hls1 in Htmp. by rewrite lookup_insert_ne in Htmp. }
  destruct (SingleLinkedList_default_rep _ _ _ Hrep1 Htmp)
    as (m2 & Hdef & Hrep2 & Hh2 & Hls2 & Hnr2).
  rewrite (bind_Ok _ _ _ _ _ Hdef).
  rewrite (finally_ext _ (let* _ := Init fuel tmp b last in swap l tmp)).
  2:{ apply Hbody; [congruence|]. intros l' [o Ho].
      rewrite Hls2, Hls1. rewrite !lookup_insert_ne; [done| |]; congruence. }
  assert (sigma !! l = None) as Hsl by (by eapply rep_dead).
  assert (sigma !! tmp = None) as Hst by (by eapply rep_dead).
  assert (forall l', l' <> l -> l' <> tmp -> lists m2 !! l' = lists m !! l') as Hfr2.
  { intros l' ? ?. rewrite Hls2, Hls1. by rewrite !lookup_insert_ne. }
  unfold finally, bind, Init.
  pose proof (Init_loop_exact fuel (heap m) m2 _ tmp [] 0%Z b last V Hrep2
                (lookup_insert_eq _ _ _) ltac:(done) Hy) as Hbuild.
  simpl in Hbuild.
  destruct (Init_loop fuel tmp (HeadOf tmp) b last m2) as [u m3|m3| |].
  - destruct Hbuild as (cs & HV & Hrep3 & Hb1 & Hb2 & Hb3); try done.
    { by rewrite Hh2, Hh1. }
    { by intros a ?%elem_of_nil. }
    rewrite insert_insert_eq in Hrep3. rewrite to_size_t_small in Hrep3.
    2:{ pose proof (rep_count_bound _ _ _ _ _ Hrep3 (lookup_insert_eq _ _ _)) as Hcb.
        rewrite <- HV, length_fmap. lia. }
    destruct (rep_lookup _ _ _ _ _ Hrep3 (lookup_insert_eq _ _ _))
      as (otmp & Hotmp & _).
    assert (is_Some (lists m3 !! l)) as [ol Hol].
    { rewrite Hb3 by done. rewrite Hls2, lookup_insert_ne by done.
      rewrite Hls1, lookup_insert_eq. by eexists. }
    destruct (swap_lookup m3 l tmp ol otmp Hol Hotmp) as (m4 & Hsw & Hh4 & _ & Hls4).
    destruct (rep_swap m3 _ l tmp ([], 0%Z) (cs, Z.of_nat (length V)) Hrep3)
      as (m4' & Hsw' & Hrep4 & _).
    { rewrite lookup_insert_ne by done. by rewrite lookup_insert_eq. }
    { by rewrite lookup_insert_eq. }
    rewrite Hsw in Hsw'. injection Hsw' as <-. rewrite Hsw.
    destruct (destructor_exact m4 _ tmp [] 0%Z Hrep4)
      as (m5 & Hd & Hrep5 & Hh5 & Hls5 & _).
    { rewrite lookup_insert_ne by done. by rewrite lookup_insert_eq. }
    rewrite Hd. exists cs. split; [done|]. split; [|split; [|split]].
    + rewrite delete_insert_ne, !delete_insert_eq in Hrep5 by done.
      rewrite delete_id in Hrep5 by (by rewrite lookup_insert_ne).
      by rewrite insert_insert_eq in Hrep5.
    + intros a Ha. rewrite <- Hh1, <- Hh2. by apply Hb1.
    + intros a Ha. rewrite Hh5. rewrite decide_False by (by intros ?%elem_of_nil).
      rewrite Hh4, Hb2 by done. by rewrite Hh2, Hh1.
    + intros l' Hne'. rewrite Hls5.
      destruct (decide (l' = tmp)) as [->|Hne2]; [by rewrite lookup_delete_eq|].
      rewrite lookup_delete_ne by done. rewrite Hls4.
      rewrite !decide_False by done. rewrite Hb3 by done. by apply Hfr2.
  - destruct Hbuild as (cs & j & _ & _ & Hrep3 & Hb1 & Hb2 & Hb3); try done.
    { by rewrite Hh2, Hh1. }
    { by intros a ?%elem_of_nil. }
    rewrite insert_insert_eq in Hrep3.
    destruct (destructor_exact m3 _ tmp cs _ Hrep3 (lookup_insert_eq _ _ _))
      as (m4 & Hd & _ & Hh4 & Hls4 & _).
    rewrite Hd. unfold release.
    assert (is_Some (lists m4 !! l)) as [ol Hol].
    { rewrite Hls4, lookup_delete_ne by done. rewrite Hb3 by done.
      rewrite Hls2, lookup_insert_ne by done. rewrite Hls1, lookup_insert_eq.
      by eexists. }
    rewrite Hol. simpl. split.
    + apply map_eq. intros a. rewrite Hh4.
      destruct (decide (a ∈ cs.*1)) as [Hin|Hin].
      * symmetry. rewrite <- Hh1, <- Hh2. by apply Hb1.
      * rewrite Hb2 by done. by rewrite Hh2, Hh1.
    + apply map_eq. intros l'.
      destruct (decide (l' = l)) as [->|Hne1]; [by rewrite lookup_delete_eq|].
      rewrite lookup_delete_ne by done. rewrite Hls4.
      destruct (decide (l' = tmp)) as [->|Hne2]; [by rewrite lookup_delete_eq|].
      rewrite lookup_delete_ne by done. rewrite Hb3 by done. by apply Hfr2.
  - apply Hbuild; try done.
    { by rewrite Hh2, Hh1. }
    { by intros a ?%elem_of_nil. }
  - apply Hbuild; try done.
    { by rewrite Hh2, Hh1. }
    { by intros a ?%elem_of_nil. }
Qed.

Lemma SingleLinkedList_copy_exact m sigma l other cs0 s0 :
  rep m sigma -> lists m !! l = None -> sigma !! other = Some (cs0, s0) ->
  match SingleLinkedList_copy l other m with
  | Ok _ m' =>
      exists cs, cs.*2 = cs0.*2 /\
        rep m' (<[l := (cs, Z.of_nat (length cs0))]> sigma) /\
        (forall a, a ∈ cs.*1 -> heap m !! a = None) /\
        (forall a, a ∉ cs.*1 -> heap m' !! a = heap m !! a) /\
        (forall l', l' <> l -> lists m' !! l' = lists m !! l')
  | BadAlloc m' => heap m' = heap m /\ lists m' = lists m
  | _ => False
  end.
Proof.
  intros Hrep Hl Hother. unfold SingleLinkedList_copy.
  destruct (rep_lookup _ _ _ _ _ Hrep Hother) as (o & Ho & Hs & Hp & Hlk & _).
  rewrite <- (length_fmap snd cs0).
  apply (constructor_build_exact _ (S (size (heap m))) m sigma l
           (mkIter (first_ptr cs0)) (mkIter nullptr) cs0.*2); try done.
  - by apply chain_yields.
  - rewrite length_fmap. pose proof (linked_length _ _ Hlk). lia.
  - intros tmp m2 Hh2 Hls2.
    specialize (Hls2 other ltac:(by eexists)). rewrite Ho in Hls2.
    rewrite (bind_Ok _ _ _ _ _ (begin_Ok _ _ _ Hls2)).
    rewrite (bind_Ok _ _ _ _ _ (end_Ok _ _)).
    unfold bind at 1. unfold chain_bound. by rewrite Hh2, Hp.
Qed.

(** X12. A default-constructed list is empty: the constructor always
    returns, allocates nothing and writes nothing but the new object;
    [begin()] is [end()], the count is zero and [IsEmpty()] is true. *)
Theorem default_constructed_empty m :
  exists l m',
    declare SingleLinkedList_default m = Ok l m' /\
    lists m !! l = None /\
    heap m' = heap m /\ new_results m' = new_results m /\
    (forall l', l' <> l -> lists m' !! l' = lists m !! l') /\
    traverse l m' = Ok [] m' /\ GetSize l m' = Ok 0%Z m' /\
    IsEmpty l m' = Ok true m' /\ begin l m' = end_ l m'.
Proof.
  set (l := fresh (dom (lists m))).
  assert (lists m !! l = None) as Hl by apply fresh_dead.
  destruct (SingleLinkedList_default_rep m ∅ l (rep_empty m) Hl)
    as (m' & Hdef & Hrep' & Hh & Hls & Hnr).
  pose proof (lookup_insert_eq (∅ : gmap nat (list (Z * T) * Z)) l ([], 0%Z)) as Hl'.
  pose proof (rep_traverse _ _ _ _ _ Hrep' Hl') as [Htr Hsz].
  exists l, m'. split.
  { unfold declare. fold l. by rewrite (bind_Ok _ _ _ _ _ Hdef). }
  split; [done|]. split; [done|]. split; [done|]. split.
  { intros l' Hne. by rewrite Hls, lookup_insert_ne. }
  split; [done|]. split; [done|]. split.
  - unfold IsEmpty. unfold GetSize in Hsz. by rewrite (bind_Ok _ _ _ _ _ Hsz).
  - by rewrite (rep_begin _ _ _ _ _ Hrep' Hl').
Qed.

Lemma SingleLinkedList_ilist_exact m sigma l V :
  rep m sigma -> lists m !! l = None ->
  match SingleLinkedList_ilist l V m with
  | Ok _ m' =>
      exists cs, cs.*2 = V /\
        rep m' (<[l := (cs, Z.of_nat (length V))]> sigma) /\
        (forall a, a ∈ cs.*1 -> heap m !! a = None) /\
        (forall a, a ∉ cs.*1 -> heap m' !! a = heap m !! a) /\
        (forall l', l' <> l -> lists m' !! l' = lists m !! l')
  | BadAlloc m' => heap m' = heap m /\ lists m' = lists m
  | _ => False
  end.
Proof.
  intros Hrep Hl. unfold SingleLinkedList_ilist.
  assert (yields (fun m' => heap m ⊆ heap m') (il_end V) (il_begin V) V) as Hy.
  { rewrite <- (drop_0 V) at 3. apply array_yields. lia. }
  pose proof (constructor_build_exact
                (fun tmp => let* _ := Init (S (length V)) tmp (il_begin V) (il_end V) in
                            swap l tmp)
                (S (length V)) m sigma l (il_begin V) (il_end V) V Hrep Hl Hy
                ltac:(lia) ltac:(done)) as Hb.
  exact Hb.
Qed.

(** X13. The initializer-list constructor allocates one node per value, at
    addresses that were free, and writes no node and no list object that
    existed before.  When it throws, the nodes it had built are freed again:
    every node and every list object is exactly as before the call. *)
Theorem ilist_constructor_footprint m sigma l V :
  rep m sigma -> lists m !! l = None ->
  match SingleLinkedList_ilist l V m with
  | Ok _ m' =>
      exists cs, cs.*2 = V /\ NoDup cs.*1 /\
        rep m' (<[l := (cs, Z.of_nat (length V))]> sigma) /\
        (forall a, a ∈ cs.*1 -> heap m !! a = None) /\
        (forall a, a ∉ cs.*1 -> heap m' !! a = heap m !! a) /\
        (forall l', l' <> l -> lists m' !! l' = lists m !! l')
  | BadAlloc m' => heap m' = heap m /\ lists m' = lists m
  | _ => False
  end.
Proof.
  intros Hrep Hl.
  pose proof (SingleLinkedList_ilist_exact _ _ _ V Hrep Hl) as Hctor.
  destruct (SingleLinkedList_ilist l V m) as [u m'|m'| |]; try done.
  destruct Hctor as (cs & HV & Hrep' & Hrest).
  exists cs. split; [done|]. split; [|done].
  by destruct (rep_lookup _ _ _ _ _ Hrep' (lookup_insert_eq _ _ _))
    as (_ & _ & _ & _ & _ & _ & Hnd).
Qed.

(** X14. The copy constructor makes a deep copy.  When it returns the new
    list reads the elements of the source and has its count, sits on new
    nodes at addresses that were free, shares no node with the source, and
    the source, like every node and list object that existed, is untouched.
    It throws only when the allocator has no node for each element, and then
    every node and list object is exactly as before. *)
Theorem copy_constructor_spec m sigma l other cs0 :
  rep m sigma -> lists m !! l = None ->
  sigma !! other = Some (cs0, Z.of_nat (length cs0)) ->
  match SingleLinkedList_copy l other m with
  | Ok _ m' =>
      exists cs, cs.*2 = cs0.*2 /\
        rep m' (<[l := (cs, Z.of_nat (length cs0))]> sigma) /\
        traverse l m' = Ok cs0.*2 m' /\
        traverse other m' = Ok cs0.*2 m' /\
        GetSize l m' = Ok (Z.of_nat (length cs0)) m' /\
        GetSize other m' = Ok (Z.of_nat (length cs0)) m' /\
        cs.*1 ## cs0.*1 /\
        (forall a, a ∈ cs.*1 -> heap m !! a = None) /\
        (forall a, a ∉ cs.*1 -> heap m' !! a = heap m !! a) /\
        (forall l', l' <> l -> lists m' !! l' = lists m !! l')
  | BadAlloc m' =>
      heap m' = heap m /\ lists m' = lists m /\ ~ supply (length cs0) m
  | _ => False
  end.
Proof.
  intros Hrep Hl Hother.
  pose proof (SingleLinkedList_copy_exact _ _ _ _ _ _ Hrep Hl Hother) as Hex.
  pose proof (SingleLinkedList_copy_rep _ _ _ _ _ _ Hrep Hl Hother) as Hcp.
  destruct (SingleLinkedList_copy l other m) as [u m'|m'| |]; try done.
  - destruct Hex as (cs & HV & Hrep' & Hfresh & Hh & Hls).
    assert (l <> other) as Hne.
    { intros ->. by rewrite (rep_dead _ _ _ Hrep Hl) in Hother. }
    pose proof (lookup_insert_eq sigma l (cs, Z.of_nat (length cs0))) as Hl'.
    assert (<[l := (cs, Z.of_nat (length cs0))]> sigma !! other =
            Some (cs0, Z.of_nat (length cs0))) as Ho' by (by rewrite lookup_insert_ne).
    pose proof (rep_traverse _ _ _ _ _ Hrep' Hl') as [Htr Hsz]. rewrite HV in Htr.
    pose proof (rep_traverse _ _ _ _ _ Hrep' Ho') as [Htr0 Hsz0].
    exists cs. split; [done|]. split; [done|]. split; [done|]. split; [done|].
    split; [done|]. split; [done|]. split; [|done].
    destruct Hrep' as [_ Hdisj]. exact (Hdisj _ _ _ _ _ _ Hne Hl' Ho').
  - destruct Hex as [Hh Hls]. destruct Hcp as (_ & _ & Hno). done.
Qed.

(** X15. A copy that is destroyed leaves no trace: after the copy
    constructor and the destructor of the copy, every node and every list
    object is exactly as before the copy was made; no node has leaked. *)
Theorem copy_then_destroy m sigma l other cs0 s0 m1 :
  rep m sigma -> lists m !! l = None -> sigma !! other = Some (cs0, s0) ->
  SingleLinkedList_copy l other m = Ok tt m1 ->
  exists m2,
    destructor l m1 = Ok tt m2 /\ heap m2 = heap m /\ lists m2 = lists m /\
    rep m2 sigma.
Proof.
  intros Hrep Hl Hother Hrun.
  pose proof (SingleLinkedList_copy_exact _ _ _ _ _ _ Hrep Hl Hother) as Hex.
  rewrite Hrun in Hex. destruct Hex as (cs & HV & Hrep1 & Hfresh & Hh & Hls).
  destruct (destructor_exact m1 _ l cs _ Hrep1 (lookup_insert_eq _ _ _))
    as (m2 & Hd & Hrep2 & Hh2 & Hls2 & _).
  exists m2. split; [done|]. split; [|split].
  - apply map_eq. intros a. rewrite Hh2.
    destruct (decide (a ∈ cs.*1)) as [Hin|Hin]; [symmetry; by apply Hfresh|by apply Hh].
  - apply map_eq. intros l'. rewrite Hls2.
    destruct (decide (l' = l)) as [->|Hne]; [by rewrite lookup_delete_eq|].
    rewrite lookup_delete_ne by done. by apply Hls.
  - rewrite delete_insert_eq in Hrep2.
    by rewrite delete_id in Hrep2 by (by eapply rep_dead).
Qed.

Lemma assign_exact m sigma this rhs cst st csr sr :
  rep m sigma -> sigma !! this = Some (cst, st) -> sigma !! rhs = Some (csr, sr) ->
  this <> rhs ->
  match assign this rhs m with
  | Ok _ m' =>
      exists cs, cs.*2 = csr.*2 /\
        rep m' (<[this := (cs, Z.of_nat (length csr))]> sigma) /\
        (forall a, a ∈ cs.*1 -> heap m !! a = None) /\
        (forall a, a ∈ cst.*1 -> heap m' !! a = None) /\
        (forall a, a ∉ cs.*1 -> a ∉ cst.*1 -> heap m' !! a = heap m !! a) /\
        (forall l', l' <> this -> lists m' !! l' = lists m !! l')
  | BadAlloc m' => heap m' = heap m /\ lists m' = lists m
  | _ => False
  end.
Proof.
  intros Hrep Hthis Hrhs Hne. unfold assign. rewrite decide_True by done.
  unfold local. set (tmp := fresh (dom (lists m))).
  assert (lists m !! tmp = None) as Htmp by apply fresh_dead.
  assert (sigma !! tmp = None) as Hst by (by eapply rep_dead).
  assert (this <> tmp) as Hne1 by congruence.
  pose proof (SingleLinkedList_copy_exact _ _ _ _ _ _ Hrep Htmp Hrhs) as Hcopy.
  unfold bind at 1.
  destruct (SingleLinkedList_copy tmp rhs m) as [u m1|m1| |]; try done.
  destruct Hcopy as (cs & HV & Hrep1 & Hfresh & Hh1 & Hls1). unfold finally.
  destruct (rep_lookup _ _ _ _ _ Hrep1 (lookup_insert_eq _ _ _)) as (otmp & Hotmp & _).
  assert (<[tmp := (cs, Z.of_nat (length csr))]> sigma !! this = Some (cst, st))
    as Hthis1 by (by rewrite lookup_insert_ne).
  destruct (rep_lookup _ _ _ _ _ Hrep1 Hthis1) as (othis & Hothis & _).
  destruct (swap_lookup m1 this tmp othis otmp Hothis Hotmp)
    as (m2 & Hsw & Hh2 & _ & Hls2).
  destruct (rep_swap m1 _ this tmp (cst, st) (cs, Z.of_nat (length csr)) Hrep1 Hthis1
              (lookup_insert_eq _ _ _)) as (m2' & Hsw' & Hrep2 & _).
  rewrite Hsw in Hsw'. injection Hsw' as <-. rewrite Hsw.
  destruct (destructor_exact m2 _ tmp cst st Hrep2)
    as (m3 & Hd & Hrep3 & Hh3 & Hls3 & _).
  { rewrite lookup_insert_ne by done. by rewrite lookup_insert_eq. }
  rewrite Hd. exists cs. split; [done|]. split; [|split; [|split; [|split]]].
  - rewrite delete_insert_ne, !delete_insert_eq in Hrep3 by done.
    by rewrite delete_id in Hrep3.
  - done.
  - intros a Ha. by rewrite Hh3, decide_True.
  - intros a Ha1 Ha2. rewrite Hh3, decide_False by done. rewrite Hh2. by apply Hh1.
  - intros l' Hne'. rewrite Hls3.
    destruct (decide (l' = tmp)) as [->|Hne2]; [by rewrite lookup_delete_eq|].
    rewrite lookup_delete_ne by done. rewrite Hls2, !decide_False by done.
    by apply Hls1.
Qed.

(** X16. Copy assignment [A = B] to another list frees what [A] had: when
    it returns, the new elements of [A] sit on nodes at addresses that were
    free, every node [A] had before is freed (an iterator to an old element
    of [A] dangles), and no other node and no other list object has been
    written.  When it throws, every node and list object is exactly as
    before. *)
Theorem assign_footprint m sigma this rhs cst st csr sr :
  rep m sigma -> sigma !! this = Some (cst, st) -> sigma !! rhs = Some (csr, sr) ->
  this <> rhs ->
  match assign this rhs m with
  | Ok _ m' =>
      exists cs, cs.*2 = csr.*2 /\
        rep m' (<[this := (cs, Z.of_nat (length csr))]> sigma) /\
        (forall a, a ∈ cs.*1 -> heap m !! a = None) /\
        (forall a, a ∈ cst.*1 ->
           heap m' !! a = None /\ deref (mkIter (HeapNode a)) m' = UB) /\
        (forall a, a ∉ cs.*1 -> a ∉ cst.*1 -> heap m' !! a = heap m !! a) /\
        (forall l', l' <> this -> lists m' !! l' = lists m !! l')
  | BadAlloc m' => heap m' = heap m /\ lists m' = lists m
  | _ => False
  end.
Proof.
  intros Hrep Hthis Hrhs Hne.
  pose proof (assign_exact _ _ _ _ _ _ _ _ Hrep Hthis Hrhs Hne) as Hassign.
  destruct (assign this rhs m) as [u m'|m'| |]; try done.
  destruct Hassign as (cs & HV & Hrep' & Hfresh & Hgone & Hrest).
  exists cs. split; [done|]. split; [done|]. split; [done|]. split; [|done].
  intros a Ha. split; [by apply Hgone|]. by apply dangling_deref, Hgone.
Qed.

End Lifetime.

(** ** Observers and iterators *)

Section Observers.
Context {T : Type} {E : Element T}.
Implicit Types (m : Memory T) (sigma : gmap nat (list (Z * T) * Z)).
Implicit Types (cs : list (Z * T)) (V : list T).

Lemma reachable_Inv m : reachable m -> Inv m.
Proof.
  induction 1 as [r|m0 m1 _ IH Hstep]; [apply Inv_start|]. by apply (Inv_step m0).
Qed.



(** X18. Walking a list with iterators.  [++before_begin()] is [begin()],
    which refers to the first element or is [end()].  An iterator to the
    [j]-th element reads its value, differs from [end()], and both forms of
    [++] take it to the next element, or to [end()] from the last one; the
    postfix form returns the position it started from.  Two iterators to
    elements of the list are equal exactly when they refer to the same
    position, and [!=] is the negation of [==]. *)
Theorem iterator_walk m sigma l cs s :
  rep m sigma -> sigma !! l = Some (cs, s) ->
  (exists p, before_begin l m = Ok p m /\ pre_incr p m = begin l m) /\
  begin l m = Ok (mkIter (first_ptr cs)) m /\
  (forall j c, cs !! j = Some c ->
     let it := mkIter (HeapNode c.1) in
     let next := mkIter (first_ptr (drop (S j) cs)) in
     deref it m = Ok c.2 m /\
     pre_incr it m = Ok next m /\
     post_incr it m = Ok (it, next) m /\
     iter_ne it (mkIter nullptr) = true /\
     (S j = length cs -> pre_incr it m = end_ l m) /\
     (forall c', cs !! S j = Some c' -> next = mkIter (HeapNode c'.1)) /\
     (forall j' c', cs !! j' = Some c' ->
        (iter_eq it (mkIter (HeapNode c'.1)) = true <-> j = j') /\
        iter_ne it (mkIter (HeapNode c'.1)) =
          negb (iter_eq it (mkIter (HeapNode c'.1))))).
Proof.
  intros Hrep Hl. split; [|split].
  - exists (mkIter (HeadOf l)). split; done.
  - exact (rep_begin _ _ _ _ _ Hrep Hl).
  - intros j c Hj it next. subst it next.
    destruct (rep_deref _ _ _ _ _ _ _ Hrep Hl Hj) as [Hd Hi].
    split; [done|]. split; [done|]. split; [|split; [done|split; [|split]]].
    + unfold post_incr. by rewrite (bind_Ok _ _ _ _ _ Hi).
    + intros Hlast. rewrite Hi. by rewrite drop_ge by lia.
    + intros c' Hc'. by rewrite (drop_lookup_cons _ _ _ Hc').
    + intros j' c' Hj'. split; [|done].
      unfold iter_eq. simpl. rewrite bool_decide_eq_true.
      destruct (rep_lookup _ _ _ _ _ Hrep Hl) as (_ & _ & _ & _ & _ & _ & Hnd).
      split.
      * intros [= Heq]. apply (NoDup_lookup _ _ _ c.1 Hnd).
        -- by rewrite list_lookup_fmap, Hj.
        -- by rewrite list_lookup_fmap, Hj', Heq.
      * intros <-. congruence.
Qed.

(** X19. [swap] invalidates no iterator; the iterators go with the nodes.
    After [swap(A, B)] an iterator to an element still reads the same value
    and steps to the same successor, [A.begin()] is what [B.begin()] was and
    the other way round. *)
Theorem swap_keeps_iterators m sigma a b csa sa csb sb m' :
  rep m sigma -> sigma !! a = Some (csa, sa) -> sigma !! b = Some (csb, sb) ->
  swap a b m = Ok tt m' ->
  begin a m' = Ok (mkIter (first_ptr csb)) m' /\
  begin b m = Ok (mkIter (first_ptr csb)) m /\
  begin b m' = Ok (mkIter (first_ptr csa)) m' /\
  begin a m = Ok (mkIter (first_ptr csa)) m /\
  (forall l cs s' j c, sigma !! l = Some (cs, s') -> cs !! j = Some c ->
     deref (mkIter (HeapNode c.1)) m = Ok c.2 m /\
     deref (mkIter (HeapNode c.1)) m' = Ok c.2 m' /\
     pre_incr (mkIter (HeapNode c.1)) m = Ok (mkIter (first_ptr (drop (S j) cs))) m /\
     pre_incr (mkIter (HeapNode c.1)) m' = Ok (mkIter (first_ptr (drop (S j) cs))) m').
Proof.
  intros Hrep Ha Hb Hrun.
  destruct (rep_swap _ _ _ _ _ _ Hrep Ha Hb) as (m2 & Hsw & Hrep' & Hh & _).
  rewrite Hrun in Hsw. injection Hsw as <-.
  destruct (rep_lookup _ _ _ _ _ Hrep Ha) as (oa & Hoa & _).
  destruct (rep_lookup _ _ _ _ _ Hrep Hb) as (ob & Hob & _).
  destruct (swap_lookup _ _ _ _ _ Hoa Hob) as (m2 & Hsw & _ & _ & Hls).
  rewrite Hrun in Hsw. injection Hsw as <-.
  pose proof (rep_begin _ _ _ _ _ Hrep Ha) as Hba.
  pose proof (rep_begin _ _ _ _ _ Hrep Hb) as Hbb.
  rewrite (begin_Ok _ _ _ Hoa) in Hba. rewrite (begin_Ok _ _ _ Hob) in Hbb.
  injection Hba as Hba. injection Hbb as Hbb.
  split; [|split; [|split; [|split]]].
  - erewrite begin_Ok by (rewrite Hls, decide_True by done; reflexivity).
    simpl. by rewrite Hbb.
  - exact (rep_begin _ _ _ _ _ Hrep Hb).
  - destruct (decide (b = a)) as [->|Hne].
    + erewrite begin_Ok by (rewrite Hls, decide_True by done; reflexivity).
      simpl. rewrite Hob in Hoa. injection Hoa as ->. by rewrite Hba.
    + erewrite begin_Ok
        by (rewrite Hls, decide_False, decide_True by done; reflexivity).
      simpl. by rewrite Hba.
  - exact (rep_begin _ _ _ _ _ Hrep Ha).
  - intros l cs s' j c Hl Hj.
    destruct (rep_deref _ _ _ _ _ _ _ Hrep Hl Hj) as [Hd Hi].
    destruct (rep_lookup _ _ _ _ _ Hrep Hl) as (_ & _ & _ & _ & Hlk & _).
    pose proof (linked_lookup _ _ _ _ Hlk Hj) as Hc. rewrite <- Hh in Hc.
    split; [done|]. split; [|split; [done|]].
    + unfold deref. simpl. by rewrite (get_value_node _ _ _ Hc).
    + unfold pre_incr. simpl. by rewrite (bind_Ok _ _ _ _ _ (get_next_node _ _ _ Hc)).
Qed.

End Observers.

(** ** Comparison: [==] as an equivalence, and [==] against [<] *)

Section Equivalence.
Context {T : Type} {E : Element T}.
Implicit Types (m : Memory T) (cs : list (Z * T)) (xs ys zs : list T).

Lemma equal_values_sym xs ys :
  (forall x y, elt_eq x y = true -> elt_eq y x = true) ->
  equal_values xs ys = true -> equal_values ys xs = true.
Proof.
  intros Hsym. revert ys. induction xs as [|x xs IH]; intros [|y ys]; simpl; try done.
  destruct (elt_eq x y) eqn:Hxy; simpl; [|done].
  rewrite (Hsym _ _ Hxy). simpl. apply IH.
Qed.

Lemma equal_values_trans xs ys zs :
  (forall x y z, elt_eq x y = true -> elt_eq y z = true -> elt_eq x z = true) ->
  equal_values xs ys = true -> equal_values ys zs = true -> equal_values xs zs = true.
Proof.
  intros Htr. revert ys zs.
  induction xs as [|x xs IH]; intros [|y ys] [|z zs]; simpl; try done.
  destruct (elt_eq x y) eqn:Hxy; simpl; [|done].
  destruct (elt_eq y z) eqn:Hyz; simpl; [|done].
  rewrite (Htr _ _ _ Hxy Hyz). simpl. apply IH.
Qed.

Lemma equal_values_not_less xs ys :
  (forall x y, elt_eq x y = true -> elt_lt x y = false /\ elt_lt y x = false) ->
  equal_values xs ys = true ->
  compare_values xs ys = false /\ compare_values ys xs = false.
Proof.
  intros Hne. revert ys. induction xs as [|x xs IH]; intros [|y ys]; simpl; try done.
  destruct (elt_eq x y) eqn:Hxy; simpl; [|done].
  destruct (Hne _ _ Hxy) as [-> ->]. apply IH.
Qed.

(** X20. [==] of lists is symmetric when [==] of the elements is, and
    transitive when [==] of the elements is.  When elements that are [==]
    are not [<] either way, lists that are [==] are neither [<] nor [>],
    and they are [<=] and [>=]. *)
Theorem list_equality_equivalence m l1 l2 l3 cs1 s1 cs2 s2 cs3 s3 :
  list_at m l1 cs1 s1 -> list_at m l2 cs2 s2 -> list_at m l3 cs3 s3 ->
  ((forall x y, elt_eq x y = true -> elt_eq y x = true) ->
   holds (op_eq l1 l2) m -> holds (op_eq l2 l1) m) /\
  ((forall x y z, elt_eq x y = true -> elt_eq y z = true -> elt_eq x z = true) ->
   holds (op_eq l1 l2) m -> holds (op_eq l2 l3) m -> holds (op_eq l1 l3) m) /\
  ((forall x y, elt_eq x y = true -> elt_lt x y = false /\ elt_lt y x = false) ->
   holds (op_eq l1 l2) m ->
   ~ holds (op_lt l1 l2) m /\ ~ holds (op_gt l1 l2) m /\
   holds (op_le l1 l2) m /\ holds (op_ge l1 l2) m).
Proof.
  intros H1 H2 H3. unfold holds.
  rewrite (op_eq_at _ _ _ _ _ _ _ H1 H2), (op_eq_at _ _ _ _ _ _ _ H2 H1),
    (op_eq_at _ _ _ _ _ _ _ H2 H3), (op_eq_at _ _ _ _ _ _ _ H1 H3).
  unfold op_gt, op_le, op_ge.
  rewrite (bind_Ok _ _ _ _ _ (op_lt_at _ _ _ _ _ _ _ H2 H1)),
    (bind_Ok _ _ _ _ _ (op_lt_at _ _ _ _ _ _ _ H1 H2)).
  rewrite (op_lt_at _ _ _ _ _ _ _ H2 H1), (op_lt_at _ _ _ _ _ _ _ H1 H2).
  unfold ret. split; [|split].
  - intros Hsym [= Heq]. by rewrite (equal_values_sym _ _ Hsym Heq).
  - intros Htr [= Heq1] [= Heq2]. by rewrite (equal_values_trans _ _ _ Htr Heq1 Heq2).
  - intros Hne [= Heq]. destruct (equal_values_not_less _ _ Hne Heq) as [-> ->].
    split; [done|]. split; done.
Qed.

End Equivalence.

(** ** A position of another list *)

Section Foreign.
Context {T : Type}.
Implicit Types (m : Memory T) (sigma : gmap nat (list (Z * T) * Z)).
Implicit Types (cs : list (Z * T)).

(** X21. [InsertAfter] does not check that the position belongs to the
    list it is called on.  Called on [A] with a position of another list
    [B], it links the new node into [B], which then reads one element more
    under an unchanged count, and raises the count of [A], whose elements
    are unchanged: neither count is the number of elements any more. *)
Theorem InsertAfter_foreign_position m sigma a b csa csb k v :
  rep m sigma -> a <> b ->
  sigma !! a = Some (csa, Z.of_nat (length csa)) ->
  sigma !! b = Some (csb, Z.of_nat (length csb)) ->
  (k <= length csb)%nat ->
  match InsertAfter a (mkIter (pos_ptr b csb k)) v m with
  | Ok it m' =>
      traverse a m' = Ok csa.*2 m' /\
      GetSize a m' = Ok (Z.of_nat (length csa) + 1)%Z m' /\
      traverse b m' = Ok (take k csb.*2 ++ v :: drop k csb.*2) m' /\
      GetSize b m' = Ok (Z.of_nat (length csb)) m' /\
      deref it m' = Ok v m' /\
      ~ well_formed m' a /\ ~ well_formed m' b
  | BadAlloc m' => heap m' = heap m /\ lists m' = lists m /\ ~ supply 1 m
  | _ => False
  end.
Proof.
  intros Hrep Hne Ha Hb Hk. unfold InsertAfter. simpl.
  rewrite (bind_Ok _ _ _ _ _ (rep_get_next _ _ b csb _ k Hrep Hb Hk)).
  unfold bind at 1.
  pose proof (rep_new_Node m sigma v (first_ptr (drop k csb)) Hrep) as Hnew.
  destruct (new_Node v (first_ptr (drop k csb)) m) as [p m1|m1| |]; try done.
  2:{ destruct Hnew as (Hh & Hls & Hno). split; [done|]. split; [done|]. apply Hno. }
  destruct Hnew as (n & -> & Hr & Hfresh & Hh1 & Hls1 & Hrep1 & _).
  destruct (rep_link m1 sigma b csb _ k n v Hrep1 Hb Hk) as
    (m2 & Hset & Hrep2 & _); try done.
  { by rewrite Hh1, lookup_insert_eq. }
  { intros l' cs' s' Hl'. exact (rep_fresh _ _ _ _ _ _ Hrep Hl' Hfresh). }
  rewrite (bind_Ok _ _ _ _ _ Hset).
  set (new := take k csb ++ (n, v) :: drop k csb) in *.
  assert (<[b := (new, Z.of_nat (length csb))]> sigma !! a =
          Some (csa, Z.of_nat (length csa))) as Ha2 by (by rewrite lookup_insert_ne).
  destruct (rep_incr_size m2 _ a _ _ Hrep2 Ha2) as (m3 & Hinc & Hrep3 & _).
  rewrite (bind_Ok _ _ _ _ _ Hinc).
  pose proof (rep_count_bound _ _ _ _ _ Hrep2 (lookup_insert_eq _ _ _)) as Hbound.
  assert (length new = S (length csb)) as Hlen.
  { unfold new. rewrite length_app, length_take. simpl. rewrite length_drop. lia. }
  rewrite Hlen in Hbound.
  pose proof (rep_count_bound _ _ _ _ _ Hrep Ha) as Hbounda.
  set (sigma3 := <[a := (csa, to_size_t (Z.of_nat (length csa) + 1))]>
                   (<[b := (new, Z.of_nat (length csb))]> sigma)) in *.
  assert (sigma3 !! a = Some (csa, to_size_t (Z.of_nat (length csa) + 1))) as Ha3
    by apply lookup_insert_eq.
  assert (sigma3 !! b = Some (new, Z.of_nat (length csb))) as Hb3.
  { unfold sigma3. rewrite lookup_insert_ne by done. apply lookup_insert_eq. }
  rewrite <- (pos_ptr_prefix b csb k ((n, v) :: drop k csb)) by done. fold new.
  rewrite (bind_Ok _ _ _ _ _ (rep_get_next _ _ b new _ k Hrep3 Hb3 ltac:(lia))).
  unfold new at 1. rewrite drop_prefix by done. simpl. unfold ret.
  pose proof (rep_traverse _ _ _ _ _ Hrep3 Ha3) as [Htra Hsza].
  pose proof (rep_traverse _ _ _ _ _ Hrep3 Hb3) as [Htrb Hszb].
  destruct (rep_lookup _ _ _ _ _ Hrep3 Ha3) as (_ & _ & _ & _ & _ & Hra & Hnda).
  destruct (rep_lookup _ _ _ _ _ Hrep3 Hb3) as (_ & _ & _ & _ & _ & Hrb & Hndb).
  assert (Z.of_nat (length csa) + 1 < 2 ^ SIZE_WIDTH)%Z as Hroom.
  { pose proof (in_range_length (csa.*1 ++ new.*1)) as Hcount.
    rewrite length_app, !length_fmap, Hlen in Hcount.
    assert (NoDup (csa.*1 ++ new.*1)) as Hnd.
    { apply NoDup_app. split; [done|]. split; [|done].
      intros x Hx1 Hx2. destruct Hrep3 as [_ Hdisj].
      exact (Hdisj _ _ _ _ _ _ Hne Ha3 Hb3 x Hx1 Hx2). }
    specialize (Hcount Hnd ltac:(by apply Forall_app)). lia. }
  rewrite to_size_t_small in Hsza, Ha3 by lia.
  split; [done|]. split; [done|]. split.
  { rewrite Htrb. unfold new.
    by rewrite fmap_app, fmap_cons, fmap_take, fmap_drop. }
  split; [done|]. split.
  { assert (new !! k = Some (n, v)) as Hnk by (by apply splice_lookup).
    exact (proj1 (rep_deref _ _ _ _ _ _ _ Hrep3 Hb3 Hnk)). }
  split.
  - apply (rep_not_well_formed _ _ _ _ _ Hrep3 Ha3). lia.
  - apply (rep_not_well_formed _ _ _ _ _ Hrep3 Hb3). lia.
Qed.

End Foreign.

(** * No node is leaked or shared

    In the memories a program can reach, the heap holds the nodes of the
    live lists and nothing else. *)

Section Ownership.
Context {T : Type} {E : Element T}.
Implicit Types (m : Memory T) (sigma : gmap nat (list (Z * T) * Z)).
Implicit Types (cs : list (Z * T)).

Lemma owned_described m sigma b :
  rep m sigma -> dom sigma = dom (lists m) -> owned m -> is_Some (heap m !! b) ->
  exists l cs s, sigma !! l = Some (cs, s) /\ b ∈ cs.*1.
Proof.
  intros Hrep Hdom Hown Hb. destruct (Hown b Hb) as (l & cs & s & Hat & Hin).
  destruct (Inv_live m sigma l Hrep Hdom) as (cs1 & s1 & Hl).
  { destruct Hat as (o & Ho & _). by eexists. }
  destruct (list_at_inj _ _ _ _ _ _ Hat (rep_list_at _ _ _ _ _ Hrep Hl)) as [<- <-].
  by exists l, cs, s.
Qed.

Lemma owned_update m m' sigma l cs' s' :
  rep m sigma -> dom sigma = dom (lists m) -> owned m ->
  rep m' (<[l := (cs', s')]> sigma) ->
  (forall b, is_Some (heap m' !! b) ->
     b ∈ cs'.*1 \/
     (is_Some (heap m !! b) /\ forall cs s, sigma !! l = Some (cs, s) -> b ∉ cs.*1)) ->
  owned m'.
Proof.
  intros Hrep Hdom Hown Hrep' Hheap b Hb. destruct (Hheap b Hb) as [Hin|[Hlive Hout]].
  - exists l, cs', s'. split; [|done].
    exact (rep_list_at _ _ _ _ _ Hrep' (lookup_insert_eq _ _ _)).
  - destruct (owned_described _ _ _ Hrep Hdom Hown Hlive) as (l0 & cs0 & s0 & Hl0 & Hin).
    assert (l0 <> l) as Hne by (intros ->; by apply (Hout _ _ Hl0)).
    exists l0, cs0, s0. split; [|done].
    apply (rep_list_at _ _ _ _ _ Hrep'). by rewrite lookup_insert_ne.
Qed.

Lemma owned_delete m m' sigma l cs s :
  rep m sigma -> dom sigma = dom (lists m) -> owned m ->
  rep m' (delete l sigma) -> sigma !! l = Some (cs, s) ->
  (forall b, is_Some (heap m' !! b) -> is_Some (heap m !! b) /\ b ∉ cs.*1) ->
  owned m'.
Proof.
  intros Hrep Hdom Hown Hrep' Hl Hheap b Hb. destruct (Hheap b Hb) as [Hlive Hout].
  destruct (owned_described _ _ _ Hrep Hdom Hown Hlive) as (l0 & cs0 & s0 & Hl0 & Hin).
  assert (l0 <> l) as Hne by (intros ->; congruence).
  exists l0, cs0, s0. split; [|done].
  apply (rep_list_at _ _ _ _ _ Hrep'). by rewrite lookup_delete_ne.
Qed.

Lemma owned_swap m m' sigma a b xa xb :
  rep m sigma -> dom sigma = dom (lists m) -> owned m ->
  rep m' (<[a := xb]> (<[b := xa]> sigma)) ->
  sigma !! a = Some xa -> sigma !! b = Some xb -> heap m' = heap m ->
  owned m'.
Proof.
  intros Hrep Hdom Hown Hrep' Ha Hb Hh n Hn. rewrite Hh in Hn.
  destruct (owned_described _ _ _ Hrep Hdom Hown Hn) as (l0 & cs0 & s0 & Hl0 & Hin).
  destruct (decide (l0 = b)) as [->|Hneb].
  - exists a, cs0, s0. split; [|done]. apply (rep_list_at _ _ _ _ _ Hrep').
    rewrite lookup_insert_eq. congruence.
  - destruct (decide (l0 = a)) as [->|Hnea].
    + exists b, cs0, s0. split; [|done]. apply (rep_list_at _ _ _ _ _ Hrep').
      rewrite lookup_insert_ne by done. rewrite lookup_insert_eq. congruence.
    + exists l0, cs0, s0. split; [|done]. apply (rep_list_at _ _ _ _ _ Hrep').
      by rewrite !lookup_insert_ne.
Qed.

Lemma owned_eq m m' :
  heap m' = heap m -> lists m' = lists m -> owned m -> owned m'.
Proof.
  intros Hh Hls Hown b Hb. rewrite Hh in Hb.
  destruct (Hown b Hb) as (l & cs & s & Hat & Hin). exists l, cs, s. split; [|done].
  apply (list_at_frame m); [done|by rewrite Hls|]. intros; by rewrite Hh.
Qed.

(** What [PushFront] and [InsertAfter] allocate: the one node that the list
    gains. *)
Lemma InsertAfter_heap m sigma l cs s k v it m' :
  rep m sigma -> sigma !! l = Some (cs, s) -> (k <= length cs)%nat ->
  InsertAfter l (mkIter (pos_ptr l cs k)) v m = Ok it m' ->
  exists a,
    rep m' (<[l := (take k cs ++ (a, v) :: drop k cs, to_size_t (s + 1))]> sigma) /\
    dom (heap m') = {[a]} ∪ dom (heap m).
Proof.
  intros Hrep Hl Hk Hrun.
  pose proof (InsertAfter_rep _ _ _ _ _ k v Hrep Hl Hk) as Hins. rewrite Hrun in Hins.
  destruct Hins as (a & _ & Hfresh & Hrep' & _). exists a. split; [done|].
  unfold InsertAfter in Hrun.
  apply bind_inv in Hrun as (after & m1 & H1 & Hrun).
  pose proof (get_next_inv _ _ _ _ H1) as ->.
  apply bind_inv in Hrun as (p & m2 & H2 & Hrun).
  apply new_Node_inv in H2 as (a' & -> & _ & Hh2 & _).
  apply bind_inv in Hrun as ([] & m3 & H3 & Hrun).
  apply set_next_inv in H3 as (_ & Hd3 & _).
  apply bind_inv in Hrun as ([] & m4 & H4 & Hrun).
  apply incr_size_inv in H4 as (Hh4 & _).
  apply bind_inv in Hrun as (r & m5 & H5 & Hrun).
  pose proof (get_next_inv _ _ _ _ H5) as ->.
  unfold ret in Hrun. injection Hrun as _ <-.
  assert (dom (heap m4) = {[a']} ∪ dom (heap m)) as Hdom.
  { by rewrite Hh4, Hd3, Hh2, dom_insert_L. }
  destruct (rep_lookup _ _ _ _ _ Hrep' (lookup_insert_eq _ _ _))
    as (_ & _ & _ & _ & Hlk & _).
  assert (a ∈ dom (heap m4)) as Ha.
  { apply elem_of_dom, (linked_dom _ _ _ Hlk). rewrite fmap_app, fmap_cons.
    apply elem_of_app. right. apply list_elem_of_here. }
  rewrite Hdom in Ha. apply elem_of_union in Ha as [Ha|Ha].
  - apply elem_of_singleton in Ha as ->. done.
  - apply elem_of_dom in Ha as [n Hn]. congruence.
Qed.

Lemma PushFront_heap m sigma l cs s v m' :
  rep m sigma -> sigma !! l = Some (cs, s) -> PushFront l v m = Ok tt m' ->
  exists a,
    rep m' (<[l := ((a, v) :: cs, to_size_t (s + 1))]> sigma) /\
    dom (heap m') = {[a]} ∪ dom (heap m).
Proof.
  intros Hrep Hl Hrun.
  pose proof (PushFront_rep _ _ _ _ _ v Hrep Hl) as Hins. rewrite Hrun in Hins.
  destruct Hins as (a & Hfresh & Hrep' & _). exists a. split; [done|].
  unfold PushFront in Hrun.
  apply bind_inv in Hrun as (after & m1 & H1 & Hrun).
  pose proof (get_next_inv _ _ _ _ H1) as ->.
  apply bind_inv in Hrun as (p & m2 & H2 & Hrun).
  apply new_Node_inv in H2 as (a' & -> & _ & Hh2 & _).
  apply bind_inv in Hrun as ([] & m3 & H3 & Hrun).
  apply set_next_inv in H3 as (_ & Hd3 & _).
  apply incr_size_inv in Hrun as (Hh4 & _).
  assert (dom (heap m') = {[a']} ∪ dom (heap m)) as Hdom.
  { by rewrite Hh4, Hd3, Hh2, dom_insert_L. }
  destruct (rep_lookup _ _ _ _ _ Hrep' (lookup_insert_eq _ _ _))
    as (_ & _ & _ & _ & Hlk & _).
  assert (a ∈ dom (heap m')) as Ha.
  { apply elem_of_dom, (linked_dom _ _ _ Hlk). rewrite fmap_cons.
    apply list_elem_of_here. }
  rewrite Hdom in Ha. apply elem_of_union in Ha as [Ha|Ha].
  - apply elem_of_singleton in Ha as ->. done.
  - apply elem_of_dom in Ha as [n Hn]. congruence.
Qed.

Lemma elem_of_splice cs k (c : Z * T) b :
  b ∈ cs.*1 -> b ∈ (take k cs ++ c :: drop k cs).*1.
Proof.
  intros Hb. rewrite <- (take_drop k cs) in Hb.
  rewrite fmap_app in Hb. rewrite fmap_app, fmap_cons.
  apply elem_of_app in Hb as [Hb|Hb]; apply elem_of_app; [by left|right].
  by apply list_elem_of_further.
Qed.

Lemma elem_of_unsplice cs k (c : Z * T) b :
  cs !! k = Some c -> b ∈ cs.*1 -> b <> c.1 -> b ∈ (take k cs ++ drop (S k) cs).*1.
Proof.
  intros Hk Hb Hne. rewrite <- (take_drop_middle _ _ _ Hk) in Hb.
  rewrite fmap_app, fmap_cons in Hb. rewrite fmap_app.
  apply elem_of_app in Hb as [Hb|Hb]; apply elem_of_app; [by left|right].
  by apply elem_of_cons in Hb as [?|?].
Qed.

Lemma owned_step m m' : Inv m -> owned m -> step m m' -> owned m'.
Proof.
  intros (sigma & Hrep & Hdom & Hsz) Hown Hstep.
  destruct Hstep as [Hf|V Hf|other Hlive Hf|this rhs Ht Hr Hf|a b Ha Hb Hf|a b Ha Hb Hf
                    |l v Hl Hf|l pos v Hpos Hf|l Hl Hf|l pos Hpos Hf|l Hl Hf|l Hl Hf
                    |It R b e V fuel l Hat Hy Hfuel Hinit].
  - unfold declare in Hf.
    destruct (SingleLinkedList_default_rep m sigma _ Hrep (fresh_dead m))
      as (m1 & Hd & Hrep1 & Hh1 & Hls1 & _).
    rewrite (bind_Ok _ _ _ _ _ Hd) in Hf. injection Hf as <-.
    apply (owned_update m m1 sigma _ [] 0%Z Hrep Hdom Hown Hrep1).
    intros b0 Hb0. right. rewrite Hh1 in Hb0. split; [done|].
    intros cs s Hl. by rewrite (rep_dead _ _ _ Hrep (fresh_dead m)) in Hl.
  - unfold declare, bind in Hf.
    pose proof (SingleLinkedList_ilist_exact m sigma _ V Hrep (fresh_dead m)) as Hc.
    destruct (SingleLinkedList_ilist _ V m) as [u m1|m1| |]; try done;
      injection Hf as <-.
    + destruct Hc as (cs & _ & Hrep1 & _ & Hfr & _).
      apply (owned_update m m1 sigma _ cs _ Hrep Hdom Hown Hrep1).
      intros b0 Hb0. destruct (decide (b0 ∈ cs.*1)) as [Hin|Hin]; [by left|right].
      rewrite Hfr in Hb0 by done. split; [done|].
      intros cs0 s0 Hl. by rewrite (rep_dead _ _ _ Hrep (fresh_dead m)) in Hl.
    + destruct Hc as [Hh Hls]. by apply (owned_eq m).
  - unfold declare, bind in Hf.
    destruct (Inv_live _ _ _ Hrep Hdom Hlive) as (cs0 & s0 & Hother).
    pose proof (SingleLinkedList_copy_exact m sigma _ other cs0 s0 Hrep
                  (fresh_dead m) Hother) as Hc.
    destruct (SingleLinkedList_copy _ other m) as [u m1|m1| |]; try done;
      injection Hf as <-.
    + destruct Hc as (cs & _ & Hrep1 & _ & Hfr & _).
      apply (owned_update m m1 sigma _ cs _ Hrep Hdom Hown Hrep1).
      intros b0 Hb0. destruct (decide (b0 ∈ cs.*1)) as [Hin|Hin]; [by left|right].
      rewrite Hfr in Hb0 by done. split; [done|].
      intros cs1 s1 Hl. by rewrite (rep_dead _ _ _ Hrep (fresh_dead m)) in Hl.
    + destruct Hc as [Hh Hls]. by apply (owned_eq m).
  - destruct (decide (this = rhs)) as [->|Hne].
    + rewrite assign_self in Hf. by injection Hf as <-.
    + destruct (Inv_live _ _ _ Hrep Hdom Ht) as (cst & st & Hthis).
      destruct (Inv_live _ _ _ Hrep Hdom Hr) as (csr & sr & Hrhs).
      pose proof (assign_exact m sigma this rhs _ _ _ _ Hrep Hthis Hrhs Hne) as Hc.
      destruct (assign this rhs m) as [u m1|m1| |]; try done; injection Hf as <-.
      * destruct Hc as (cs & _ & Hrep1 & _ & Hgone & Hfr & _).
        apply (owned_update m m1 sigma _ cs _ Hrep Hdom Hown Hrep1).
        intros b0 Hb0. destruct (decide (b0 ∈ cs.*1)) as [Hin|Hin]; [by left|right].
        assert (b0 ∉ cst.*1) as Hout.
        { intros Hin'. rewrite (Hgone _ Hin') in Hb0. by destruct Hb0. }
        rewrite Hfr in Hb0 by done. split; [done|].
        intros cs1 s1 Hl. rewrite Hthis in Hl. by injection Hl as <- <-.
      * destruct Hc as [Hh Hls]. by apply (owned_eq m).
  - destruct (Inv_live _ _ _ Hrep Hdom Ha) as (csa & sa & Hla).
    destruct (Inv_live _ _ _ Hrep Hdom Hb) as (csb & sb & Hlb).
    destruct (rep_swap _ _ _ _ _ _ Hrep Hla Hlb) as (m1 & Hsw & Hrep1 & Hh1 & _).
    rewrite Hsw in Hf. injection Hf as <-.
    exact (owned_swap _ _ _ _ _ _ _ Hrep Hdom Hown Hrep1 Hla Hlb Hh1).
  - unfold swap_free in Hf.
    destruct (Inv_live _ _ _ Hrep Hdom Ha) as (csa & sa & Hla).
    destruct (Inv_live _ _ _ Hrep Hdom Hb) as (csb & sb & Hlb).
    destruct (rep_swap _ _ _ _ _ _ Hrep Hla Hlb) as (m1 & Hsw & Hrep1 & Hh1 & _).
    rewrite Hsw in Hf. injection Hf as <-.
    exact (owned_swap _ _ _ _ _ _ _ Hrep Hdom Hown Hrep1 Hla Hlb Hh1).
  - destruct (Inv_live _ _ _ Hrep Hdom Hl) as (cs & s & Hlk).
    pose proof (PushFront_rep m sigma l cs s v Hrep Hlk) as Hc.
    destruct (PushFront l v m) as [[] m1|m1| |] eqn:Hrun; try done; injection Hf as <-.
    + destruct (PushFront_heap _ _ _ _ _ _ _ Hrep Hlk Hrun) as (a & Hrep1 & Hd1).
      apply (owned_update m m1 sigma _ _ _ Hrep Hdom Hown Hrep1).
      intros b0 Hb0. apply elem_of_dom in Hb0. rewrite Hd1 in Hb0.
      apply elem_of_union in Hb0 as [->%elem_of_singleton|Hb0].
      { left. rewrite fmap_cons. apply list_elem_of_here. }
      destruct (decide (b0 ∈ cs.*1)) as [Hin|Hin].
      { left. rewrite fmap_cons. by apply list_elem_of_further. }
      right. split; [by apply elem_of_dom|].
      intros cs1 s1 Hl1. rewrite Hlk in Hl1. by injection Hl1 as <- <-.
    + destruct Hc as (Hh & Hls & _). by apply (owned_eq m).
  - destruct (Inv_valid_position _ _ _ _ Hrep Hdom Hpos) as (cs & s & k & Hlk & Hk & ->).
    pose proof (InsertAfter_rep m sigma l cs s k v Hrep Hlk Hk) as Hc.
    destruct (InsertAfter l _ v m) as [it m1|m1| |] eqn:Hrun; try done;
      injection Hf as <-.
    + destruct (InsertAfter_heap _ _ _ _ _ _ _ _ _ Hrep Hlk Hk Hrun) as (a & Hrep1 & Hd1).
      apply (owned_update m m1 sigma _ _ _ Hrep Hdom Hown Hrep1).
      intros b0 Hb0. apply elem_of_dom in Hb0. rewrite Hd1 in Hb0.
      apply elem_of_union in Hb0 as [->%elem_of_singleton|Hb0].
      { left. rewrite fmap_app, fmap_cons. apply elem_of_app. right.
        apply list_elem_of_here. }
      destruct (decide (b0 ∈ cs.*1)) as [Hin|Hin].
      { left. by apply elem_of_splice. }
      right. split; [by apply elem_of_dom|].
      intros cs1 s1 Hl1. rewrite Hlk in Hl1. by injection Hl1 as <- <-.
    + destruct Hc as (Hh & Hls & _). by apply (owned_eq m).
  - destruct (Inv_live _ _ _ Hrep Hdom Hl) as (cs & s & Hlk).
    destruct cs as [|c cs].
    { by rewrite (PopFront_empty _ _ _ _ Hrep Hlk) in Hf. }
    destruct (PopFront_rep _ _ _ _ _ _ Hrep Hlk) as (m1 & Hpop & Hrep1 & _).
    destruct (rep_lookup _ _ _ _ _ Hrep Hlk) as (o & Ho & _ & Hnext & [Hc _] & _).
    pose proof (PopFront_exact _ _ _ _ _ Ho Hnext Hc) as Hex.
    rewrite Hpop in Hex. injection Hex as Hm1.
    rewrite Hpop in Hf. injection Hf as <-.
    apply (owned_update m m1 sigma _ _ _ Hrep Hdom Hown Hrep1).
    intros b0 Hb0. rewrite Hm1 in Hb0. simpl in Hb0.
    destruct (decide (b0 = c.1)) as [->|Hne].
    { rewrite lookup_delete_eq in Hb0. by destruct Hb0. }
    rewrite lookup_delete_ne in Hb0 by done.
    destruct (decide (b0 ∈ cs.*1)) as [Hin|Hin]; [by left|right]. split; [done|].
    intros cs1 s1 Hl1. rewrite Hlk in Hl1. injection Hl1 as <- <-.
    rewrite fmap_cons. by intros [?|?]%elem_of_cons.
  - destruct (Inv_valid_position _ _ _ _ Hrep Hdom Hpos) as (cs & s & k & Hlk & Hk & ->).
    destruct (cs !! k) as [c|] eqn:Hc.
    2:{ apply lookup_ge_None in Hc. assert (k = length cs) as -> by lia.
        by rewrite (EraseAfter_last _ _ _ _ _ Hrep Hlk) in Hf. }
    destruct (EraseAfter_rep _ _ _ _ _ _ _ Hrep Hlk Hc) as (m1 & Her & Hrep1 & _).
    destruct (EraseAfter_heap _ _ _ _ _ _ _ _ _ Hrep Hlk Hc Her) as (Hd1 & _).
    rewrite Her in Hf. injection Hf as <-.
    apply (owned_update m m1 sigma _ _ _ Hrep Hdom Hown Hrep1).
    intros b0 Hb0. apply elem_of_dom in Hb0. rewrite Hd1 in Hb0.
    apply elem_of_difference in Hb0 as [Hb0 Hne].
    assert (b0 <> c.1) as Hne' by (intros ->; apply Hne; by apply elem_of_singleton).
    destruct (decide (b0 ∈ cs.*1)) as [Hin|Hin].
    { left. by apply (elem_of_unsplice _ _ c). }
    right. split; [by apply elem_of_dom|].
    intros cs1 s1 Hl1. rewrite Hlk in Hl1. by injection Hl1 as <- <-.
  - destruct (Inv_live _ _ _ Hrep Hdom Hl) as (cs & s & Hlk).
    destruct (Clear_rep _ _ _ _ _ Hrep Hlk) as (m1 & Hcl & Hrep1 & _).
    destruct (Clear_heap _ _ _ _ _ _ Hrep Hlk Hcl) as (Hh1 & _).
    rewrite Hcl in Hf. injection Hf as <-.
    apply (owned_update m m1 sigma _ _ _ Hrep Hdom Hown Hrep1).
    intros b0 Hb0. right. rewrite Hh1 in Hb0.
    destruct (decide (b0 ∈ cs.*1)) as [Hin|Hin]; [by destruct Hb0|].
    split; [done|]. intros cs1 s1 Hl1. rewrite Hlk in Hl1. by injection Hl1 as <- <-.
  - destruct (Inv_live _ _ _ Hrep Hdom Hl) as (cs & s & Hlk).
    destruct (destructor_exact _ _ _ _ _ Hrep Hlk) as (m1 & Hd & Hrep1 & Hh1 & _).
    rewrite Hd in Hf. injection Hf as <-.
    apply (owned_delete m m1 sigma l cs s Hrep Hdom Hown Hrep1 Hlk).
    intros b0 Hb0. rewrite Hh1 in Hb0.
    destruct (decide (b0 ∈ cs.*1)) as [Hin|Hin]; [by destruct Hb0|done].
  - destruct (Inv_live m sigma l Hrep Hdom) as (cs & s & Hlk).
    { destruct Hat as (o & Ho & _). by eexists. }
    destruct (list_at_inj _ _ _ _ _ _ Hat (rep_list_at _ _ _ _ _ Hrep Hlk)) as [<- <-].
    pose proof (Init_loop_exact fuel (heap m) m sigma l [] 0%Z b e V Hrep Hlk
                  ltac:(done) Hy ltac:(done)) as Hloop.
    simpl in Hloop. unfold Init in Hinit. rewrite Hinit in Hloop.
    destruct Hloop as (cs1 & _ & Hrep1 & _ & Hfr & _); [|done|].
    { intros a Ha. by apply elem_of_nil in Ha. }
    apply (owned_update m m' sigma _ _ _ Hrep Hdom Hown Hrep1).
    intros b0 Hb0. destruct (decide (b0 ∈ cs1.*1)) as [Hin|Hin]; [by left|right].
    rewrite Hfr in Hb0 by done. split; [done|].
    intros cs2 s2 Hl2. rewrite Hlk in Hl2. injection Hl2 as <- <-.
    by intros ?%elem_of_nil.
Qed.

Lemma reachable_owned m : reachable m -> owned m.
Proof.
  induction 1 as [r|m0 m1 Hreach IH Hstep].
  - intros a [n Hn]. simpl in Hn. by rewrite lookup_empty in Hn.
  - apply (owned_step m0); [by apply reachable_Inv|done|done].
Qed.

(** X22. No node is leaked and no node is shared.  In every memory a
    program can reach with the public operations (constructors, destructor,
    assignment, [swap], [PushFront], [InsertAfter], [PopFront],
    [EraseAfter], [Clear], whether they return or throw, and [Init] on an
    empty list when it returns), every allocated node is an element of a
    live list, and of one list only. *)
Theorem no_leak m a :
  reachable m -> is_Some (heap m !! a) ->
  exists l cs s,
    list_at m l cs s /\ a ∈ cs.*1 /\
    forall l' cs' s', list_at m l' cs' s' -> a ∈ cs'.*1 -> l' = l.
Proof.
  intros Hreach Ha.
  destruct (reachable_Inv _ Hreach) as (sigma & Hrep & Hdom & _).
  destruct (owned_described _ _ _ Hrep Hdom (reachable_owned _ Hreach) Ha)
    as (l & cs & s & Hl & Hin).
  exists l, cs, s. split; [exact (rep_list_at _ _ _ _ _ Hrep Hl)|]. split; [done|].
  intros l' cs' s' Hat' Hin'.
  destruct (Inv_live m sigma l' Hrep Hdom) as (cs1 & s1 & Hl').
  { destruct Hat' as (o & Ho & _). by eexists. }
  destruct (list_at_inj _ _ _ _ _ _ Hat' (rep_list_at _ _ _ _ _ Hrep Hl')) as [<- <-].
  destruct (decide (l' = l)) as [->|Hne]; [done|].
  destruct Hrep as [_ Hdisj]. by destruct (Hdisj _ _ _ _ _ _ Hne Hl' Hl a).
Qed.

End Ownership.

(** * The further properties at work on [SingleLinkedList<int>] *)

Lemma PushFront_spec_witness :
  rep ex_two ex_sigma /\ ex_sigma !! 0%nat = Some (ex_cells_a, 3%Z) /\
  match PushFront 0 7%Z ex_two with
  | Ok _ m' =>
      exists a,
        heap ex_two !! a = None /\
        begin 0 m' = Ok (mkIter (HeapNode a)) m' /\
        deref (mkIter (HeapNode a)) m' = Ok 7%Z m' /\
        rep m' (<[0%nat := ((a, 7%Z) :: ex_cells_a, to_size_t (3 + 1))]> ex_sigma) /\
        traverse 0 m' = Ok (7%Z :: ex_cells_a.*2) m' /\
        GetSize 0 m' = Ok (to_size_t (3 + 1)) m'
  | BadAlloc m' =>
      heap m' = heap ex_two /\ lists m' = lists ex_two /\ ~ supply 1 ex_two
  | _ => False
  end.
Proof.
  pose proof (PushFront_spec ex_two ex_sigma 0%nat ex_cells_a 3%Z 7%Z
                ex_rep ex_lookup_a) as Hpush.
  split; [exact ex_rep|]. split; [exact ex_lookup_a|]. exact Hpush.
Defined.

Lemma ex_object_a :
  lists ex_two !! 0%nat = Some (mkList (mkNode 0%Z (HeapNode 16)) 3).
Proof. vm_compute. reflexivity. Qed.

Lemma PushFront_then_PopFront_witness :
  lists ex_two !! 0%nat = Some (mkList (mkNode 0%Z (HeapNode 16)) 3) /\
  (0 <= 3 < 2 ^ SIZE_WIDTH)%Z /\
  exists m1,
    PushFront 0 7%Z ex_two = Ok tt m1 /\
    PopFront 0 m1 = Ok tt (with_new_results ex_two (tail (new_results ex_two))).
Proof.
  assert (0 <= 3 < 2 ^ SIZE_WIDTH)%Z as Hs by (unfold SIZE_WIDTH; lia).
  pose proof (PushFront_then_PopFront ex_two 0%nat _ 7%Z ex_object_a Hs) as Hround.
  split; [exact ex_object_a|]. split; [exact Hs|].
  destruct (PushFront 0 7%Z ex_two) as [[] m1|m1| |] eqn:Hrun.
  - exists m1. split; [reflexivity|]. exact (proj2 Hround).
  - exfalso. vm_compute in Hrun. discriminate Hrun.
  - exfalso. exact Hround.
  - exfalso. exact Hround.
Defined.

Lemma PopFront_spec_witness :
  rep ex_two ex_sigma /\ ex_sigma !! 0%nat = Some (ex_cells_a, 3%Z) /\
  exists m',
    PopFront 0 ex_two = Ok tt m' /\
    traverse 0 m' = Ok [2; 3]%Z m' /\
    GetSize 0 m' = Ok (to_size_t (3 - 1)) m' /\
    heap m' = delete 16%Z (heap ex_two) /\
    deref (mkIter (HeapNode 16)) m' = UB.
Proof.
  pose proof (PopFront_spec ex_two ex_sigma 0%nat ex_cells_a 3%Z ex_rep ex_lookup_a)
    as Hpop.
  cbv delta [ex_cells_a] iota beta in Hpop.
  destruct Hpop as (m' & H1 & _ & H3 & H4 & H5 & _ & _ & H8).
  split; [exact ex_rep|]. split; [exact ex_lookup_a|].
  exists m'. split; [exact H1|]. split; [exact H3|]. split; [exact H4|].
  split; [exact H5|]. exact H8.
Defined.

Lemma EraseAfter_spec_witness :
  rep ex_two ex_sigma /\ ex_sigma !! 0%nat = Some (ex_cells_a, 3%Z) /\
  exists m',
    EraseAfter 0 (mkIter (HeapNode 16)) ex_two = Ok (mkIter (HeapNode 48)) m' /\
    traverse 0 m' = Ok [1; 3]%Z m' /\
    deref (mkIter (HeapNode 48)) m' = Ok 3%Z m' /\
    deref (mkIter (HeapNode 32)) m' = UB /\
    deref (mkIter (HeapNode 16)) m' = Ok 1%Z m'.
Proof.
  pose proof (EraseAfter_spec ex_two ex_sigma 0%nat ex_cells_a 3%Z 1%nat
                ex_rep ex_lookup_a) as Herase.
  change (ex_cells_a !! 1%nat) with (Some (32, 2)%Z) in Herase.
  cbv iota beta in Herase.
  destruct Herase as (m' & H1 & _ & H3 & _ & H5 & _ & _ & H8 & H9).
  split; [exact ex_rep|]. split; [exact ex_lookup_a|].
  exists m'. split; [exact H1|]. split; [exact H5|].
  split; [exact (proj2 (H3 (48, 3)%Z eq_refl))|]. split; [exact H8|].
  exact (H9 0%nat (16, 1)%Z ltac:(discriminate) eq_refl).
Defined.

Lemma InsertAfter_keeps_iterators_witness :
  rep ex_two ex_sigma /\ ex_sigma !! 0%nat = Some (ex_cells_a, 3%Z) /\
  (1 <= length ex_cells_a)%nat /\
  InsertAfter 0 (mkIter (pos_ptr 0 ex_cells_a 1)) 10%Z ex_two =
    Ok (mkIter (HeapNode 96)) ex_inserted /\
  deref (mkIter (HeapNode 32)) ex_inserted = Ok 2%Z ex_inserted /\
  pre_incr (mkIter (HeapNode 16)) ex_inserted = Ok (mkIter (HeapNode 96)) ex_inserted /\
  pre_incr (mkIter (HeapNode 64)) ex_inserted = Ok (mkIter (HeapNode 80)) ex_inserted.
Proof.
  assert (1 <= length ex_cells_a)%nat as Hk by (simpl; lia).
  pose proof (InsertAfter_keeps_iterators ex_two ex_sigma 0%nat ex_cells_a 3%Z 1%nat
                10%Z _ _ ex_rep ex_lookup_a Hk ex_insert) as Hkeep.
  pose proof (Hkeep 0%nat ex_cells_a 3%Z 1%nat (32, 2)%Z ex_lookup_a eq_refl)
    as (_ & H1 & _ & _).
  pose proof (Hkeep 0%nat ex_cells_a 3%Z 0%nat (16, 1)%Z ex_lookup_a eq_refl)
    as (_ & _ & _ & H2).
  pose proof (Hkeep 1%nat ex_cells_b 2%Z 0%nat (64, 1)%Z ex_lookup_b eq_refl)
    as (_ & _ & _ & H3).
  rewrite decide_True in H2 by done. rewrite decide_False in H3 by (intros [? _]; done).
  split; [exact ex_rep|]. split; [exact ex_lookup_a|]. split; [exact Hk|].
  split; [exact ex_insert|]. split; [exact H1|]. split; [exact H2|]. exact H3.
Defined.

Lemma rep_one {T} (m : Memory T) l cs s :
  list_at m l cs s -> Forall in_range cs.*1 -> rep m {[l := (cs, s)]}.
Proof.
  intros Hat Hr. split.
  - intros l' cs' s' [<- [= <- <-]]%lookup_singleton_Some. by split.
  - intros l1 l2 cs1 s1 cs2 s2 Hne [<- _]%lookup_singleton_Some
      [<- _]%lookup_singleton_Some. done.
Qed.

Lemma ex_in_a : 16%Z ∈ ex_cells_a.*1.
Proof. simpl. apply list_elem_of_here. Qed.

Lemma ex_not_in_a : 64%Z ∉ ex_cells_a.*1.
Proof. simpl. rewrite !elem_of_cons, elem_of_nil. lia. Qed.

Lemma Clear_spec_witness :
  rep ex_two ex_sigma /\ ex_sigma !! 0%nat = Some (ex_cells_a, 3%Z) /\
  exists m',
    Clear 0 ex_two = Ok tt m' /\
    traverse 0 m' = Ok [] m' /\ GetSize 0 m' = Ok 0%Z m' /\
    IsEmpty 0 m' = Ok true m' /\ begin 0 m' = end_ 0 m' /\
    heap m' !! 16%Z = None /\ heap m' !! 64%Z = heap ex_two !! 64%Z /\
    Clear 0 m' = Ok tt m'.
Proof.
  destruct (Clear_spec ex_two ex_sigma 0%nat ex_cells_a 3%Z ex_rep ex_lookup_a)
    as (m' & H1 & _ & H3 & H4 & H5 & H6 & H7 & _ & _ & H10).
  pose proof (H7 16%Z) as Hgone. rewrite decide_True in Hgone by exact ex_in_a.
  pose proof (H7 64%Z) as Hkept. rewrite decide_False in Hkept by exact ex_not_in_a.
  split; [exact ex_rep|]. split; [exact ex_lookup_a|].
  exists m'. split; [exact H1|]. split; [exact H3|]. split; [exact H4|].
  split; [exact H5|]. split; [exact H6|]. split; [exact Hgone|].
  split; [exact Hkept|]. exact H10.
Defined.

Lemma destructor_spec_witness :
  rep ex_two ex_sigma /\ ex_sigma !! 0%nat = Some (ex_cells_a, 3%Z) /\
  exists m',
    destructor 0 ex_two = Ok tt m' /\
    rep m' (delete 0%nat ex_sigma) /\
    lists m' = delete 0%nat (lists ex_two) /\
    heap m' !! 16%Z = None /\ heap m' !! 64%Z = heap ex_two !! 64%Z /\
    GetSize 0 m' = UB.
Proof.
  destruct (destructor_spec ex_two ex_sigma 0%nat ex_cells_a 3%Z ex_rep ex_lookup_a)
    as (m' & H1 & H2 & H3 & H4 & _ & H6 & _).
  pose proof (H3 16%Z) as Hgone. rewrite decide_True in Hgone by exact ex_in_a.
  pose proof (H3 64%Z) as Hkept. rewrite decide_False in Hkept by exact ex_not_in_a.
  split; [exact ex_rep|]. split; [exact ex_lookup_a|].
  exists m'. split; [exact H1|]. split; [exact H2|]. split; [exact H4|].
  split; [exact Hgone|]. split; [exact Hkept|]. exact H6.
Defined.

(** An empty list and an allocator that has one node to give. *)
Definition ex_short : Memory Z := mkMemory ∅ (lists ex_empty) [Some 16%Z; None].

Lemma ex_rep_short : rep ex_short {[0%nat := ([], 0%Z)]}.
Proof. apply rep_one; [solve_list_at|constructor]. Qed.

Lemma ex_rep_one : rep ex_one {[0%nat := (ex_cells_a, 3%Z)]}.
Proof.
  apply rep_one; [solve_list_at|].
  repeat constructor; vm_compute; split; reflexivity.
Qed.

Lemma Init_throws_witness :
  rep ex_short {[0%nat := ([], 0%Z)]} /\
  ({[0%nat := ([], 0%Z)]} : gmap nat (list (Z * Z) * Z)) !! 0%nat = Some ([], 0%Z) /\
  (length [7; 8]%Z < 3)%nat /\
  exists m',
    Init 3 0 (il_begin [7; 8]%Z) (il_end [7; 8]%Z) ex_short = BadAlloc m' /\
    exists (cs : list (Z * Z)) (j : nat),
      (j < length [7; 8]%Z)%nat /\ length cs = j /\
      traverse 0 m' = Ok (take j [7; 8]%Z) m' /\
      GetSize 0 m' = Ok (to_size_t (Z.of_nat j + 1)) m' /\
      ~ well_formed m' 0.
Proof.
  assert (length [7; 8]%Z < 3)%nat as Hf by (simpl; lia).
  assert (exists m', Init 3 0 (il_begin [7; 8]%Z) (il_end [7; 8]%Z) ex_short
                     = BadAlloc m') as [m' Hrun]
    by (eexists; vm_compute; reflexivity).
  pose proof (Init_throws 3 ex_short _ 0%nat (il_begin [7; 8]%Z) (il_end [7; 8]%Z)
                [7; 8]%Z m' ex_rep_short (lookup_singleton_eq _ _)
                (array_yields _ [7; 8]%Z 0 (Nat.le_0_l _)) Hf Hrun)
    as (cs & j & H1 & _ & H3 & _ & H5 & H6 & _ & H8 & _).
  split; [exact ex_rep_short|]. split; [exact (lookup_singleton_eq _ _)|].
  split; [exact Hf|]. exists m'. split; [exact Hrun|].
  exists cs, j. split; [exact H1|]. split; [exact H3|]. split; [exact H5|].
  split; [exact H6|]. exact H8.
Defined.

Lemma Init_over_elements_witness :
  rep ex_one {[0%nat := (ex_cells_a, 3%Z)]} /\
  ({[0%nat := (ex_cells_a, 3%Z)]} : gmap nat (list (Z * Z) * Z)) !! 0%nat =
    Some (ex_cells_a, 3%Z) /\
  (1 < 2)%nat /\
  exists m',
    Init 2 0 (il_begin [7]%Z) (il_end [7]%Z) ex_one = Ok tt m' /\
    traverse 0 m' = Ok [7]%Z m' /\
    GetSize 0 m' = Ok (to_size_t (3 + 1 + 0)) m' /\
    heap m' !! 16%Z = heap ex_one !! 16%Z.
Proof.
  assert (1 < 2)%nat as Hf by lia.
  assert (exists m', Init 2 0 (il_begin [7]%Z) (il_end [7]%Z) ex_one = Ok tt m')
    as [m' Hrun] by (eexists; vm_compute; reflexivity).
  pose proof (Init_over_elements 2 ex_one _ 0%nat ex_cells_a 3%Z
                (il_begin [7]%Z) (il_end [7]%Z) 7%Z [] m' ex_rep_one
                (lookup_singleton_eq _ _)
                (array_yields _ [7]%Z 0 (Nat.le_0_l _)) Hf Hrun)
    as (cs1 & _ & _ & H3 & H4 & H5).
  split; [exact ex_rep_one|]. split; [exact (lookup_singleton_eq _ _)|].
  split; [exact Hf|]. exists m'. split; [exact Hrun|]. split; [exact H3|].
  split; [exact H4|]. exact (proj1 (H5 (16, 1)%Z (list_elem_of_here _ _))).
Defined.

Lemma ex_dead_2 : lists ex_two !! 2%nat = None.
Proof. vm_compute. reflexivity. Qed.

Lemma ilist_constructor_footprint_witness :
  rep ex_two ex_sigma /\ lists ex_two !! 2%nat = None /\
  match SingleLinkedList_ilist 2 [4; 5]%Z ex_two with
  | Ok _ m' =>
      exists cs : list (Z * Z), cs.*2 = [4; 5]%Z /\ NoDup cs.*1 /\
        rep m' (<[2%nat := (cs, Z.of_nat (length [4; 5]%Z))]> ex_sigma) /\
        (forall a, a ∈ cs.*1 -> heap ex_two !! a = None) /\
        (forall a, a ∉ cs.*1 -> heap m' !! a = heap ex_two !! a) /\
        (forall l', l' <> 2%nat -> lists m' !! l' = lists ex_two !! l')
  | BadAlloc m' => heap m' = heap ex_two /\ lists m' = lists ex_two
  | _ => False
  end.
Proof.
  pose proof (ilist_constructor_footprint ex_two ex_sigma 2%nat [4; 5]%Z
                ex_rep ex_dead_2) as Hctor.
  split; [exact ex_rep|]. split; [exact ex_dead_2|]. exact Hctor.
Defined.

Lemma copy_constructor_spec_witness :
  rep ex_two ex_sigma /\ lists ex_two !! 2%nat = None /\
  ex_sigma !! 1%nat = Some (ex_cells_b, Z.of_nat (length ex_cells_b)) /\
  match SingleLinkedList_copy 2 1 ex_two with
  | Ok _ m' =>
      traverse 2 m' = Ok ex_cells_b.*2 m' /\
      traverse 1 m' = Ok ex_cells_b.*2 m' /\
      GetSize 2 m' = Ok (Z.of_nat (length ex_cells_b)) m' /\
      exists cs : list (Z * Z),
        cs.*1 ## ex_cells_b.*1 /\ forall a, a ∈ cs.*1 -> heap ex_two !! a = None
  | BadAlloc m' =>
      heap m' = heap ex_two /\ lists m' = lists ex_two /\
      ~ supply (length ex_cells_b) ex_two
  | _ => False
  end.
Proof.
  pose proof (copy_constructor_spec ex_two ex_sigma 2%nat 1%nat ex_cells_b
                ex_rep ex_dead_2 ex_lookup_b) as Hcopy.
  split; [exact ex_rep|]. split; [exact ex_dead_2|]. split; [exact ex_lookup_b|].
  destruct (SingleLinkedList_copy 2 1 ex_two) as [u m'|m'| |].
  - destruct Hcopy as (cs & _ & _ & H3 & H4 & H5 & _ & H7 & H8 & _).
    split; [exact H3|]. split; [exact H4|]. split; [exact H5|].
    exists cs. split; [exact H7|exact H8].
  - exact Hcopy.
  - exact Hcopy.
  - exact Hcopy.
Defined.

Lemma copy_then_destroy_witness :
  rep ex_two ex_sigma /\ lists ex_two !! 2%nat = None /\
  ex_sigma !! 1%nat = Some (ex_cells_b, 2%Z) /\
  exists m1,
    SingleLinkedList_copy 2 1 ex_two = Ok tt m1 /\
    exists m2,
      destructor 2 m1 = Ok tt m2 /\ heap m2 = heap ex_two /\
      lists m2 = lists ex_two /\ rep m2 ex_sigma.
Proof.
  assert (exists m1, SingleLinkedList_copy 2 1 ex_two = Ok tt m1) as [m1 Hrun]
    by (eexists; vm_compute; reflexivity).
  pose proof (copy_then_destroy ex_two ex_sigma 2%nat 1%nat ex_cells_b 2%Z m1
                ex_rep ex_dead_2 ex_lookup_b Hrun) as Hround.
  split; [exact ex_rep|]. split; [exact ex_dead_2|]. split; [exact ex_lookup_b|].
  exists m1. split; [exact Hrun|]. exact Hround.
Defined.

Lemma assign_footprint_witness :
  rep ex_two ex_sigma /\ ex_sigma !! 0%nat = Some (ex_cells_a, 3%Z) /\
  ex_sigma !! 1%nat = Some (ex_cells_b, 2%Z) /\ 0%nat <> 1%nat /\
  match assign 0 1 ex_two with
  | Ok _ m' =>
      exists cs : list (Z * Z), cs.*2 = ex_cells_b.*2 /\
        rep m' (<[0%nat := (cs, Z.of_nat (length ex_cells_b))]> ex_sigma) /\
        (forall a, a ∈ cs.*1 -> heap ex_two !! a = None) /\
        (forall a, a ∈ ex_cells_a.*1 ->
           heap m' !! a = None /\ deref (mkIter (HeapNode a)) m' = UB) /\
        (forall a, a ∉ cs.*1 -> a ∉ ex_cells_a.*1 -> heap m' !! a = heap ex_two !! a) /\
        (forall l', l' <> 0%nat -> lists m' !! l' = lists ex_two !! l')
  | BadAlloc m' => heap m' = heap ex_two /\ lists m' = lists ex_two
  | _ => False
  end.
Proof.
  assert (0%nat <> 1%nat) as Hne by discriminate.
  pose proof (assign_footprint ex_two ex_sigma 0%nat 1%nat ex_cells_a 3%Z ex_cells_b
                2%Z ex_rep ex_lookup_a ex_lookup_b Hne) as Hassign.
  split; [exact ex_rep|]. split; [exact ex_lookup_a|]. split; [exact ex_lookup_b|].
  split; [exact Hne|]. exact Hassign.
Defined.



Lemma iterator_walk_witness :
  rep ex_two ex_sigma /\ ex_sigma !! 0%nat = Some (ex_cells_a, 3%Z) /\
  begin 0 ex_two = Ok (mkIter (HeapNode 16)) ex_two /\
  deref (mkIter (HeapNode 32)) ex_two = Ok 2%Z ex_two /\
  post_incr (mkIter (HeapNode 32)) ex_two =
    Ok (mkIter (HeapNode 32), mkIter (HeapNode 48)) ex_two /\
  pre_incr (mkIter (HeapNode 48)) ex_two = end_ 0 ex_two.
Proof.
  destruct (iterator_walk ex_two ex_sigma 0%nat ex_cells_a 3%Z ex_rep ex_lookup_a)
    as (_ & Hbegin & Hat).
  pose proof (Hat 1%nat (32, 2)%Z eq_refl) as Hsecond. cbv zeta in Hsecond.
  destruct Hsecond as (Hd & _ & Hpost & _).
  pose proof (Hat 2%nat (48, 3)%Z eq_refl) as Hthird. cbv zeta in Hthird.
  destruct Hthird as (_ & _ & _ & _ & Hlast & _).
  split; [exact ex_rep|]. split; [exact ex_lookup_a|]. split; [exact Hbegin|].
  split; [exact Hd|]. split; [exact Hpost|]. exact (Hlast eq_refl).
Defined.

Lemma swap_keeps_iterators_witness :
  rep ex_two ex_sigma /\ ex_sigma !! 0%nat = Some (ex_cells_a, 3%Z) /\
  ex_sigma !! 1%nat = Some (ex_cells_b, 2%Z) /\
  exists m',
    swap 0 1 ex_two = Ok tt m' /\
    begin 0 m' = Ok (mkIter (HeapNode 64)) m' /\
    begin 1 m' = Ok (mkIter (HeapNode 16)) m' /\
    deref (mkIter (HeapNode 16)) m' = Ok 1%Z m' /\
    pre_incr (mkIter (HeapNode 16)) m' = Ok (mkIter (HeapNode 32)) m'.
Proof.
  assert (exists m', swap 0 1 ex_two = Ok tt m') as [m' Hrun]
    by (eexists; vm_compute; reflexivity).
  destruct (swap_keeps_iterators ex_two ex_sigma 0%nat 1%nat ex_cells_a 3%Z ex_cells_b
              2%Z m' ex_rep ex_lookup_a ex_lookup_b Hrun)
    as (H1 & _ & H3 & _ & H5).
  destruct (H5 0%nat ex_cells_a 3%Z 0%nat (16, 1)%Z ex_lookup_a eq_refl)
    as (_ & Hd & _ & Hi).
  split; [exact ex_rep|]. split; [exact ex_lookup_a|]. split; [exact ex_lookup_b|].
  exists m'. split; [exact Hrun|]. split; [exact H1|]. split; [exact H3|].
  split; [exact Hd|]. exact Hi.
Defined.

Lemma list_equality_equivalence_witness :
  list_at ex_two 0 ex_cells_a 3 /\ list_at ex_two 1 ex_cells_b 2 /\
  holds (op_eq 0 0) ex_two /\
  ~ holds (op_lt 0 0) ex_two /\ ~ holds (op_gt 0 0) ex_two /\
  holds (op_le 0 0) ex_two /\ holds (op_ge 0 0) ex_two /\
  (holds (op_eq 0 1) ex_two -> holds (op_eq 1 0) ex_two).
Proof.
  assert (forall x y : Z, elt_eq x y = true -> elt_eq y x = true) as Hsym.
  { intros x y. simpl. rewrite !Z.eqb_eq. lia. }
  assert (forall x y : Z, elt_eq x y = true -> elt_lt x y = false /\ elt_lt y x = false)
    as Hne.
  { intros x y. simpl. rewrite Z.eqb_eq, !Z.ltb_ge. lia. }
  assert (holds (op_eq 0 0) ex_two) as Heq by (vm_compute; reflexivity).
  destruct (list_equality_equivalence ex_two 0%nat 0%nat 0%nat _ _ _ _ _ _
              ex_list_a ex_list_a ex_list_a) as (_ & _ & Hless).
  destruct (list_equality_equivalence ex_two 0%nat 1%nat 0%nat _ _ _ _ _ _
              ex_list_a ex_list_b ex_list_a) as (Hswap & _ & _).
  destruct (Hless Hne Heq) as (H1 & H2 & H3 & H4).
  split; [exact ex_list_a|]. split; [exact ex_list_b|]. split; [exact Heq|].
  split; [exact H1|]. split; [exact H2|]. split; [exact H3|]. split; [exact H4|].
  exact (Hswap Hsym).
Defined.

Lemma InsertAfter_foreign_position_witness :
  rep ex_two ex_sigma /\ 0%nat <> 1%nat /\
  ex_sigma !! 0%nat = Some (ex_cells_a, Z.of_nat (length ex_cells_a)) /\
  ex_sigma !! 1%nat = Some (ex_cells_b, Z.of_nat (length ex_cells_b)) /\
  (1 <= length ex_cells_b)%nat /\
  match InsertAfter 0 (mkIter (pos_ptr 1 ex_cells_b 1)) 9%Z ex_two with
  | Ok it m' =>
      traverse 0 m' = Ok ex_cells_a.*2 m' /\
      GetSize 0 m' = Ok (Z.of_nat (length ex_cells_a) + 1)%Z m' /\
      traverse 1 m' = Ok (take 1 ex_cells_b.*2 ++ 9%Z :: drop 1 ex_cells_b.*2) m' /\
      GetSize 1 m' = Ok (Z.of_nat (length ex_cells_b)) m' /\
      deref it m' = Ok 9%Z m' /\
      ~ well_formed m' 0 /\ ~ well_formed m' 1
  | BadAlloc m' =>
      heap m' = heap ex_two /\ lists m' = lists ex_two /\ ~ supply 1 ex_two
  | _ => False
  end.
Proof.
  assert (0%nat <> 1%nat) as Hne by discriminate.
  assert (1 <= length ex_cells_b)%nat as Hk by (simpl; lia).
  pose proof (InsertAfter_foreign_position ex_two ex_sigma 0%nat 1%nat ex_cells_a
                ex_cells_b 1%nat 9%Z ex_rep Hne ex_lookup_a ex_lookup_b Hk) as Hins.
  split; [exact ex_rep|]. split; [exact Hne|]. split; [exact ex_lookup_a|].
  split; [exact ex_lookup_b|]. split; [exact Hk|]. exact Hins.
Defined.

Lemma ex_allocated : is_Some (heap ex_two !! 16%Z).
Proof. vm_compute. eexists. reflexivity. Qed.

Lemma no_leak_witness :
  reachable ex_two /\ is_Some (heap ex_two !! 16%Z) /\
  exists l (cs : list (Z * Z)) s,
    list_at ex_two l cs s /\ 16%Z ∈ cs.*1 /\
    forall l' cs' s', list_at ex_two l' cs' s' -> 16%Z ∈ cs'.*1 -> l' = l.
Proof.
  pose proof (no_leak ex_two 16%Z ex_reachable ex_allocated) as Howned.
  split; [exact ex_reachable|]. split; [exact ex_allocated|]. exact Howned.
Defined.
